(** * Tesla-coil WAV simulator: timer model, logic signal and envelope

    A shallow embedding of [midi_converter/tesla_wav_simulator.py].

    Numbers.  Python [int] is [Z].  Python [float] is modelled twice.

    In the exact model a float is a real number ([R]): [+ - * /] are exact,
    [**] is [Rpower], [cos] and [pi] are the real cosine and [PI].  The
    signal generator, [set_note], [next_change], the envelope and
    [ArduinoTimerSim.update] are written in it, and a statement about them
    is a statement about the program run in exact arithmetic; where a
    concrete run is evaluated, the inputs are chosen so that the integers
    the program computes (tick counts, counters, duties, frames) are the
    same in binary64.

    In the binary64 model a float operation is the exact operation followed
    by rounding to the nearest double, ties to even ([b64_round], [b64]),
    with overflow to infinity.  It is used where rounding decides what the
    program does:
    - [ArduinoTimerSim.update_binary64] is [update] with its three float
      operations, with [round] raising [OverflowError] on an infinity, and
      with the quotient [self.current / self.top] of the reduction rounded
      to a double before [int] truncates it.  The rounded quotient is the
      integer quotient only while the counter is below [2 ^ 53];
    - the sampling loop of [generate_wav] adds the double [1.0 / SAMPLE_RATE]
      to the sample time in binary64, so the sample times are not the exact
      multiples of 1/44100 (the 44100 steps from -1 do not end on 0), and
      the time of the last sample is a rounded sum.

    Exceptions.  A computation ends in [Ok v], in [Raise e] (a Python
    exception) or in [OutOfFuel] (the bound on loop iterations given to the
    model was reached; the program itself has no such bound).  A method that
    raises ends the conversion; the model keeps no timer state for that
    case. *)

From Stdlib Require Import Reals Lra Lia ZArith List Bool Psatz Sorted Znumtheory.
Import ListNotations.

Open Scope R_scope.

(** ** Outcomes *)

Inductive exn : Set :=
| ZeroDivisionError
| StopIteration
| IndexError
| TypeError
| StructError
| OverflowError.

Inductive outcome (A : Type) : Type :=
| Ok (a : A)
| Raise (e : exn)
| OutOfFuel.

Arguments Ok {A} a.
Arguments Raise {A} e.
Arguments OutOfFuel {A}.

Definition bind {A B : Type} (m : outcome A) (k : A -> outcome B) : outcome B :=
  match m with
  | Ok a => k a
  | Raise e => Raise e
  | OutOfFuel => OutOfFuel
  end.

Notation "x <- m ;; k" := (bind m (fun x => k))
  (at level 61, m at next level, right associativity).

(** ** Python numeric primitives on the idealised floats *)

(** [x / y] on floats: division by zero raises. *)
Definition py_truediv (x y : R) : outcome R :=
  if Req_dec_T y 0 then Raise ZeroDivisionError else Ok (x / y).

(** [int(x)]: truncation toward zero. *)
Definition py_int (x : R) : Z :=
  if Rle_dec 0 x then Int_part x else (- Int_part (- x))%Z.

(** [round(x)] with one argument: nearest integer, ties to the even one.
    The result is already a Python [int], so [int(round(x))] is [py_round x]. *)
Definition py_round (x : R) : Z :=
  let f := Int_part x in
  let d := x - IZR f in
  if Rlt_dec d (1 / 2) then f
  else if Rlt_dec (1 / 2) d then (f + 1)%Z
  else if Z.even f then f else (f + 1)%Z.

(** ** Binary64 arithmetic

    Where a statement depends on how CPython rounds, the float operations
    are carried out as IEEE 754 binary64 does: the exact result is rounded
    to the nearest double, ties to the even one, and a result too large for
    a double is an infinity. *)

(** The binary exponent of [x]: [2 ^ (b64_mag x - 1) <= |x| < 2 ^ b64_mag x]
    for [x <> 0]. *)
Definition b64_mag (x : R) : Z := (Int_part (ln (Rabs x) / ln 2) + 1)%Z.

(** The exponent of the last place of the double nearest [x]: 53 significant
    bits, and never below [2 ^ -1074] (the subnormal range). *)
Definition b64_exp (x : R) : Z := Z.max (b64_mag x - 53) (-1074).

(** Round to nearest, ties to even, on an unbounded exponent range. *)
Definition b64_round (x : R) : R :=
  IZR (py_round (x * powerRZ 2 (- b64_exp x))) * powerRZ 2 (b64_exp x).

(** The value of a float expression: a finite double, or an infinity (no
    operation below tells the two infinities apart). *)
Inductive float : Type :=
| Finite (x : R)
| Infinity.

(** The double for the exact result [x]. *)
Definition b64 (x : R) : float :=
  if Rlt_dec (Rabs (b64_round x)) (powerRZ 2 1024)
  then Finite (b64_round x) else Infinity.

(** [x - y] on two finite floats. *)
Definition float_sub (x y : R) : float := b64 (x - y).

(** [a * y] and [a / y] for a finite [y] that is not 0. *)
Definition float_mul (a : float) (y : R) : float :=
  match a with
  | Finite x => b64 (x * y)
  | Infinity => Infinity
  end.

Definition float_div (a : float) (y : R) : float :=
  match a with
  | Finite x => b64 (x / y)
  | Infinity => Infinity
  end.

(** [float(z)], also where an [int] operand is converted for a float
    operation. *)
Definition py_float_of_int (z : Z) : outcome R :=
  match b64 (IZR z) with
  | Finite x => Ok x
  | Infinity => Raise OverflowError
  end.

(** [round(a)] on a float. *)
Definition py_round_float (a : float) : outcome Z :=
  match a with
  | Finite x => Ok (py_round x)
  | Infinity => Raise OverflowError
  end.

(** [a / b] on two ints: the correctly rounded quotient. *)
Definition py_int_truediv (a b : Z) : outcome R :=
  if (b =? 0)%Z then Raise ZeroDivisionError
  else match b64 (IZR a / IZR b) with
       | Finite x => Ok x
       | Infinity => Raise OverflowError
       end.

(** The numbers of the form [m * 2 ^ e] with [|m| < 2 ^ 53] and
    [e >= -1074]: the doubles, on an exponent range without upper end. *)
Definition b64_representable (y : R) : Prop :=
  exists m e : Z,
    y = IZR m * powerRZ 2 e /\ (Z.abs m < 2 ^ 53)%Z /\ (-1074 <= e)%Z.

(** ** Module constants *)

Definition COIL_FREQ : R := 250000.
Definition HALF_CYCLE_LENGTH : R := 1 / (2 * COIL_FREQ).
Definition MAX_HALF_CYCLES : Z := 10.
Definition MAX_PULSE_LENGTH : R := IZR MAX_HALF_CYCLES * HALF_CYCLE_LENGTH.

Definition SAMPLE_RATE : Z := 44100.
Definition PULSE_INIT : R := 0.
Definition PULSE_MAX : R := 32767.
Definition PULSE_STEP : R := PULSE_MAX / IZR MAX_HALF_CYCLES.
Definition PULSE_SLOPE : R := PULSE_STEP / HALF_CYCLE_LENGTH.

Definition MIDI_BASE_FREQ : R := 440.
Definition MIDI_BASE_NOTE : Z := 69.

Definition get_midi_freq (note : Z) : R :=
  MIDI_BASE_FREQ * Rpower 2 (IZR (note - MIDI_BASE_NOTE) / 12).

Definition ARDUINO_FREQ : R := 16000000.

(** ** class ArduinoTimerSim *)

Module ArduinoTimerSim.

Record t : Type := mk {
  max : Z;
  prescale_values : list Z;
  prescale : Z;
  top : Z;
  min_freq : R;
  duty : Z;
  current : Z;
  current_t : R
}.

(** [xs[-1]] *)
Definition last_item (xs : list Z) : outcome Z :=
  match rev xs with
  | [] => Raise IndexError
  | v :: _ => Ok v
  end.

(** [__init__] *)
Definition init (max0 : Z) (prescale_values0 : list Z) : outcome t :=
  v <- last_item prescale_values0 ;;
  m <- py_truediv ARDUINO_FREQ (IZR (v * max0)) ;;
  Ok (mk max0 prescale_values0 1 max0 m 0 0 0).

(** [next(v for v in prescale_values if ARDUINO_FREQ / (max * v) < tgt_freq)] *)
Fixpoint next_prescale (max0 : Z) (tgt_freq : R) (vs : list Z) : outcome Z :=
  match vs with
  | [] => Raise StopIteration
  | v :: vs' =>
      q <- py_truediv ARDUINO_FREQ (IZR (max0 * v)) ;;
      if Rlt_dec q tgt_freq then Ok v else next_prescale max0 tgt_freq vs'
  end.

Definition set_note (self : t) (note volume : Z) : outcome t :=
  let tgt_freq := get_midi_freq note in
  if Rlt_dec tgt_freq (min_freq self) then Ok self
  else
    p <- next_prescale (max self) tgt_freq (prescale_values self) ;;
    q <- py_truediv ARDUINO_FREQ (IZR p * tgt_freq) ;;
    let top' := py_round q in
    let current' := if (top' <=? current self)%Z then 0%Z else current self in
    let tgt_pulse := IZR (Z.min volume MAX_HALF_CYCLES) * HALF_CYCLE_LENGTH in
    d <- py_truediv (tgt_pulse * ARDUINO_FREQ) (IZR p) ;;
    let duty0 := py_round d in
    let duty' := if (duty0 =? 0)%Z then 1%Z else duty0 in
    Ok (mk (max self) (prescale_values self) p top' (min_freq self)
           duty' current' (current_t self)).

Definition set_off (self : t) : t :=
  mk (max self) (prescale_values self) (prescale self) (top self)
     (min_freq self) 0 (current self) (current_t self).

Definition current_state (self : t) : bool :=
  (current self <? duty self)%Z.

Definition next_change (self : t) : R :=
  if current_state self
  then current_t self
       + IZR (duty self - current self) * IZR (prescale self) / ARDUINO_FREQ
  else current_t self
       + IZR (top self - current self) * IZR (prescale self) / ARDUINO_FREQ.

(** [update] in exact arithmetic: the tick count is the rounded exact
    quotient, and [int(self.current / self.top)] is the integer quotient
    truncated toward zero. *)
Definition update (self : t) (tt : R) : outcome t :=
  q <- py_truediv ((tt - current_t self) * ARDUINO_FREQ) (IZR (prescale self)) ;;
  let ticks := py_round q in
  let c1 := (current self + ticks)%Z in
  r <- py_truediv (IZR c1) (IZR (top self)) ;;
  let c2 := (c1 - top self * py_int r)%Z in
  Ok (mk (max self) (prescale_values self) (prescale self) (top self)
         (min_freq self) (duty self) c2 tt).

(** [update] once more, with every float operation rounded as binary64
    rounds it.  [t - self.current_t], the product with [ARDUINO_FREQ] and the
    quotient by the prescaler (converted to a float) are float operations;
    [round] hands back an [int]; [self.current / self.top] divides two ints
    into a float, which [int] truncates. *)
Definition ticks_binary64 (self : t) (tt : R) : outcome Z :=
  p <- py_float_of_int (prescale self) ;;
  if Req_dec_T p 0 then Raise ZeroDivisionError
  else
    py_round_float
      (float_div (float_mul (float_sub tt (current_t self)) ARDUINO_FREQ) p).

Definition update_binary64 (self : t) (tt : R) : outcome t :=
  ticks <- ticks_binary64 self tt ;;
  let c1 := (current self + ticks)%Z in
  r <- py_int_truediv c1 (top self) ;;
  let c2 := (c1 - top self * py_int r)%Z in
  Ok (mk (max self) (prescale_values self) (prescale self) (top self)
         (min_freq self) (duty self) c2 tt).

End ArduinoTimerSim.

Module ATS := ArduinoTimerSim.

(** The two module-level timers, as they are when the module is loaded. *)
Definition Timer1_0 : ATS.t :=
  ATS.mk 65536 [1; 8; 64; 256; 1024]%Z 1 65536
         (ARDUINO_FREQ / IZR (1024 * 65536)) 0 0 0.
Definition Timer2_0 : ATS.t :=
  ATS.mk 256 [1; 8; 32; 64; 128; 256; 1024]%Z 1 256
         (ARDUINO_FREQ / IZR (1024 * 256)) 0 0 0.

(** ** The timer pair

    [Timer1], [Timer2] and the list [ArduinoTimers] are module globals: the
    functions below read and mutate them, so the model threads the pair
    through every call and hands it back at the end. *)

Record timers : Type := mk_timers { Timer1 : ATS.t; Timer2 : ATS.t }.

Definition fresh_timers : timers := mk_timers Timer1_0 Timer2_0.

(** [ArduinoTimers[i]] on the two-element list; Python accepts the indices
    [-2 .. 1].  [false] selects [Timer1], [true] selects [Timer2]. *)
Definition ArduinoTimers_index (i : Z) : outcome bool :=
  if ((i =? 0) || (i =? -2))%Z then Ok false
  else if ((i =? 1) || (i =? -1))%Z then Ok true
  else Raise IndexError.

(** ** Commands

    The command objects come from [arduino_midi.get_midi_commands], which is
    not part of this file; a command is modelled by the attributes that
    [generate_logic_signal] reads. *)

Inductive cmd_type : Set :=
| begin_program
| set_tempo
| note_off
| both_off
| note_on
| other_type.

Record command : Type := mk_cmd {
  time : Z;
  type : cmd_type;
  tempo : Z;
  timer : Z;
  note : Z;
  volume : Z
}.

Definition pulse : Type := (R * R)%type.

(** ** generate_logic_signal *)

(** The variables shared by [generate_logic_signal] and its closure
    [update_state], together with the global timers. *)
Record logic_state : Type := mk_ls {
  tms : timers;
  current_state : bool;
  current_pulse_start : R;
  pulses : list pulse;
  current_t : R
}.

Definition update_state (tt : R) (st : logic_state) : outcome logic_state :=
  t1 <- ATS.update (Timer1 (tms st)) tt ;;
  t2 <- ATS.update (Timer2 (tms st)) tt ;;
  let new_state := ATS.current_state t1 || ATS.current_state t2 in
  if Bool.eqb new_state (current_state st)
  then Ok (mk_ls (mk_timers t1 t2) (current_state st)
                 (current_pulse_start st) (pulses st) tt)
  else if new_state
  then Ok (mk_ls (mk_timers t1 t2) new_state tt (pulses st) tt)
  else
    let pulse_end := Rmin (current_pulse_start st + MAX_PULSE_LENGTH) tt in
    Ok (mk_ls (mk_timers t1 t2) new_state (current_pulse_start st)
              (pulses st ++ [(current_pulse_start st, pulse_end)]) tt).

(** [while current_t < cmd_t: ...]; [fuel] bounds the number of iterations. *)
Fixpoint advance_to (fuel : nat) (cmd_t : R) (st : logic_state)
  : outcome logic_state :=
  if Rlt_dec (current_t st) cmd_t then
    match fuel with
    | O => OutOfFuel
    | S fuel' =>
        let next_timer_change :=
          Rmin (ATS.next_change (Timer1 (tms st)))
               (ATS.next_change (Timer2 (tms st))) in
        st' <- (if Rlt_dec next_timer_change cmd_t
                then update_state next_timer_change st
                else update_state cmd_t st) ;;
        advance_to fuel' cmd_t st'
    end
  else Ok st.

Definition with_timers (st : logic_state) (ts : timers) : logic_state :=
  mk_ls ts (current_state st) (current_pulse_start st) (pulses st) (current_t st).

(** The [if cmd.type in ... elif ...] chain; returns the new tempo too. *)
Definition apply_cmd (cmd : command) (current_tempo : Z) (st : logic_state)
  : outcome (Z * logic_state) :=
  match type cmd with
  | begin_program | set_tempo => Ok (tempo cmd, st)
  | note_off =>
      sel <- ArduinoTimers_index (timer cmd - 1) ;;
      if sel : bool
      then Ok (current_tempo,
               with_timers st (mk_timers (Timer1 (tms st))
                                         (ATS.set_off (Timer2 (tms st)))))
      else Ok (current_tempo,
               with_timers st (mk_timers (ATS.set_off (Timer1 (tms st)))
                                         (Timer2 (tms st))))
  | both_off =>
      Ok (current_tempo,
          with_timers st (mk_timers (ATS.set_off (Timer1 (tms st)))
                                    (ATS.set_off (Timer2 (tms st)))))
  | note_on =>
      sel <- ArduinoTimers_index (timer cmd - 1) ;;
      if sel : bool
      then t2 <- ATS.set_note (Timer2 (tms st)) (note cmd) (volume cmd) ;;
           Ok (current_tempo, with_timers st (mk_timers (Timer1 (tms st)) t2))
      else t1 <- ATS.set_note (Timer1 (tms st)) (note cmd) (volume cmd) ;;
           Ok (current_tempo, with_timers st (mk_timers t1 (Timer2 (tms st))))
  | other_type => Ok (current_tempo, st)
  end.

(** The [for cmd in cmds] loop. *)
Fixpoint run_cmds (fuel : nat) (ticks_per_beat : Z) (cmds : list command)
    (last_cmd_t : R) (current_tempo : Z) (st : logic_state)
  : outcome logic_state :=
  match cmds with
  | [] => Ok st
  | cmd :: cmds' =>
      d <- py_truediv (IZR (time cmd * current_tempo))
                      (1000000 * IZR ticks_per_beat) ;;
      let cmd_t := last_cmd_t + d in
      st1 <- advance_to fuel cmd_t st ;;
      r <- apply_cmd cmd current_tempo st1 ;;
      st3 <- update_state cmd_t (snd r) ;;
      run_cmds fuel ticks_per_beat cmds' cmd_t (fst r) st3
  end.

Definition initial_logic_state (ts : timers) : logic_state :=
  mk_ls ts true 0 [] 0.

(** [generate_logic_signal]: [cmds] is what [get_midi_commands(mid, vol_scale)]
    returned, [ticks_per_beat] is [mid.ticks_per_beat], [ts] the global timers
    on entry.  The result carries the timers as the call leaves them. *)
Definition generate_logic_signal (fuel : nat) (ticks_per_beat : Z)
    (cmds : list command) (ts : timers) : outcome (list pulse * timers) :=
  st <- run_cmds fuel ticks_per_beat cmds 0 0 (initial_logic_state ts) ;;
  Ok (pulses st, tms st).

(** ** envelope *)

Definition ENERGY_TRANSFER_HALF_CYCLES : Z := 8.
Definition ENERGY_TRANSFER_TIME : R :=
  IZR ENERGY_TRANSFER_HALF_CYCLES * HALF_CYCLE_LENGTH.
Definition ENERGY_TRANSFER_SPARK_DECAY : R := 1 / 2.
Definition ENERGY_TRANSFER_EXPONENTIAL_DECAY_START : R := 1 / 10.

(** What a call of [envelope] hands back: an [int], or [None] when control
    falls off the end of the function. *)
Inductive pyval : Set :=
| PyInt (z : Z)
| PyNone.

(** [envelope] calls itself in its first branch; [depth] bounds the nesting
    of calls. *)
Fixpoint envelope_rec (depth : nat) (current_t pulse_start pulse_end : R)
  : outcome pyval :=
  match depth with
  | O => OutOfFuel
  | S depth' =>
      if Rlt_dec pulse_end current_t then
        pulse_volume <- envelope_rec depth' pulse_end pulse_start pulse_end ;;
        let transfer_cycles := (current_t - pulse_end) / ENERGY_TRANSFER_TIME in
        let decay_factor := Rpower ENERGY_TRANSFER_SPARK_DECAY transfer_cycles in
        let cos_factor :=
          if Rlt_dec decay_factor ENERGY_TRANSFER_EXPONENTIAL_DECAY_START
          then Rabs (cos (PI * transfer_cycles / 2))
          else 1 in
        match pulse_volume with
        | PyNone => Raise TypeError
        | PyInt v => Ok (PyInt (py_int (IZR v * cos_factor * decay_factor)))
        end
      else if Rlt_dec pulse_start current_t then
        Ok (PyInt (py_int (Rmin (PULSE_INIT
                                 + PULSE_SLOPE * (current_t - pulse_start))
                                PULSE_MAX)))
      else Ok PyNone
  end.

(** Two levels are all a call ever uses (see [envelope_rec_depth]). *)
Definition envelope (current_t pulse_start pulse_end : R) : outcome pyval :=
  envelope_rec 2 current_t pulse_start pulse_end.

(** ** generate_wav *)

Definition FIRST_PULSE_ON_TIME : R := 1.
Definition LAST_PULSE_OFF_TIME : R := 1.

(** [struct.pack('<h', volume)]: the frame is the 16-bit value itself. *)
Definition pack_h (volume : pyval) : outcome Z :=
  match volume with
  | PyNone => Raise StructError
  | PyInt v =>
      if ((-32768 <=? v) && (v <=? 32767))%Z then Ok v else Raise StructError
  end.

(** [xs[-1]] on the pulse list. *)
Definition last_pulse_of (xs : list pulse) : outcome pulse :=
  match rev xs with
  | [] => Raise IndexError
  | p :: _ => Ok p
  end.

Definition pulse_at (xs : list pulse) (i : nat) : outcome pulse :=
  match nth_error xs i with
  | Some p => Ok p
  | None => Raise IndexError
  end.

(** The inner [while pulse_idx + 1 < len(logic_pulses) and ...] loop; it runs
    at most [len(logic_pulses)] times, which is what [n] counts. *)
Fixpoint skip_ended (n : nat) (logic_pulses : list pulse) (sample_t : R)
    (pulse_idx : nat) : nat :=
  match n with
  | O => pulse_idx
  | S n' =>
      if (pulse_idx + 1 <? length logic_pulses)%nat then
        match nth_error logic_pulses pulse_idx with
        | Some p =>
            if Rlt_dec (snd p) sample_t
            then skip_ended n' logic_pulses sample_t (pulse_idx + 1)
            else pulse_idx
        | None => pulse_idx
        end
      else pulse_idx
  end.

(** The body of the sampling loop up to the value handed to [struct.pack]. *)
Definition sample_volume (logic_pulses : list pulse) (sample_t : R)
    (pulse_idx : nat) : outcome pyval :=
  curr_pulse <- pulse_at logic_pulses pulse_idx ;;
  if Rlt_dec sample_t (fst curr_pulse) then
    if (0 <? pulse_idx)%nat then
      last_pulse <- pulse_at logic_pulses (pulse_idx - 1) ;;
      envelope sample_t (fst last_pulse) (snd last_pulse)
    else Ok (PyInt 0)
  else envelope sample_t (fst curr_pulse) (snd curr_pulse).

(** [1.0 / SAMPLE_RATE], a double. *)
Definition SAMPLE_STEP : R := b64_round (1 / IZR SAMPLE_RATE).

(** [while sample_t <= last_t: ...]: the frames written so far and how the
    loop ended.  [sample_t += 1.0 / SAMPLE_RATE] is an addition of doubles;
    the sum stays near [last_t] and so never overflows. *)
Fixpoint sample_loop (fuel : nat) (logic_pulses : list pulse) (last_t : R)
    (sample_t : R) (pulse_idx : nat) : list Z * outcome unit :=
  if Rle_dec sample_t last_t then
    match fuel with
    | O => ([], OutOfFuel)
    | S fuel' =>
        let idx := skip_ended (length logic_pulses) logic_pulses sample_t
                              pulse_idx in
        match (v <- sample_volume logic_pulses sample_t idx ;; pack_h v) with
        | Ok frame =>
            let rest := sample_loop fuel' logic_pulses last_t
                                    (b64_round (sample_t + SAMPLE_STEP)) idx in
            (frame :: fst rest, snd rest)
        | Raise e => ([], Raise e)
        | OutOfFuel => ([], OutOfFuel)
        end
    end
  else ([], Ok tt).

(** Everything after [logic_pulses = generate_logic_signal(...)];
    [last_t = logic_pulses[-1][-1] + LAST_PULSE_OFF_TIME] is a rounded
    sum. *)
Definition render (fuel : nat) (logic_pulses : list pulse)
  : list Z * outcome unit :=
  match last_pulse_of logic_pulses with
  | Ok p =>
      sample_loop fuel logic_pulses
                  (b64_round (snd p + LAST_PULSE_OFF_TIME))
                  (- FIRST_PULSE_ON_TIME) 0
  | Raise e => ([], Raise e)
  | OutOfFuel => ([], OutOfFuel)
  end.

(** One call of [generate_wav]: the frames handed to the writer, how the call
    ended, and the global timers it leaves behind ([None] when the signal
    generator itself did not return). *)
Record wav_run : Type := mk_run {
  frames : list Z;
  status : outcome unit;
  timers_after : option timers
}.

Definition generate_wav (fuel : nat) (ticks_per_beat : Z)
    (cmds : list command) (ts : timers) : wav_run :=
  match generate_logic_signal fuel ticks_per_beat cmds ts with
  | Ok (logic_pulses, ts') =>
      let r := render fuel logic_pulses in
      mk_run (fst r) (snd r) (Some ts')
  | Raise e => mk_run [] (Raise e) None
  | OutOfFuel => mk_run [] OutOfFuel None
  end.


(** ** Predicates used in the statements *)

(** The number of ticks [update] adds for a target time [tt]. *)
Definition ticks_to (self : ATS.t) (tt : R) : Z :=
  py_round ((tt - ATS.current_t self) * ARDUINO_FREQ / IZR (ATS.prescale self)).

(** The invariants of a timer state: counter within the period, duty at most
    the period, prescaler among the candidates. *)
Definition timer_inv (self : ATS.t) : Prop :=
  (0 <= ATS.current self < ATS.top self)%Z
  /\ (ATS.duty self <= ATS.top self)%Z
  /\ In (ATS.prescale self) (ATS.prescale_values self).

(** A timer object as [__init__] configures it: a positive wrap limit, an
    ascending list of positive prescalers, and [min_freq] computed from the
    last of them. *)
Definition timer_wf (self : ATS.t) : Prop :=
  (0 < ATS.max self)%Z
  /\ Forall (fun v => 0 < v)%Z (ATS.prescale_values self)
  /\ StronglySorted Z.lt (ATS.prescale_values self)
  /\ exists v, ATS.last_item (ATS.prescale_values self) = Ok v
               /\ ATS.min_freq self = ARDUINO_FREQ / IZR (v * ATS.max self).

(** The configuration of one of the two timers of the module. *)
Definition same_config (a b : ATS.t) : Prop :=
  ATS.max a = ATS.max b
  /\ ATS.prescale_values a = ATS.prescale_values b
  /\ ATS.min_freq a = ATS.min_freq b.

Definition module_timer (self : ATS.t) : Prop :=
  same_config self Timer1_0 \/ same_config self Timer2_0.


(** A prescaler [v] fits a frequency [f] on a timer wrapping at [max0] when
    the slowest frequency of the timer at [v] is below [f]. *)
Definition prescaler_fits (max0 : Z) (f : R) (v : Z) : Prop :=
  ARDUINO_FREQ / IZR (max0 * v) < f.

Definition smallest_fitting (self : ATS.t) (f : R) (p : Z) : Prop :=
  In p (ATS.prescale_values self)
  /\ prescaler_fits (ATS.max self) f p
  /\ forall v, In v (ATS.prescale_values self) ->
               prescaler_fits (ATS.max self) f v -> (p <= v)%Z.

(** The tick count of the capped pulse width at prescaler [p]. *)
Definition duty_ticks (volume p : Z) : Z :=
  py_round (IZR (Z.min volume MAX_HALF_CYCLES) * HALF_CYCLE_LENGTH
            * ARDUINO_FREQ / IZR p).

(** The state [set_note] leaves when it has chosen the prescaler [p]. *)
Definition note_state (self : ATS.t) (note volume p : Z) : ATS.t :=
  let top' := py_round (ARDUINO_FREQ / (IZR p * get_midi_freq note)) in
  ATS.mk (ATS.max self) (ATS.prescale_values self) p top' (ATS.min_freq self)
         (if (duty_ticks volume p =? 0)%Z then 1%Z else duty_ticks volume p)
         (if (top' <=? ATS.current self)%Z then 0%Z else ATS.current self)
         (ATS.current_t self).

(** The facts about a state that [set_note] has just written. *)
Definition note_written (self self' : ATS.t) (note volume : Z) : Prop :=
  exists p,
    self' = note_state self note volume p
    /\ In p (ATS.prescale_values self) /\ (0 < p)%Z
    /\ (0 < ATS.top self')%Z
    /\ (ATS.duty self' < ATS.top self')%Z.


(** The ramp expression of the attack branch, in closed form. *)
Definition ramp_value (current_t pulse_start : R) : Z :=
  py_int (Rmin (PULSE_INIT + PULSE_SLOPE * (current_t - pulse_start)) PULSE_MAX).

(** The pulse sequence as the specification describes it: every pulse of
    strictly positive duration, strictly ascending, no two overlapping. *)
Definition pulses_strict (ps : list pulse) : Prop :=
  Forall (fun p : pulse => fst p < snd p) ps
  /\ StronglySorted (fun p q : pulse => fst p < fst q /\ snd p <= fst q) ps.

(** The pulse sequence as the generator builds it: every pulse ends at or
    after its start and at most [MAX_PULSE_LENGTH] later, and no pulse starts
    before an earlier one has ended. *)
Definition pulses_ordered (ps : list pulse) : Prop :=
  Forall (fun p : pulse => fst p <= snd p <= fst p + MAX_PULSE_LENGTH) ps
  /\ StronglySorted (fun p q : pulse => snd p <= fst q) ps.

(** A pulse that lasts exactly [MAX_PULSE_LENGTH]. *)
Definition has_capped_pulse (ps : list pulse) : Prop :=
  exists p : pulse, In p ps /\ snd p - fst p = MAX_PULSE_LENGTH.

(** A command stream as the MIDI file format allows it: delta times and
    tempi are not negative. *)
Definition cmd_ok (cmd : command) : Prop :=
  (0 <= time cmd)%Z
  /\ (type cmd = begin_program \/ type cmd = set_tempo -> 0 <= tempo cmd)%Z.

(** A timer between two commands: configured as [__init__] does, counter
    within a positive period, prescaler positive. *)
Definition timer_running (self : ATS.t) : Prop :=
  timer_wf self
  /\ (0 <= ATS.current self < ATS.top self)%Z
  /\ (0 < ATS.prescale self)%Z.

(** A timer right after a command: as above, except that [set_note] may have
    written a period of 0. *)
Definition timer_set (self : ATS.t) : Prop :=
  timer_wf self
  /\ (0 <= ATS.current self)%Z /\ (0 <= ATS.top self)%Z
  /\ (0 < ATS.top self -> ATS.current self < ATS.top self)%Z
  /\ (0 < ATS.prescale self)%Z.

(** What the generator keeps true of its pulse list and cursor. *)
Definition pulses_inv (st : logic_state) : Prop :=
  pulses_ordered (pulses st)
  /\ current_pulse_start st <= current_t st
  /\ Forall (fun p : pulse => snd p <= current_t st) (pulses st)
  /\ (current_state st = true ->
      Forall (fun p : pulse => snd p <= current_pulse_start st) (pulses st)).

Definition timers_synced (P : ATS.t -> Prop) (st : logic_state) : Prop :=
  P (Timer1 (tms st)) /\ P (Timer2 (tms st))
  /\ ATS.current_t (Timer1 (tms st)) = current_t st
  /\ ATS.current_t (Timer2 (tms st)) = current_t st.

Definition logic_inv (st : logic_state) : Prop :=
  timers_synced timer_running st /\ pulses_inv st.

(** The factor the decay branch of [envelope] multiplies the peak with:
    the exponential decay, times the cosine factor once the decay is below
    the threshold. *)
Definition decay_product (current_t pulse_end : R) : R :=
  let transfer_cycles := (current_t - pulse_end) / ENERGY_TRANSFER_TIME in
  let decay_factor := Rpower ENERGY_TRANSFER_SPARK_DECAY transfer_cycles in
  (if Rlt_dec decay_factor ENERGY_TRANSFER_EXPONENTIAL_DECAY_START
   then Rabs (cos (PI * transfer_cycles / 2))
   else 1) * decay_factor.

(** The command [cmd] with its delta time replaced by [d]. *)
Definition at_delta (d : Z) (cmd : command) : command :=
  mk_cmd d (type cmd) (tempo cmd) (timer cmd) (note cmd) (volume cmd).

(** Commands that set the tempo. *)
Definition sets_tempo (cmd : command) : Prop :=
  type cmd = begin_program \/ type cmd = set_tempo.

(** A command as the parser of the MIDI file is expected to hand it over:
    delta time and tempo not negative, a timer selector of 1 or 2 on note
    commands, a MIDI pitch on note-on. *)
Definition cmd_valid (cmd : command) : Prop :=
  cmd_ok cmd
  /\ (type cmd = note_on ->
      (timer cmd = 1 \/ timer cmd = 2)%Z /\ (0 <= note cmd <= 127)%Z)
  /\ (type cmd = note_off -> (timer cmd = 1 \/ timer cmd = 2)%Z).

(** One of the two timers of the module between two commands. *)
Definition timer_live (self : ATS.t) : Prop :=
  module_timer self
  /\ (0 <= ATS.current self < ATS.top self)%Z
  /\ (0 < ATS.prescale self)%Z.

Definition logic_live (st : logic_state) : Prop :=
  timers_synced timer_live st /\ pulses_inv st.

(** The tempo after a command. *)
Definition tempo_after (cmd : command) (current_tempo : Z) : Z :=
  match type cmd with
  | begin_program | set_tempo => tempo cmd
  | _ => current_tempo
  end.

(** The time of the last command of a stream: the delta times, each scaled
    by the tempo in force when its command is read. *)
Fixpoint end_time (ticks_per_beat : Z) (cmds : list command)
    (last_cmd_t : R) (current_tempo : Z) : R :=
  match cmds with
  | [] => last_cmd_t
  | cmd :: cmds' =>
      end_time ticks_per_beat cmds'
               (last_cmd_t + IZR (time cmd * current_tempo)
                             / (1000000 * IZR ticks_per_beat))
               (tempo_after cmd current_tempo)
  end.

(** Cursor, open pulse and recorded pulses are all at or after time 0. *)
Definition pulses_from_0 (st : logic_state) : Prop :=
  0 <= current_pulse_start st /\ 0 <= current_t st
  /\ Forall (fun p : pulse => 0 <= fst p) (pulses st).

(** The command [cmd] addressed to the timer selector [i]. *)
Definition with_timer (i : Z) (cmd : command) : command :=
  mk_cmd (time cmd) (type cmd) (tempo cmd) i (note cmd) (volume cmd).

(** As long as no pulse is recorded the generator is in its initial "high"
    state with the pulse start at 0; the first recorded pulse starts at 0 and
    ends by [MAX_PULSE_LENGTH]. *)
Definition first_pulse_inv (st : logic_state) : Prop :=
  match pulses st with
  | [] => current_state st = true /\ current_pulse_start st = 0
  | p :: _ => fst p = 0 /\ snd p <= MAX_PULSE_LENGTH
  end.

(** The output of the two timers together. *)
Definition composite_state (ts : timers) : bool :=
  ATS.current_state (Timer1 ts) || ATS.current_state (Timer2 ts).

(** A stream that sets the tempo, turns one note on at time 0 on the first
    timer, and holds it until one later command: no note-off in between. *)
Definition held_note_stream (tempo0 note0 volume0 : Z) (last : command)
  : list command :=
  [mk_cmd 0 set_tempo tempo0 0 0 0; mk_cmd 0 note_on 0 1 note0 volume0; last].

(** The generator while the first timer holds its output high and the
    second timer is off: [tf] is the time at which the first timer reaches
    its duty value.  The second timer wraps on whole ticks of the first. *)
Definition holding (tf : R) (st : logic_state) : Prop :=
  let a := Timer1 (tms st) in
  let b := Timer2 (tms st) in
  current_state st = true
  /\ (0 <= ATS.current a < ATS.duty a)%Z /\ (ATS.duty a < ATS.top a)%Z
  /\ (0 < ATS.prescale a)%Z
  /\ ATS.duty b = 0%Z /\ (0 <= ATS.current b < ATS.top b)%Z
  /\ (0 < ATS.prescale b)%Z
  /\ ATS.current_t a = current_t st /\ ATS.current_t b = current_t st
  /\ current_t st
     + IZR (ATS.duty a - ATS.current a) * IZR (ATS.prescale a) / ARDUINO_FREQ
     = tf
  /\ (ATS.prescale a | (ATS.top b - ATS.current b) * ATS.prescale b)%Z
  /\ (ATS.prescale a | ATS.top b * ATS.prescale b)%Z.

(** ** Concrete states and inputs used as examples *)

(** The first timer after one second, and the same timer moved back to
    half a second. *)
Definition Timer1_at_1 : ATS.t :=
  ATS.mk 65536 [1; 8; 64; 256; 1024]%Z 1 65536
         (ARDUINO_FREQ / IZR (1024 * 65536)) 0 9216 1.
Definition Timer1_back : ATS.t :=
  ATS.mk 65536 [1; 8; 64; 256; 1024]%Z 1 65536
         (ARDUINO_FREQ / IZR (1024 * 65536)) 0 (-60928) (1 / 2).


(** A tempo command and a note-on for A4 (pitch 69) at volume 10 on the
    first timer, both at delta time 0. *)
Definition tempo_cmd : command := mk_cmd 0 set_tempo 500000 0 0 0.
Definition a4_on_cmd : command := mk_cmd 0 note_on 0 1 69 10.

(** The first timer once it plays A4 at volume 10. *)
Definition Timer1_a4 : ATS.t :=
  ATS.mk 65536 [1; 8; 64; 256; 1024]%Z 1 36364
         (ARDUINO_FREQ / IZR (1024 * 65536)) 320 0 0.

(** A4 at volume 5 on the first timer, with a tempo of 30 microseconds per
    beat and a last command one tick later: at one tick per beat the note is
    held for 30 microseconds. *)
Definition a4_soft_stream : list command :=
  held_note_stream 30 69 5 (mk_cmd 1 set_tempo 30 0 0 0).

(** The timers that run leaves: the first at counter 480 of A4 with a duty
    of 160 ticks, the second at counter 224, both at 30 microseconds. *)
Definition Timer1_a4_soft : ATS.t :=
  ATS.mk 65536 [1; 8; 64; 256; 1024]%Z 1 36364
         (ARDUINO_FREQ / IZR (1024 * 65536)) 160 480 (3 / 100000).
Definition Timer2_soft : ATS.t :=
  ATS.mk 256 [1; 8; 32; 64; 128; 256; 1024]%Z 1 256
         (ARDUINO_FREQ / IZR (1024 * 256)) 0 224 (3 / 100000).

(** A second tempo command, 480 ticks after the command before it. *)
Definition later_cmd : command := mk_cmd 480 set_tempo 500000 0 0 0.

(** Two pulses, the first from 0 to 1 and the second from 2 to 3. *)
Definition two_pulses : list pulse := [(0, 1); (2, 3)].

(** ** Numeric lemmas *)

Lemma Int_part_bounds (x : R) : IZR (Int_part x) <= x < IZR (Int_part x) + 1.
Proof. destruct (base_Int_part x); lra. Qed.

Lemma Int_part_unique (x : R) (z : Z) : IZR z <= x < IZR z + 1 -> Int_part x = z.
Proof.
  intros [H1 H2]. symmetry. apply Int_part_spec. lra.
Qed.

Lemma Int_part_IZR (z : Z) : Int_part (IZR z) = z.
Proof. apply Int_part_unique. lra. Qed.

Lemma py_round_IZR (z : Z) : py_round (IZR z) = z.
Proof.
  unfold py_round. rewrite Int_part_IZR.
  destruct (Rlt_dec (IZR z - IZR z) (1 / 2)); [reflexivity | lra].
Qed.

Lemma py_round_near (x : R) (z : Z) :
  IZR z - 1 / 2 < x < IZR z + 1 / 2 -> py_round x = z.
Proof.
  intros [H1 H2]. unfold py_round.
  destruct (Int_part_bounds x) as [B1 B2].
  destruct (Rlt_dec (x - IZR (Int_part x)) (1 / 2)) as [L | L].
  - apply Int_part_unique. split; [| lra].
    destruct (Z_lt_le_dec (Int_part x) z) as [C | C]; [| apply IZR_le in C; lra].
    assert (Int_part x + 1 <= z)%Z as C' by lia. apply IZR_le in C'.
    rewrite plus_IZR in C'. lra.
  - destruct (Rlt_dec (1 / 2) (x - IZR (Int_part x))) as [G | G].
    + destruct (Z_lt_le_dec z (Int_part x + 1)) as [C | C].
      * assert (z <= Int_part x)%Z as C' by lia. apply IZR_le in C'. lra.
      * destruct (Z_lt_le_dec (Int_part x + 1) z) as [D | D]; [| lia].
        assert (Int_part x + 2 <= z)%Z as D' by lia. apply IZR_le in D'.
        rewrite plus_IZR in D'. lra.
    + assert (x = IZR (Int_part x) + 1 / 2) as E by lra.
      exfalso.
      destruct (Z_lt_le_dec (Int_part x) z) as [C | C].
      * assert (Int_part x + 1 <= z)%Z as C' by lia. apply IZR_le in C'.
        rewrite plus_IZR in C'. lra.
      * apply IZR_le in C. lra.
Qed.

Lemma py_round_bounds (x : R) : x - 1 / 2 <= IZR (py_round x) <= x + 1 / 2.
Proof.
  unfold py_round. destruct (Int_part_bounds x) as [B1 B2].
  destruct (Rlt_dec (x - IZR (Int_part x)) (1 / 2)) as [L | L]; [lra |].
  destruct (Rlt_dec (1 / 2) (x - IZR (Int_part x))) as [G | G].
  - rewrite plus_IZR. lra.
  - destruct (Z.even (Int_part x)); [lra | rewrite plus_IZR; lra].
Qed.

Lemma py_round_nonneg (x : R) : 0 <= x -> (0 <= py_round x)%Z.
Proof.
  intros H. destruct (py_round_bounds x) as [B _].
  destruct (Z_lt_le_dec (py_round x) 0) as [C | C]; [| assumption].
  assert (py_round x <= -1)%Z as C' by lia. apply IZR_le in C'. lra.
Qed.

Lemma py_round_nonpos (x : R) : x <= 0 -> (py_round x <= 0)%Z.
Proof.
  intros H. destruct (py_round_bounds x) as [_ B].
  destruct (Z_lt_le_dec 0 (py_round x)) as [C | C]; [| assumption].
  assert (1 <= py_round x)%Z as C' by lia. apply IZR_le in C'. lra.
Qed.

Lemma py_round_ge (x : R) (z : Z) : IZR z <= x -> (z <= py_round x)%Z.
Proof.
  intros H. destruct (py_round_bounds x) as [B _].
  destruct (Z_lt_le_dec (py_round x) z) as [C | C]; [| assumption].
  assert (py_round x + 1 <= z)%Z as C' by lia. apply IZR_le in C'.
  rewrite plus_IZR in C'. lra.
Qed.

Lemma py_round_le (x : R) (z : Z) : x <= IZR z -> (py_round x <= z)%Z.
Proof.
  intros H. destruct (py_round_bounds x) as [_ B].
  destruct (Z_lt_le_dec z (py_round x)) as [C | C]; [| assumption].
  assert (z + 1 <= py_round x)%Z as C' by lia. apply IZR_le in C'.
  rewrite plus_IZR in C'. lra.
Qed.

Lemma py_int_nonneg (x : R) (z : Z) :
  0 <= x -> IZR z <= x < IZR z + 1 -> py_int x = z.
Proof.
  intros Hx Hz. unfold py_int.
  destruct (Rle_dec 0 x); [| contradiction].
  now apply Int_part_unique.
Qed.

Lemma py_int_neg (x : R) (z : Z) :
  x < 0 -> IZR z - 1 < x <= IZR z -> py_int x = z.
Proof.
  intros Hx Hz. unfold py_int.
  destruct (Rle_dec 0 x); [lra |].
  destruct (Int_part_bounds (- x)) as [B1 B2].
  destruct (Z_lt_le_dec (- Int_part (- x)) z) as [C | C].
  - assert (- Int_part (- x) + 1 <= z)%Z as C' by lia. apply IZR_le in C'.
    rewrite plus_IZR, opp_IZR in C'. lra.
  - destruct (Z_lt_le_dec z (- Int_part (- x))) as [D | D]; [| lia].
    assert (z + 1 <= - Int_part (- x))%Z as D' by lia. apply IZR_le in D'.
    rewrite plus_IZR, opp_IZR in D'. lra.
Qed.

Lemma py_int_IZR (z : Z) : py_int (IZR z) = z.
Proof.
  destruct (Rle_dec 0 (IZR z)).
  - apply py_int_nonneg; lra.
  - apply py_int_neg; lra.
Qed.

(** [int(a / b)] on two ints is the quotient that truncates toward zero. *)
Lemma py_int_quot (a b : Z) : b <> 0%Z -> py_int (IZR a / IZR b) = (a ÷ b)%Z.
Proof.
  intros Hb.
  pose proof (Z.quot_rem' a b) as E.
  set (q := (a ÷ b)%Z) in *. set (r := Z.rem a b) in *.
  assert (IZR b <> 0) as Hb' by (now apply not_0_IZR).
  assert (IZR a / IZR b = IZR q + IZR r / IZR b) as Ex.
  { rewrite E at 1. rewrite plus_IZR, mult_IZR. field. exact Hb'. }
  destruct (Z_lt_le_dec 0 b) as [Bp | Bn].
  - assert (0 < IZR b) as Bp' by (now apply IZR_lt).
    destruct (Z_lt_le_dec a 0) as [An | Ap].
    + assert (- b < r <= 0)%Z as [R1 R2] by (apply Z.rem_bound_pos_neg; lia).
      apply IZR_lt in R1. apply IZR_le in R2. rewrite opp_IZR in R1.
      assert (-1 < IZR r / IZR b <= 0) as [F1 F2].
      { split.
        - apply Rmult_lt_reg_r with (IZR b); [assumption |].
          unfold Rdiv. rewrite Rmult_assoc, Rinv_l by assumption. lra.
        - apply Rmult_le_reg_r with (IZR b); [assumption |].
          unfold Rdiv. rewrite Rmult_assoc, Rinv_l by assumption. lra. }
      destruct (Rle_dec 0 (IZR a / IZR b)) as [P | P].
      * apply IZR_lt in An.
        assert (IZR a / IZR b < 0).
        { apply Rmult_lt_reg_r with (IZR b); [assumption |].
          unfold Rdiv. rewrite Rmult_assoc, Rinv_l by assumption. lra. }
        lra.
      * apply py_int_neg; lra.
    + assert (0 <= r < b)%Z as [R1 R2] by (apply Z.rem_bound_pos_pos; lia).
      apply IZR_le in R1. apply IZR_lt in R2.
      assert (0 <= IZR r / IZR b < 1) as [F1 F2].
      { split.
        - apply Rmult_le_reg_r with (IZR b); [assumption |].
          unfold Rdiv. rewrite Rmult_assoc, Rinv_l by assumption. lra.
        - apply Rmult_lt_reg_r with (IZR b); [assumption |].
          unfold Rdiv. rewrite Rmult_assoc, Rinv_l by assumption. lra. }
      apply py_int_nonneg; [| lra].
      apply IZR_le in Ap. rewrite Ex.
      assert (0 <= IZR a / IZR b); [| lra].
      apply Rmult_le_reg_r with (IZR b); [assumption |].
      unfold Rdiv. rewrite Rmult_assoc, Rinv_l by assumption. lra.
  - assert (b < 0)%Z as Bn' by lia. apply IZR_lt in Bn'.
    assert (0 < - IZR b) as Bm by lra.
    destruct (Z_lt_le_dec 0 a) as [Ap | An].
    + assert (0 <= r < - b)%Z as [R1 R2] by (apply Z.rem_bound_neg_pos; lia).
      apply IZR_le in R1. apply IZR_lt in R2. rewrite opp_IZR in R2.
      assert (-1 < IZR r / IZR b <= 0) as [F1 F2].
      { split.
        - apply Rmult_lt_reg_r with (- IZR b); [assumption |].
          replace (IZR r / IZR b * - IZR b) with (- IZR r) by (field; lra). lra.
        - apply Rmult_le_reg_r with (- IZR b); [assumption |].
          replace (IZR r / IZR b * - IZR b) with (- IZR r) by (field; lra). lra. }
      apply IZR_lt in Ap.
      assert (IZR a / IZR b < 0).
      { apply Rmult_lt_reg_r with (- IZR b); [assumption |].
        replace (IZR a / IZR b * - IZR b) with (- IZR a) by (field; lra). lra. }
      apply py_int_neg; lra.
    + assert (b < r <= 0)%Z as [R1 R2] by (apply Z.rem_bound_neg_neg; lia).
      apply IZR_lt in R1. apply IZR_le in R2.
      assert (0 <= IZR r / IZR b < 1) as [F1 F2].
      { split.
        - apply Rmult_le_reg_r with (- IZR b); [assumption |].
          replace (IZR r / IZR b * - IZR b) with (- IZR r) by (field; lra). lra.
        - apply Rmult_lt_reg_r with (- IZR b); [assumption |].
          replace (IZR r / IZR b * - IZR b) with (- IZR r) by (field; lra). lra. }
      apply IZR_le in An.
      assert (0 <= IZR a / IZR b).
      { apply Rmult_le_reg_r with (- IZR b); [assumption |].
        replace (IZR a / IZR b * - IZR b) with (- IZR a) by (field; lra). lra. }
      apply py_int_nonneg; lra.
Qed.

Lemma py_truediv_ok (x y : R) : y <> 0 -> py_truediv x y = Ok (x / y).
Proof.
  intros H. unfold py_truediv. destruct (Req_dec_T y 0); [contradiction | reflexivity].
Qed.

Lemma py_truediv_zero (x : R) : py_truediv x 0 = Raise ZeroDivisionError.
Proof.
  unfold py_truediv. destruct (Req_dec_T 0 0); [reflexivity | congruence].
Qed.

(** ** The timer: [update] *)

Lemma update_ok (self : ATS.t) (tt : R) :
  ATS.prescale self <> 0%Z -> ATS.top self <> 0%Z ->
  ATS.update self tt =
  Ok (ATS.mk (ATS.max self) (ATS.prescale_values self) (ATS.prescale self)
             (ATS.top self) (ATS.min_freq self) (ATS.duty self)
             (Z.rem (ATS.current self + ticks_to self tt) (ATS.top self)) tt).
Proof.
  intros Hp Ht. unfold ATS.update, ticks_to.
  rewrite py_truediv_ok by (now apply not_0_IZR). cbn [bind].
  rewrite py_truediv_ok by (now apply not_0_IZR). cbn [bind].
  rewrite py_int_quot by assumption.
  do 2 f_equal.
  set (c := (ATS.current self + _)%Z).
  pose proof (Z.quot_rem' c (ATS.top self)). lia.
Qed.

(** ** Note frequencies *)

Lemma get_midi_freq_pos (n : Z) : 0 < get_midi_freq n.
Proof.
  unfold get_midi_freq, MIDI_BASE_FREQ, Rpower.
  apply Rmult_lt_0_compat; [lra | apply exp_pos].
Qed.

Lemma get_midi_freq_base : get_midi_freq 69 = 440.
Proof.
  unfold get_midi_freq, MIDI_BASE_FREQ, MIDI_BASE_NOTE. simpl (69 - 69)%Z.
  replace (0 / 12) with 0 by lra. rewrite Rpower_O by lra. lra.
Qed.

Lemma Rpower_2_nat (n : nat) : Rpower 2 (INR n) = 2 ^ n.
Proof. apply Rpower_pow. lra. Qed.

Lemma get_midi_freq_midi_range (n : Z) :
  (0 <= n <= 127)%Z -> 440 / 64 <= get_midi_freq n <= 440 * 32.
Proof.
  intros [H0 H1]. unfold get_midi_freq, MIDI_BASE_FREQ, MIDI_BASE_NOTE.
  apply IZR_le in H0, H1. 
  assert (-6 <= IZR (n - 69) / 12 <= 5) as [L U].
  { rewrite minus_IZR. lra. }
  assert (Rpower 2 (-6) <= Rpower 2 (IZR (n - 69) / 12)) as A
    by (apply Rle_Rpower; lra).
  assert (Rpower 2 (IZR (n - 69) / 12) <= Rpower 2 5) as B
    by (apply Rle_Rpower; lra).
  replace (Rpower 2 5) with 32 in B.
  2:{ replace 5 with (INR 5) by (simpl; lra). rewrite Rpower_2_nat. simpl. lra. }
  replace (Rpower 2 (-6)) with (/ 64) in A.
  2:{ replace (-6) with (- INR 6) by (simpl; lra). rewrite Rpower_Ropp, Rpower_2_nat. simpl. f_equal. lra. }
  lra.
Qed.

Lemma eleven_divides_double (a : Z) : (11 | 2 * a)%Z -> (11 | a)%Z.
Proof.
  intros [q Hq]. exists (6 * q - a)%Z. lia.
Qed.

Lemma eleven_divides_pow2 (n : nat) (a : Z) :
  (11 | a * 2 ^ Z.of_nat n)%Z -> (11 | a)%Z.
Proof.
  revert a. induction n as [| n IH]; intros a H.
  - simpl in H. now rewrite Z.mul_1_r in H.
  - rewrite Nat2Z.inj_succ, Z.pow_succ_r in H by lia.
    apply eleven_divides_double, IH.
    replace (2 * a * 2 ^ Z.of_nat n)%Z with (a * (2 * 2 ^ Z.of_nat n))%Z by ring.
    exact H.
Qed.

Lemma eleven_not_divides_clock : ~ (11 | 400000 ^ 12)%Z.
Proof.
  intros H. apply Z.mod_divide in H; [| lia]. vm_compute in H. discriminate.
Qed.

Lemma eleven_divides_pow12 (m : Z) : (11 | (11 * m) ^ 12)%Z.
Proof.
  exists (m * (11 * m) ^ 11)%Z.
  change 12%Z with (Z.succ 11). rewrite Z.pow_succ_r by lia. ring.
Qed.

(** The twelfth power of the equal-tempered ratio is a power of two. *)
Lemma semitone_ratio_pow12 (k : Z) :
  Rpower 2 (IZR k / 12) ^ 12 = powerRZ 2 k.
Proof.
  rewrite <- Rpower_pow by (unfold Rpower; apply exp_pos).
  rewrite Rpower_mult.
  replace (IZR k / 12 * INR 12) with (IZR k) by (simpl; lra).
  symmetry. apply powerRZ_Rpower. lra.
Qed.

(** No note has a frequency of the form [ARDUINO_FREQ / m] with [m] an
    integer: 11 divides 440 but not the clock. *)
Lemma get_midi_freq_not_clock_fraction (note m : Z) :
  m <> 0%Z -> get_midi_freq note <> ARDUINO_FREQ / IZR m.
Proof.
  intros Hm E. unfold get_midi_freq, MIDI_BASE_FREQ, ARDUINO_FREQ in E.
  set (k := (note - MIDI_BASE_NOTE)%Z) in E.
  assert (IZR m <> 0) as Hm' by (now apply not_0_IZR).
  assert (Rpower 2 (IZR k / 12) = 400000 / (11 * IZR m)) as Ey.
  { apply Rmult_eq_reg_l with 440; [| lra]. rewrite E. field. exact Hm'. }
  pose proof (semitone_ratio_pow12 k) as P. rewrite Ey in P.
  assert (400000 ^ 12 = powerRZ 2 k * (11 * IZR m) ^ 12) as Q.
  { rewrite <- P. unfold Rdiv. rewrite Rpow_mult_distr, pow_inv.
    field. exact Hm'. }
  clear P Ey E.
  destruct k as [| p | p]; simpl powerRZ in Q.
  - apply eleven_not_divides_clock.
    rewrite Rmult_1_l in Q.
    rewrite <- mult_IZR, !pow_IZR in Q. apply eq_IZR in Q.
    simpl Z.of_nat in Q. rewrite Q. apply eleven_divides_pow12.
  - apply eleven_not_divides_clock.
    rewrite <- mult_IZR, !pow_IZR, <- mult_IZR in Q. apply eq_IZR in Q.
    simpl (Z.of_nat 12) in Q. rewrite Q.
    apply Z.divide_mul_r, eleven_divides_pow12.
  - apply eleven_not_divides_clock.
    apply (eleven_divides_pow2 (Pos.to_nat p)).
    assert (400000 ^ 12 * 2 ^ Pos.to_nat p = (11 * IZR m) ^ 12) as Q'.
    { rewrite Q. field. apply pow_nonzero. lra. }
    rewrite <- mult_IZR, !pow_IZR, <- mult_IZR in Q'. apply eq_IZR in Q'.
    simpl (Z.of_nat 12) in Q'. rewrite Q'. apply eleven_divides_pow12.
Qed.

(** ** The timer: [set_note] *)

Lemma next_prescale_first (max0 : Z) (f : R) (vs : list Z) :
  (0 < max0)%Z -> Forall (fun v => 0 < v)%Z vs ->
  (exists v, In v vs /\ prescaler_fits max0 f v) ->
  exists p pre post,
    vs = pre ++ p :: post
    /\ Forall (fun v => ~ prescaler_fits max0 f v) pre
    /\ prescaler_fits max0 f p
    /\ ATS.next_prescale max0 f vs = Ok p.
Proof.
  intros Hmax. induction vs as [| v vs IH]; intros Hpos [w [Hin Hfit]].
  - destruct Hin.
  - inversion Hpos as [| ? ? Hv Hvs]; subst.
    cbn [ATS.next_prescale].
    rewrite py_truediv_ok by (apply not_0_IZR; nia). cbn [bind].
    destruct (Rlt_dec (ARDUINO_FREQ / IZR (max0 * v)) f) as [L | L].
    + exists v, [], vs. repeat split; auto.
    + destruct IH as (p & pre & post & E & Hpre & Hp & Hn); [assumption | |].
      * destruct Hin as [-> | Hin]; [contradiction | eauto].
      * exists p, (v :: pre), post. subst vs. repeat split; auto.
Qed.

Lemma next_prescale_none (max0 : Z) (f : R) (vs : list Z) :
  (0 < max0)%Z -> Forall (fun v => 0 < v)%Z vs ->
  Forall (fun v => ~ prescaler_fits max0 f v) vs ->
  ATS.next_prescale max0 f vs = Raise StopIteration.
Proof.
  intros Hmax. induction vs as [| v vs IH]; intros Hpos Hno; [reflexivity |].
  inversion Hpos; inversion Hno; subst.
  cbn [ATS.next_prescale].
  rewrite py_truediv_ok by (apply not_0_IZR; nia). cbn [bind].
  destruct (Rlt_dec (ARDUINO_FREQ / IZR (max0 * v)) f); [contradiction | auto].
Qed.

Lemma sorted_after (pre post : list Z) (p : Z) :
  StronglySorted Z.lt (pre ++ p :: post) -> Forall (Z.lt p) post.
Proof.
  induction pre as [| a pre IH]; simpl; intros H.
  - now apply StronglySorted_inv in H.
  - apply StronglySorted_inv in H. tauto.
Qed.

Lemma last_item_In (vs : list Z) (v : Z) : ATS.last_item vs = Ok v -> In v vs.
Proof.
  unfold ATS.last_item. intros H. apply in_rev.
  destruct (rev vs); [discriminate | injection H as ->; now left].
Qed.

Lemma sorted_before (l : list Z) (vl v : Z) :
  StronglySorted Z.lt (l ++ [vl]) -> In v l -> (v < vl)%Z.
Proof.
  induction l as [| a l IH]; simpl; intros Hs Hin; [destruct Hin |].
  apply StronglySorted_inv in Hs. destruct Hs as [Hs Ha].
  destruct Hin as [-> | Hin]; [| auto].
  rewrite Forall_forall in Ha. apply Ha, in_or_app. right. now left.
Qed.

Lemma last_item_largest (vs : list Z) (vl : Z) :
  StronglySorted Z.lt vs -> ATS.last_item vs = Ok vl ->
  forall v, In v vs -> (v <= vl)%Z.
Proof.
  unfold ATS.last_item. intros Hs H v Hin.
  destruct (rev vs) as [| x xs] eqn:E; [discriminate |]. injection H as ->.
  assert (vs = rev xs ++ [vl]) as Evs.
  { rewrite <- (rev_involutive vs), E. reflexivity. }
  subst vs. apply in_app_or in Hin. destruct Hin as [Hin | [-> | []]]; [| lia].
  pose proof (sorted_before _ _ _ Hs Hin). lia.
Qed.

(** What [set_note] computes once the prescaler [p] is chosen. *)
Lemma set_note_with (self : ATS.t) (note volume p : Z) :
  ~ get_midi_freq note < ATS.min_freq self ->
  ATS.next_prescale (ATS.max self) (get_midi_freq note)
                    (ATS.prescale_values self) = Ok p ->
  p <> 0%Z ->
  ATS.set_note self note volume = Ok (note_state self note volume p).
Proof.
  intros Hf Hp Hnz. unfold ATS.set_note, note_state.
  destruct (Rlt_dec (get_midi_freq note) (ATS.min_freq self)); [contradiction |].
  rewrite Hp. cbn [bind].
  assert (IZR p <> 0) by (now apply not_0_IZR).
  pose proof (get_midi_freq_pos note).
  rewrite py_truediv_ok by nra. cbn [bind].
  rewrite py_truediv_ok by assumption. cbn [bind].
  reflexivity.
Qed.

Lemma Rdiv_ge_mult (a b c : R) : 0 < b -> c * b <= a -> c <= a / b.
Proof.
  intros Hb H. apply Rmult_le_reg_r with b; [assumption |].
  unfold Rdiv. rewrite Rmult_assoc, Rinv_l by lra. lra.
Qed.

Lemma duty_ticks_le (volume p D : Z) :
  (0 < p)%Z -> (320 <= D * p)%Z -> (duty_ticks volume p <= D)%Z.
Proof.
  intros Hp HD. unfold duty_ticks. apply py_round_le.
  assert (IZR (Z.min volume MAX_HALF_CYCLES) <= 10) as Hm.
  { apply IZR_le. unfold MAX_HALF_CYCLES. lia. }
  apply IZR_lt in Hp. apply IZR_le in HD. rewrite mult_IZR in HD.
  apply Rmult_le_reg_r with (IZR p); [assumption |].
  unfold Rdiv. rewrite Rmult_assoc, Rinv_l by lra.
  unfold HALF_CYCLE_LENGTH, COIL_FREQ, ARDUINO_FREQ. lra.
Qed.

Lemma duty_ticks_nonneg (volume p : Z) :
  (0 < p)%Z -> (0 <= volume)%Z -> (0 <= duty_ticks volume p)%Z.
Proof.
  intros Hp Hv. unfold duty_ticks. apply py_round_nonneg.
  apply IZR_lt in Hp.
  assert (0 <= IZR (Z.min volume MAX_HALF_CYCLES)).
  { apply IZR_le. unfold MAX_HALF_CYCLES. lia. }
  unfold HALF_CYCLE_LENGTH, COIL_FREQ, ARDUINO_FREQ.
  apply Rmult_le_pos; [| left; now apply Rinv_0_lt_compat].
  nra.
Qed.

Lemma note_top_ge (note p N : Z) (f : R) :
  f = get_midi_freq note -> (0 < p)%Z -> IZR N * (IZR p * f) <= ARDUINO_FREQ ->
  (N <= py_round (ARDUINO_FREQ / (IZR p * get_midi_freq note)))%Z.
Proof.
  intros -> Hp H. apply py_round_ge, Rdiv_ge_mult; [| assumption].
  apply IZR_lt in Hp. pose proof (get_midi_freq_pos note). nra.
Qed.

Ltac note_case note volume p N D :=
  exists p; split; [reflexivity |];
  split; [simpl; tauto |]; split; [lia |];
  assert (N <= py_round (ARDUINO_FREQ / (IZR p * get_midi_freq note)))%Z
    by (eapply note_top_ge; [reflexivity | lia | unfold ARDUINO_FREQ in *; lra]);
  assert (duty_ticks volume p <= D)%Z by (apply duty_ticks_le; lia);
  unfold note_state, duty_ticks in *; cbn [ATS.top ATS.duty];
  split; [lia |];
  match goal with |- context [(?d =? 0)%Z] => destruct (d =? 0)%Z end; lia.

Ltac note_step H :=
  cbn [bind] in H;
  rewrite !py_truediv_ok in H by (try apply not_0_IZR; try lia; nra);
  cbn [bind] in H; injection H as <-; right.

Lemma set_note_module_timer (self self' : ATS.t) (note volume : Z) :
  module_timer self -> (0 <= note <= 127)%Z ->
  ATS.set_note self note volume = Ok self' ->
  self' = self \/ note_written self self' note volume.
Proof.
  intros Hcfg Hnote.
  pose proof (get_midi_freq_midi_range note Hnote) as [Flo Fhi].
  pose proof (get_midi_freq_pos note) as Fpos.
  destruct self as [mx pvs ps tp mf dt cur ct].
  destruct Hcfg as [(E1 & E2 & E3) | (E1 & E2 & E3)];
    cbn in E1, E2, E3; subst mx pvs mf.
  - intros H.
    assert (~ get_midi_freq note < ARDUINO_FREQ / IZR (1024 * 65536)) as Hmin.
    { unfold ARDUINO_FREQ. simpl (1024 * 65536)%Z. lra. }
    unfold ATS.set_note in H. cbn [ATS.min_freq ATS.max ATS.prescale_values] in H.
    destruct (Rlt_dec _ _) as [? | _] in H; [contradiction |].
    unfold ATS.next_prescale in H.
    repeat (rewrite py_truediv_ok in H by (apply not_0_IZR; lia); cbn [bind] in H).
    simpl Z.mul in H.
    destruct (Rlt_dec (ARDUINO_FREQ / 65536) _) as [A1 | A1] in H.
    { note_step H. note_case note volume 1%Z 1136%Z 320%Z. }
    destruct (Rlt_dec (ARDUINO_FREQ / 524288) _) as [A2 | A2] in H.
    { note_step H. note_case note volume 8%Z 8192%Z 40%Z. }
    destruct (Rlt_dec (ARDUINO_FREQ / 4194304) _) as [A3 | A3] in H.
    { note_step H. note_case note volume 64%Z 8192%Z 5%Z. }
    exfalso. unfold ARDUINO_FREQ in *. lra.
  - intros H.
    unfold ATS.set_note in H. cbn [ATS.min_freq ATS.max ATS.prescale_values] in H.
    destruct (Rlt_dec _ _) as [? | Hmin] in H; [injection H as <-; now left |].
    unfold ATS.next_prescale in H.
    repeat (rewrite py_truediv_ok in H by (apply not_0_IZR; lia); cbn [bind] in H).
    simpl Z.mul in H.
    destruct (Rlt_dec (ARDUINO_FREQ / 256) _) as [A1 | A1] in H.
    { exfalso. unfold ARDUINO_FREQ in *. lra. }
    destruct (Rlt_dec (ARDUINO_FREQ / 2048) _) as [A2 | A2] in H.
    { note_step H. note_case note volume 8%Z 142%Z 40%Z. }
    destruct (Rlt_dec (ARDUINO_FREQ / 8192) _) as [A3 | A3] in H.
    { note_step H. note_case note volume 32%Z 64%Z 10%Z. }
    destruct (Rlt_dec (ARDUINO_FREQ / 16384) _) as [A4 | A4] in H.
    { note_step H. note_case note volume 64%Z 128%Z 5%Z. }
    destruct (Rlt_dec (ARDUINO_FREQ / 32768) _) as [A5 | A5] in H.
    { note_step H. note_case note volume 128%Z 128%Z 3%Z. }
    destruct (Rlt_dec (ARDUINO_FREQ / 65536) _) as [A6 | A6] in H.
    { note_step H. note_case note volume 256%Z 128%Z 2%Z. }
    destruct (Rlt_dec (ARDUINO_FREQ / 262144) _) as [A7 | A7] in H.
    { note_step H. note_case note volume 1024%Z 64%Z 1%Z. }
    discriminate H.
Qed.

(** ** Well-formed timers *)

Lemma Timer1_0_wf : timer_wf Timer1_0.
Proof.
  unfold timer_wf, Timer1_0. cbn.
  split; [lia |]. split; [repeat constructor; lia |].
  split; [repeat constructor; lia |].
  exists 1024%Z. split; reflexivity.
Qed.

Lemma Timer2_0_wf : timer_wf Timer2_0.
Proof.
  unfold timer_wf, Timer2_0. cbn.
  split; [lia |]. split; [repeat constructor; lia |].
  split; [repeat constructor; lia |].
  exists 1024%Z. split; reflexivity.
Qed.

Lemma same_config_wf (a b : ATS.t) : same_config a b -> timer_wf b -> timer_wf a.
Proof.
  intros (E1 & E2 & E3). unfold timer_wf. now rewrite E1, E2, E3.
Qed.

Lemma module_timer_wf (self : ATS.t) : module_timer self -> timer_wf self.
Proof.
  intros [H | H]; eapply same_config_wf; eauto using Timer1_0_wf, Timer2_0_wf.
Qed.

Lemma wf_prescale_pos (self : ATS.t) (v : Z) :
  timer_wf self -> In v (ATS.prescale_values self) -> (0 < v)%Z.
Proof.
  intros (_ & Hpos & _) Hin. rewrite Forall_forall in Hpos. auto.
Qed.

(** On a well-formed timer a note that is not below [min_freq] always finds
    a prescaler. *)
Lemma set_note_finds_prescaler (self : ATS.t) (note : Z) :
  timer_wf self -> ~ get_midi_freq note < ATS.min_freq self ->
  exists p pre post,
    ATS.prescale_values self = pre ++ p :: post
    /\ Forall (fun v => ~ prescaler_fits (ATS.max self) (get_midi_freq note) v) pre
    /\ prescaler_fits (ATS.max self) (get_midi_freq note) p
    /\ ATS.next_prescale (ATS.max self) (get_midi_freq note)
                         (ATS.prescale_values self) = Ok p.
Proof.
  intros (Hmax & Hpos & Hsort & vl & Hlast & Hmin) Hge.
  pose proof (last_item_In _ _ Hlast) as Hin.
  assert (0 < vl)%Z as Hvlpos by (rewrite Forall_forall in Hpos; auto).
  apply next_prescale_first; [assumption | assumption |].
  exists vl. split; [assumption |]. unfold prescaler_fits.
  replace (ATS.max self * vl)%Z with (vl * ATS.max self)%Z by ring.
  rewrite <- Hmin.
  assert (get_midi_freq note <> ATS.min_freq self); [| lra].
  rewrite Hmin. apply get_midi_freq_not_clock_fraction. nia.
Qed.

Lemma set_note_returns (self : ATS.t) (note volume : Z) :
  timer_wf self -> exists self', ATS.set_note self note volume = Ok self'.
Proof.
  intros Hwf.
  destruct (Rlt_dec (get_midi_freq note) (ATS.min_freq self)) as [L | L].
  - exists self. unfold ATS.set_note.
    destruct (Rlt_dec _ _); [reflexivity | contradiction].
  - destruct (set_note_finds_prescaler self note Hwf L)
      as (p & pre & post & E & _ & _ & Hn).
    exists (note_state self note volume p).
    apply set_note_with; [assumption | assumption |].
    assert (0 < p)%Z; [| lia].
    apply (wf_prescale_pos self); [assumption |].
    rewrite E. apply in_or_app. right. now left.
Qed.

(** C4.  On a timer configured as [__init__] leaves it, [set_note] changes
    nothing when the note's frequency [f = 440 * 2^((note-69)/12)] is below
    [ARDUINO_FREQ / (max * vl)], [vl] being the last and largest prescaler;
    otherwise it picks the smallest prescaler [p] of the list with
    [ARDUINO_FREQ / (max * p) < f], sets the period to
    [round(ARDUINO_FREQ / (p * f))], resets the counter to 0 when it is not
    below the new period, and sets the duty to the tick count of the capped
    pulse width, or to 1 when that count is below 1. *)
Theorem set_note_behaviour (self : ATS.t) (note volume vl : Z) :
  timer_wf self ->
  ATS.last_item (ATS.prescale_values self) = Ok vl ->
  let f := get_midi_freq note in
  (forall v, In v (ATS.prescale_values self) -> (v <= vl)%Z)
  /\ (f < ARDUINO_FREQ / IZR (ATS.max self * vl) ->
      ATS.set_note self note volume = Ok self)
  /\ (~ f < ARDUINO_FREQ / IZR (ATS.max self * vl) ->
      exists p,
        smallest_fitting self f p
        /\ ATS.set_note self note volume = Ok (note_state self note volume p)
        /\ ATS.prescale (note_state self note volume p) = p
        /\ ATS.top (note_state self note volume p)
           = py_round (ARDUINO_FREQ / (IZR p * f))
        /\ ATS.current (note_state self note volume p)
           = (if (ATS.top (note_state self note volume p) <=? ATS.current self)%Z
              then 0%Z else ATS.current self)
        /\ ((0 <= volume)%Z ->
            ATS.duty (note_state self note volume p)
            = Z.max 1 (duty_ticks volume p))).
Proof.
  intros Hwf Hvl f.
  pose proof Hwf as (Hmax & Hpos & Hsort & v0 & Hlast & Hmin).
  rewrite Hlast in Hvl. injection Hvl as ->.
  replace (ATS.max self * vl)%Z with (vl * ATS.max self)%Z by ring.
  rewrite <- Hmin.
  split; [now apply last_item_largest |].
  split.
  - intros Hlt. unfold ATS.set_note. fold f.
    destruct (Rlt_dec f (ATS.min_freq self)); [reflexivity | contradiction].
  - intros Hge.
    destruct (set_note_finds_prescaler self note Hwf Hge)
      as (p & pre & post & E & Hpre & Hp & Hn).
    assert (In p (ATS.prescale_values self)) as Hinp.
    { rewrite E. apply in_or_app. right. now left. }
    pose proof (wf_prescale_pos self p Hwf Hinp) as Hppos.
    exists p. split; [| split; [| split; [| split; [| split]]]].
    + split; [assumption | split; [assumption |]].
      intros v Hv Hvfit. rewrite E in Hv, Hsort.
      apply in_app_or in Hv. destruct Hv as [Hv | [-> | Hv]].
      * rewrite Forall_forall in Hpre. now apply Hpre in Hv.
      * lia.
      * apply sorted_after in Hsort. rewrite Forall_forall in Hsort.
        apply Hsort in Hv. lia.
    + apply set_note_with; [assumption | assumption | lia].
    + reflexivity.
    + reflexivity.
    + reflexivity.
    + intros Hvol. unfold note_state. cbn [ATS.duty].
      pose proof (duty_ticks_nonneg volume p Hppos Hvol).
      destruct (duty_ticks volume p =? 0)%Z eqn:Ez; lia.
Qed.

Lemma set_note_behaviour_witness :
  (forall v, In v (ATS.prescale_values Timer1_0) -> (v <= 1024)%Z)
  /\ (get_midi_freq 69 < ARDUINO_FREQ / IZR (ATS.max Timer1_0 * 1024) ->
      ATS.set_note Timer1_0 69 10 = Ok Timer1_0)
  /\ (~ get_midi_freq 69 < ARDUINO_FREQ / IZR (ATS.max Timer1_0 * 1024) ->
      exists p,
        smallest_fitting Timer1_0 (get_midi_freq 69) p
        /\ ATS.set_note Timer1_0 69 10 = Ok (note_state Timer1_0 69 10 p)
        /\ ATS.prescale (note_state Timer1_0 69 10 p) = p
        /\ ATS.top (note_state Timer1_0 69 10 p)
           = py_round (ARDUINO_FREQ / (IZR p * get_midi_freq 69))
        /\ ATS.current (note_state Timer1_0 69 10 p)
           = (if (ATS.top (note_state Timer1_0 69 10 p) <=? ATS.current Timer1_0)%Z
              then 0%Z else ATS.current Timer1_0)
        /\ ((0 <= 10)%Z ->
            ATS.duty (note_state Timer1_0 69 10 p)
            = Z.max 1 (duty_ticks 10 p))).
Proof.
  apply (set_note_behaviour Timer1_0 69 10 1024).
  - unfold timer_wf, Timer1_0. cbn.
    split; [lia |]. split; [repeat constructor; lia |].
    split; [repeat constructor; lia |].
    exists 1024%Z. split; reflexivity.
  - reflexivity.
Defined.

(** ** Invariants of the timer *)

Lemma same_config_trans (a b c : ATS.t) :
  same_config a b -> same_config b c -> same_config a c.
Proof. unfold same_config. intuition congruence. Qed.

Lemma module_timer_config (a b : ATS.t) :
  same_config a b -> module_timer b -> module_timer a.
Proof.
  intros H [M | M]; [left | right]; eapply same_config_trans; eauto.
Qed.

Lemma note_state_config (self : ATS.t) (note volume p : Z) :
  same_config (note_state self note volume p) self.
Proof. repeat split. Qed.

Lemma set_off_config (self : ATS.t) : same_config (ATS.set_off self) self.
Proof. repeat split. Qed.

Lemma update_config (self self' : ATS.t) (tt : R) :
  ATS.update self tt = Ok self' -> same_config self' self.
Proof.
  unfold ATS.update, py_truediv. intros H.
  destruct (Req_dec_T _ _); [discriminate |]. cbn [bind] in H.
  destruct (Req_dec_T _ _); [discriminate |]. cbn [bind] in H.
  injection H as <-. repeat split.
Qed.

Lemma ticks_to_nonneg (self : ATS.t) (tt : R) :
  (0 < ATS.prescale self)%Z -> ATS.current_t self <= tt ->
  (0 <= ticks_to self tt)%Z.
Proof.
  intros Hp Ht. unfold ticks_to. apply py_round_nonneg.
  apply IZR_lt in Hp.
  assert (0 < / IZR (ATS.prescale self)) by (now apply Rinv_0_lt_compat).
  unfold Rdiv, ARDUINO_FREQ. nra.
Qed.

(** [update] to a later time keeps the counter inside the period. *)
Lemma update_forward (self : ATS.t) (tt : R) :
  (0 < ATS.prescale self)%Z -> (0 <= ATS.current self < ATS.top self)%Z ->
  ATS.current_t self <= tt ->
  exists self',
    ATS.update self tt = Ok self'
    /\ (0 <= ATS.current self' < ATS.top self')%Z
    /\ ATS.top self' = ATS.top self /\ ATS.duty self' = ATS.duty self
    /\ ATS.prescale self' = ATS.prescale self
    /\ ATS.prescale_values self' = ATS.prescale_values self
    /\ ATS.current_t self' = tt.
Proof.
  intros Hp Hc Ht. eexists. split; [apply update_ok; lia |].
  cbn. repeat split; try reflexivity.
  - apply Z.rem_bound_pos; [| lia].
    pose proof (ticks_to_nonneg self tt Hp Ht). lia.
  - apply Z.rem_bound_pos; [| lia].
    pose proof (ticks_to_nonneg self tt Hp Ht). lia.
Qed.







(** Going to a time that lies [x] ticks ahead adds exactly [x] ticks. *)
Lemma ticks_to_ahead (self : ATS.t) (x : Z) :
  ATS.prescale self <> 0%Z ->
  ticks_to self (ATS.current_t self
                 + IZR x * IZR (ATS.prescale self) / ARDUINO_FREQ) = x.
Proof.
  intros Hp. unfold ticks_to.
  assert (IZR (ATS.prescale self) <> 0) by (now apply not_0_IZR).
  replace ((ATS.current_t self + IZR x * IZR (ATS.prescale self) / ARDUINO_FREQ
            - ATS.current_t self) * ARDUINO_FREQ / IZR (ATS.prescale self))
    with (IZR x) by (unfold ARDUINO_FREQ; field; assumption).
  apply py_round_IZR.
Qed.

(** [update] to [next_change ()]: where the counter lands. *)
Lemma update_to_next_change (self : ATS.t) :
  (0 < ATS.prescale self)%Z -> (0 <= ATS.current self < ATS.top self)%Z ->
  (ATS.duty self <= 0 \/ ATS.duty self < ATS.top self)%Z ->
  exists self',
    ATS.update self (ATS.next_change self) = Ok self'
    /\ ATS.duty self' = ATS.duty self
    /\ ATS.current self'
       = (if ATS.current_state self then ATS.duty self else 0%Z).
Proof.
  intros Hp Hc Hd. eexists. split; [apply update_ok; lia |].
  cbn. split; [reflexivity |].
  unfold ATS.next_change, ATS.current_state.
  destruct (Z.ltb_spec (ATS.current self) (ATS.duty self)) as [L | L].
  - rewrite ticks_to_ahead by lia.
    replace (ATS.current self + (ATS.duty self - ATS.current self))%Z
      with (ATS.duty self) by ring.
    apply Z.rem_small. lia.
  - rewrite ticks_to_ahead by lia.
    replace (ATS.current self + (ATS.top self - ATS.current self))%Z
      with (ATS.top self) by ring.
    apply Z.rem_same. lia.
Qed.




(** ** The envelope *)

(** The attack branch and the fall-through, which one level of the function
    reaches when the sample time is not after the end of the pulse. *)
Lemma envelope_rec_not_after (depth : nat) (current_t pulse_start pulse_end : R) :
  ~ pulse_end < current_t ->
  envelope_rec (S depth) current_t pulse_start pulse_end =
  if Rlt_dec pulse_start current_t
  then Ok (PyInt (ramp_value current_t pulse_start))
  else Ok PyNone.
Proof.
  intros H. cbn [envelope_rec].
  destruct (Rlt_dec pulse_end current_t); [contradiction | reflexivity].
Qed.

(** The nested call is made at the end of the pulse, so it never nests
    again: any depth from 2 on gives what depth 2 gives. *)
Lemma envelope_rec_depth (depth : nat) (current_t pulse_start pulse_end : R) :
  envelope_rec (S (S depth)) current_t pulse_start pulse_end
  = envelope current_t pulse_start pulse_end.
Proof.
  unfold envelope.
  destruct (Rlt_dec pulse_end current_t) as [L | L].
  - cbn [envelope_rec].
    destruct (Rlt_dec pulse_end current_t); [| contradiction].
    destruct (Rlt_dec pulse_end pulse_end); [lra | reflexivity].
  - rewrite !envelope_rec_not_after by assumption. reflexivity.
Qed.

Lemma envelope_at_end (pulse_start pulse_end : R) :
  pulse_start < pulse_end ->
  envelope pulse_end pulse_start pulse_end
  = Ok (PyInt (ramp_value pulse_end pulse_start)).
Proof.
  intros H. unfold envelope. rewrite envelope_rec_not_after by lra.
  destruct (Rlt_dec pulse_start pulse_end); [reflexivity | contradiction].
Qed.

(** C7.  For a pulse with [start < end] and a sample time after [end], the
    amplitude is the integer part of [peak * decay * oscillation]: [peak] is
    the value of the envelope at [end], which is the ramp expression
    evaluated there; [periods = (t - end) / ENERGY_TRANSFER_TIME];
    [decay = 0.5 ^ periods]; [oscillation] is 1 when [decay] is at least the
    threshold 0.1 and [|cos (pi * periods / 2)|] otherwise.  The nested call
    that computes [peak] goes one level deep, whatever depth is allowed. *)
Theorem envelope_decay (current_t pulse_start pulse_end : R) :
  pulse_start < pulse_end -> pulse_end < current_t ->
  let peak := ramp_value pulse_end pulse_start in
  let periods := (current_t - pulse_end) / ENERGY_TRANSFER_TIME in
  let decay := Rpower ENERGY_TRANSFER_SPARK_DECAY periods in
  let oscillation :=
    if Rle_dec ENERGY_TRANSFER_EXPONENTIAL_DECAY_START decay
    then 1 else Rabs (cos (PI * periods / 2)) in
  envelope pulse_end pulse_start pulse_end = Ok (PyInt peak)
  /\ envelope current_t pulse_start pulse_end
     = Ok (PyInt (py_int (IZR peak * decay * oscillation)))
  /\ forall depth,
       envelope_rec (S (S depth)) current_t pulse_start pulse_end
       = envelope current_t pulse_start pulse_end.
Proof.
  intros Hse Het peak periods decay oscillation.
  split; [now apply envelope_at_end |]. split; [| intros; apply envelope_rec_depth].
  unfold envelope. cbn [envelope_rec].
  destruct (Rlt_dec pulse_end current_t); [| contradiction].
  destruct (Rlt_dec pulse_end pulse_end); [lra |].
  destruct (Rlt_dec pulse_start pulse_end); [| contradiction].
  cbn [bind]. fold (ramp_value pulse_end pulse_start). fold peak.
  fold periods. fold decay. do 3 f_equal.
  unfold oscillation.
  destruct (Rlt_dec decay ENERGY_TRANSFER_EXPONENTIAL_DECAY_START),
           (Rle_dec ENERGY_TRANSFER_EXPONENTIAL_DECAY_START decay);
    try lra; ring.
Qed.

Lemma envelope_decay_witness :
  let peak := ramp_value 1 0 in
  let periods := (2 - 1) / ENERGY_TRANSFER_TIME in
  let decay := Rpower ENERGY_TRANSFER_SPARK_DECAY periods in
  let oscillation :=
    if Rle_dec ENERGY_TRANSFER_EXPONENTIAL_DECAY_START decay
    then 1 else Rabs (cos (PI * periods / 2)) in
  envelope 1 0 1 = Ok (PyInt peak)
  /\ envelope 2 0 1 = Ok (PyInt (py_int (IZR peak * decay * oscillation)))
  /\ forall depth, envelope_rec (S (S depth)) 2 0 1 = envelope 2 0 1.
Proof.
  apply (envelope_decay 2 0 1); lra.
Defined.

(** C10.  At a sample time that is not after the start of the pulse,
    [envelope] hands back no integer: it falls off its end and returns
    [None] when the time is not after the end of the pulse either, and it
    raises [TypeError] (its nested call returned [None]) when it is. *)
Theorem envelope_not_after_start (current_t pulse_start pulse_end : R) :
  current_t <= pulse_start ->
  (~ pulse_end < current_t ->
   envelope current_t pulse_start pulse_end = Ok PyNone)
  /\ (pulse_end < current_t ->
      envelope current_t pulse_start pulse_end = Raise TypeError)
  /\ (forall v, envelope current_t pulse_start pulse_end <> Ok (PyInt v))
  /\ forall logic_pulses pulse_idx,
       nth_error logic_pulses pulse_idx = Some (pulse_start, pulse_end) ->
       current_t = pulse_start -> ~ pulse_end < current_t ->
       (v <- sample_volume logic_pulses current_t pulse_idx ;; pack_h v)
       = Raise StructError.
Proof.
  intros Hts.
  assert (~ pulse_end < current_t ->
          envelope current_t pulse_start pulse_end = Ok PyNone) as A.
  { intros H. unfold envelope. rewrite envelope_rec_not_after by assumption.
    destruct (Rlt_dec pulse_start current_t); [lra | reflexivity]. }
  assert (pulse_end < current_t ->
          envelope current_t pulse_start pulse_end = Raise TypeError) as B.
  { intros H. unfold envelope. cbn [envelope_rec].
    destruct (Rlt_dec pulse_end current_t); [| contradiction].
    destruct (Rlt_dec pulse_end pulse_end); [lra |].
    destruct (Rlt_dec pulse_start pulse_end); [lra | reflexivity]. }
  split; [exact A | split; [exact B | split]].
  - intros v. destruct (Rlt_dec pulse_end current_t) as [L | L].
    + rewrite (B L). discriminate.
    + rewrite (A L). discriminate.
  - intros logic_pulses pulse_idx Hnth Heq Hend.
    unfold sample_volume, pulse_at, pulse in *. rewrite Hnth. cbn [bind fst snd].
    destruct (Rlt_dec current_t pulse_start); [lra |].
    rewrite (A Hend). reflexivity.
Qed.

Lemma envelope_not_after_start_witness :
  (~ 2 < 1 -> envelope 1 1 2 = Ok PyNone)
  /\ (2 < 1 -> envelope 1 1 2 = Raise TypeError)
  /\ (forall v, envelope 1 1 2 <> Ok (PyInt v))
  /\ forall logic_pulses pulse_idx,
       nth_error logic_pulses pulse_idx = Some (1, 2) ->
       1 = 1 -> ~ 2 < 1 ->
       (v <- sample_volume logic_pulses 1 pulse_idx ;; pack_h v)
       = Raise StructError.
Proof.
  apply (envelope_not_after_start 1 1 2). lra.
Defined.

(** ** The logic signal: concrete runs *)

Lemma ticks_to_same_time (self : ATS.t) : ticks_to self (ATS.current_t self) = 0%Z.
Proof.
  unfold ticks_to.
  replace ((ATS.current_t self - ATS.current_t self) * ARDUINO_FREQ
           / IZR (ATS.prescale self)) with (IZR 0)
    by (unfold Rdiv; ring).
  apply py_round_IZR.
Qed.

(** [update] to the time the timer is already at changes nothing. *)
Lemma update_same_time (self : ATS.t) :
  ATS.prescale self <> 0%Z -> (0 <= ATS.current self < ATS.top self)%Z ->
  ATS.update self (ATS.current_t self) = Ok self.
Proof.
  intros Hp Hc. rewrite update_ok by lia. rewrite ticks_to_same_time.
  rewrite Z.add_0_r, Z.rem_small by lia. now destruct self.
Qed.

Lemma advance_to_done (fuel : nat) (cmd_t : R) (st : logic_state) :
  ~ current_t st < cmd_t -> advance_to fuel cmd_t st = Ok st.
Proof.
  intros H. destruct fuel; cbn [advance_to];
    destruct (Rlt_dec (current_t st) cmd_t); try contradiction; reflexivity.
Qed.

(** A command whose delta time, scaled by the tempo, is zero is handled at
    the time of the command before it, without running the timers. *)
Lemma run_cmds_same_time (fuel : nat) (ticks_per_beat : Z) (cmd : command)
    (cmds : list command) (last_cmd_t : R) (current_tempo : Z)
    (st : logic_state) :
  ticks_per_beat <> 0%Z -> (time cmd * current_tempo = 0)%Z ->
  current_t st = last_cmd_t ->
  run_cmds fuel ticks_per_beat (cmd :: cmds) last_cmd_t current_tempo st
  = (r <- apply_cmd cmd current_tempo st ;;
     st3 <- update_state last_cmd_t (snd r) ;;
     run_cmds fuel ticks_per_beat cmds last_cmd_t (fst r) st3).
Proof.
  intros Htpb Hz Hct. cbn [run_cmds]. rewrite Hz.
  assert (IZR ticks_per_beat <> 0) by (now apply not_0_IZR).
  rewrite py_truediv_ok by nra. cbn [bind].
  replace (last_cmd_t + 0 / (1000000 * IZR ticks_per_beat)) with last_cmd_t
    by (unfold Rdiv; ring).
  rewrite advance_to_done by lra. reflexivity.
Qed.

Lemma MAX_PULSE_LENGTH_pos : 0 < MAX_PULSE_LENGTH.
Proof.
  unfold MAX_PULSE_LENGTH, MAX_HALF_CYCLES, HALF_CYCLE_LENGTH, COIL_FREQ. lra.
Qed.

Lemma Rmin_cap_zero : Rmin (0 + MAX_PULSE_LENGTH) 0 = 0.
Proof. apply Rmin_right. pose proof MAX_PULSE_LENGTH_pos. lra. Qed.

Lemma Timer1_0_update_0 : ATS.update Timer1_0 0 = Ok Timer1_0.
Proof. apply (update_same_time Timer1_0); cbn; lia. Qed.

Lemma Timer2_0_update_0 : ATS.update Timer2_0 0 = Ok Timer2_0.
Proof. apply (update_same_time Timer2_0); cbn; lia. Qed.

Lemma Timer1_a4_update_0 : ATS.update Timer1_a4 0 = Ok Timer1_a4.
Proof. apply (update_same_time Timer1_a4); cbn; lia. Qed.

(** A4 on the first timer: prescaler 1, period 36364, duty 320. *)
Lemma set_note_a4 (self : ATS.t) :
  same_config self Timer1_0 -> (0 <= ATS.current self < 36364)%Z ->
  ATS.set_note self 69 10
  = Ok (ATS.mk 65536 [1; 8; 64; 256; 1024]%Z 1 36364
               (ARDUINO_FREQ / IZR (1024 * 65536)) 320 (ATS.current self)
               (ATS.current_t self)).
Proof.
  intros (E1 & E2 & E3) Hc.
  assert (~ get_midi_freq 69 < ATS.min_freq self) as Hmin.
  { rewrite E3, get_midi_freq_base. cbn. unfold ARDUINO_FREQ. lra. }
  rewrite (set_note_with self 69 10 1 Hmin); [| | lia].
  - unfold note_state, duty_ticks. rewrite E1, E2, E3, get_midi_freq_base.
    assert (py_round (ARDUINO_FREQ / (1 * 440)) = 36364%Z) as ->.
    { apply py_round_near. unfold ARDUINO_FREQ. lra. }
    assert (py_round (IZR (Z.min 10 MAX_HALF_CYCLES) * HALF_CYCLE_LENGTH
                      * ARDUINO_FREQ / 1) = 320%Z) as ->.
    { replace (IZR (Z.min 10 MAX_HALF_CYCLES) * HALF_CYCLE_LENGTH
               * ARDUINO_FREQ / 1) with (IZR 320).
      - apply py_round_IZR.
      - cbn. unfold HALF_CYCLE_LENGTH, COIL_FREQ, ARDUINO_FREQ. lra. }
    cbn. destruct (Z.leb_spec 36364 (ATS.current self)); [lia | reflexivity].
  - rewrite E1, E2, get_midi_freq_base. cbn [Timer1_0 ATS.max ATS.prescale_values].
    cbn [ATS.next_prescale].
    rewrite py_truediv_ok by (apply not_0_IZR; lia). cbn [bind].
    destruct (Rlt_dec _ _) as [L | L]; [reflexivity |].
    exfalso. apply L. cbn. unfold ARDUINO_FREQ. lra.
Qed.

(** The run on the single tempo command from the fresh timers. *)
Lemma tempo_only_run (fuel : nat) :
  generate_logic_signal fuel 480 [tempo_cmd] fresh_timers
  = Ok ([(0, 0)], fresh_timers).
Proof.
  unfold generate_logic_signal.
  rewrite run_cmds_same_time by (try reflexivity; lia).
  cbn [apply_cmd tempo_cmd type bind snd fst].
  unfold update_state. cbn [initial_logic_state tms fresh_timers Timer1 Timer2].
  rewrite Timer1_0_update_0, Timer2_0_update_0. cbn.
  rewrite Rmin_cap_zero. reflexivity.
Qed.

(** The run on the single note-on command from the fresh timers. *)
Lemma note_on_only_run (fuel : nat) :
  generate_logic_signal fuel 480 [a4_on_cmd] fresh_timers
  = Ok ([], mk_timers Timer1_a4 Timer2_0).
Proof.
  unfold generate_logic_signal.
  rewrite run_cmds_same_time by (try reflexivity; lia).
  cbn [apply_cmd a4_on_cmd type timer note volume bind snd fst].
  cbn [ArduinoTimers_index Z.sub Z.eqb orb Z.pos_sub Z.add Z.opp bind
       initial_logic_state tms fresh_timers Timer1 Timer2 with_timers].
  rewrite (set_note_a4 Timer1_0) by (try (repeat split); cbn; lia).
  cbn [bind snd fst Timer1_0 ATS.current ATS.current_t]. fold Timer1_0 Timer1_a4.
  unfold update_state. cbn [tms Timer1 Timer2 with_timers].
  rewrite Timer1_a4_update_0, Timer2_0_update_0. cbn. reflexivity.
Qed.

(** ** Binary64: powers of two, rounding, representable numbers *)

(** powers of two *)
Lemma pow2_pos (e : Z) : 0 < powerRZ 2 e.
Proof. apply powerRZ_lt. lra. Qed.

Lemma pow2_add (a b : Z) : powerRZ 2 (a + b) = powerRZ 2 a * powerRZ 2 b.
Proof. apply powerRZ_add. lra. Qed.

Lemma pow2_opp (a : Z) : powerRZ 2 (- a) = / powerRZ 2 a.
Proof. apply powerRZ_neg'. Qed.

Lemma pow2_cancel (a : Z) : powerRZ 2 (- a) * powerRZ 2 a = 1.
Proof. rewrite pow2_opp. apply Rinv_l. pose proof (pow2_pos a). lra. Qed.

Lemma pow2_IZR (e : Z) : (0 <= e)%Z -> powerRZ 2 e = IZR (2 ^ e).
Proof.
  intros H. rewrite <- (Z2Nat.id e H) at 1. rewrite <- pow_powerRZ.
  rewrite pow_IZR. now rewrite Z2Nat.id.
Qed.

Lemma pow2_le (a b : Z) : (a <= b)%Z -> powerRZ 2 a <= powerRZ 2 b.
Proof.
  intros H. rewrite !powerRZ_Rpower by lra.
  apply Rle_Rpower; [lra | now apply IZR_le].
Qed.

Lemma pow2_lt (a b : Z) : (a < b)%Z -> powerRZ 2 a < powerRZ 2 b.
Proof.
  intros H. rewrite !powerRZ_Rpower by lra.
  apply Rpower_lt; [lra | now apply IZR_lt].
Qed.

Lemma pow2_lt_inv (a b : Z) : powerRZ 2 a < powerRZ 2 b -> (a < b)%Z.
Proof.
  intros H. destruct (Z_lt_le_dec a b) as [L | L]; [exact L |].
  apply pow2_le in L. lra.
Qed.

Lemma pow2_double (a : Z) : powerRZ 2 (a + 1) = 2 * powerRZ 2 a.
Proof. rewrite pow2_add. simpl. lra. Qed.

(** the binary exponent *)
Lemma ln_2_pos : 0 < ln 2.
Proof. pose proof ln_lt_2. lra. Qed.

Lemma b64_mag_spec (x : R) :
  x <> 0 -> powerRZ 2 (b64_mag x - 1) <= Rabs x < powerRZ 2 (b64_mag x).
Proof.
  intros Hx. pose proof (Rabs_pos_lt x Hx) as Ha.
  unfold b64_mag. set (l := ln (Rabs x) / ln 2).
  destruct (Int_part_bounds l) as [B1 B2]. pose proof ln_2_pos as H2.
  assert (Rabs x = Rpower 2 l) as E.
  { unfold Rpower, l. replace (ln (Rabs x) / ln 2 * ln 2) with (ln (Rabs x))
      by (field; lra). now rewrite exp_ln. }
  rewrite !powerRZ_Rpower by lra. rewrite E. split.
  - apply Rle_Rpower; [lra |].
    replace (Int_part l + 1 - 1)%Z with (Int_part l) by ring. exact B1.
  - apply Rpower_lt; [lra |]. rewrite plus_IZR. exact B2.
Qed.

Lemma b64_mag_unique (x : R) (m : Z) :
  powerRZ 2 (m - 1) <= Rabs x < powerRZ 2 m -> b64_mag x = m.
Proof.
  intros [H1 H2].
  assert (x <> 0) as Hx.
  { intros ->. rewrite Rabs_R0 in H1. pose proof (pow2_pos (m - 1)). lra. }
  destruct (b64_mag_spec x Hx) as [S1 S2].
  assert (b64_mag x - 1 < m)%Z by (apply pow2_lt_inv; lra).
  assert (m - 1 < b64_mag x)%Z by (apply pow2_lt_inv; lra).
  lia.
Qed.

Lemma b64_mag_opp (x : R) : b64_mag (- x) = b64_mag x.
Proof. unfold b64_mag. now rewrite Rabs_Ropp. Qed.

Lemma b64_exp_opp (x : R) : b64_exp (- x) = b64_exp x.
Proof. unfold b64_exp. now rewrite b64_mag_opp. Qed.

(** round *)






Lemma py_round_opp (x : R) : py_round (- x) = (- py_round x)%Z.
Proof.
  destruct (Int_part_bounds x) as [B1 B2].
  set (f := Int_part x) in *.
  destruct (Req_dec x (IZR f)) as [E | N].
  - rewrite E, <- opp_IZR, !py_round_IZR. reflexivity.
  - assert (Int_part (- x) = (- f - 1)%Z) as Ef.
    { apply Int_part_unique. rewrite minus_IZR, opp_IZR. lra. }
    unfold py_round. rewrite Ef. fold f.
    rewrite minus_IZR, opp_IZR.
    destruct (Rlt_dec (x - IZR f) (1 / 2)) as [L | L];
      destruct (Rlt_dec (- x - (- IZR f - 1)) (1 / 2)) as [L' | L']; try lra.
    + destruct (Rlt_dec (1 / 2) (- x - (- IZR f - 1))); [lia | lra].
    + destruct (Rlt_dec (1 / 2) (x - IZR f)); [lia | lra].
    + destruct (Rlt_dec (1 / 2) (x - IZR f)) as [G | G]; [lra |].
      destruct (Rlt_dec (1 / 2) (- x - (- IZR f - 1))) as [G' | G']; [lra |].
      replace (- f - 1)%Z with (- (f + 1))%Z by ring.
      rewrite Z.even_opp. replace (f + 1)%Z with (Z.succ f) by ring.
      rewrite Z.even_succ, <- Z.negb_even.
      destruct (Z.even f); cbn; lia.
Qed.

Lemma b64_round_opp (x : R) : b64_round (- x) = - b64_round x.
Proof.
  unfold b64_round. rewrite b64_exp_opp.
  replace (- x * powerRZ 2 (- b64_exp x)) with (- (x * powerRZ 2 (- b64_exp x)))
    by ring.
  rewrite py_round_opp, opp_IZR. ring.
Qed.

Lemma b64_round_0 : b64_round 0 = 0.
Proof.
  unfold b64_round. rewrite Rmult_0_l.
  change 0 with (IZR 0) at 1. rewrite py_round_IZR. ring.
Qed.

(** scaled value *)
Lemma b64_scaled (x : R) :
  x = x * powerRZ 2 (- b64_exp x) * powerRZ 2 (b64_exp x).
Proof. rewrite Rmult_assoc, pow2_cancel. ring. Qed.

Lemma b64_round_error (x : R) :
  Rabs (b64_round x - x) <= powerRZ 2 (b64_exp x) / 2.
Proof.
  unfold b64_round. set (e := b64_exp x).
  pose proof (pow2_pos e) as Hp.
  pose proof (py_round_bounds (x * powerRZ 2 (- e))) as [B1 B2].
  set (k := IZR (py_round (x * powerRZ 2 (- e)))) in *.
  replace (k * powerRZ 2 e - x)
    with ((k - x * powerRZ 2 (- e)) * powerRZ 2 e)
    by (rewrite Rmult_minus_distr_r, (Rmult_assoc x), pow2_cancel; ring).
  rewrite Rabs_mult, (Rabs_pos_eq (powerRZ 2 e)) by lra.
  assert (Rabs (k - x * powerRZ 2 (- e)) <= 1 / 2) by (apply Rabs_le; lra).
  nra.
Qed.







Lemma b64_round_nonneg (x : R) : 0 <= x -> 0 <= b64_round x.
Proof.
  intros H. unfold b64_round.
  pose proof (pow2_pos (b64_exp x)). pose proof (pow2_pos (- b64_exp x)).
  assert (0 <= py_round (x * powerRZ 2 (- b64_exp x)))%Z as Hr.
  { apply py_round_ge. simpl. nra. }
  apply IZR_le in Hr. nra.
Qed.

Lemma b64_round_nonpos (x : R) : x <= 0 -> b64_round x <= 0.
Proof.
  intros H. pose proof (b64_round_nonneg (- x) ltac:(lra)) as Hn.
  rewrite b64_round_opp in Hn. lra.
Qed.

(** An integer multiple of a power of two not below the last place scales to
    an integer. *)
Lemma scaled_integer (m e ex : Z) :
  (ex <= e)%Z ->
  IZR m * powerRZ 2 e * powerRZ 2 (- ex) = IZR (m * 2 ^ (e - ex)).
Proof.
  intros H. rewrite Rmult_assoc, <- pow2_add, mult_IZR.
  rewrite <- pow2_IZR by lia. reflexivity.
Qed.

Lemma b64_abs_repr (m e : Z) :
  Rabs (IZR m * powerRZ 2 e) = IZR (Z.abs m) * powerRZ 2 e.
Proof.
  pose proof (pow2_pos e).
  rewrite Rabs_mult, (Rabs_pos_eq (powerRZ 2 e)) by lra.
  now rewrite abs_IZR.
Qed.

Lemma b64_exp_repr (m e : Z) :
  m <> 0%Z -> (Z.abs m < 2 ^ 53)%Z -> (-1074 <= e)%Z ->
  (b64_exp (IZR m * powerRZ 2 e) <= e)%Z.
Proof.
  intros Hm Hlt He. set (y := IZR m * powerRZ 2 e).
  assert (y <> 0) as Hy.
  { unfold y. pose proof (pow2_pos e). apply not_0_IZR in Hm. nra. }
  destruct (b64_mag_spec y Hy) as [S1 S2].
  assert (Rabs y < powerRZ 2 (53 + e)) as Hb.
  { unfold y. rewrite b64_abs_repr, pow2_add.
    rewrite (pow2_IZR 53) by lia. apply IZR_lt in Hlt.
    pose proof (pow2_pos e). nra. }
  assert (b64_mag y - 1 < 53 + e)%Z by (apply pow2_lt_inv; lra).
  unfold b64_exp. lia.
Qed.

Lemma b64_round_exact (y : R) : b64_representable y -> b64_round y = y.
Proof.
  intros (m & e & -> & Hlt & He).
  destruct (Z.eq_dec m 0) as [-> | Hm].
  - rewrite Rmult_0_l. apply b64_round_0.
  - pose proof (b64_exp_repr m e Hm Hlt He) as Hex.
    unfold b64_round. set (ex := b64_exp (IZR m * powerRZ 2 e)) in *.
    rewrite scaled_integer by assumption. rewrite py_round_IZR.
    rewrite <- scaled_integer by assumption.
    rewrite (Rmult_assoc _ (powerRZ 2 (- ex))), pow2_cancel. ring.
Qed.

Lemma b64_representable_opp (y : R) :
  b64_representable y -> b64_representable (- y).
Proof.
  intros (m & e & -> & Hlt & He). exists (- m)%Z, e.
  rewrite opp_IZR, Z.abs_opp. split; [ring | auto].
Qed.

Lemma b64_representable_IZR (z : Z) :
  (Z.abs z <= 2 ^ 53)%Z -> b64_representable (IZR z).
Proof.
  intros H. destruct (Z.eq_dec (Z.abs z) (2 ^ 53)) as [E | N].
  - exists (Z.sgn z), 53%Z. split; [| split; [| lia]].
    + rewrite (pow2_IZR 53), <- mult_IZR by lia. f_equal.
      rewrite <- E. symmetry. rewrite Z.mul_comm. apply Z.abs_sgn.
    + destruct z; cbn; lia.
  - exists z, 0%Z. split; [simpl; ring | lia].
Qed.

(** Rounding never crosses a representable number. *)
Lemma b64_round_ge_pos (x : R) (m e : Z) :
  (0 <= m < 2 ^ 53)%Z -> (-1074 <= e)%Z ->
  IZR m * powerRZ 2 e <= x -> IZR m * powerRZ 2 e <= b64_round x.
Proof.
  intros Hm He Hle. pose proof (pow2_pos e) as Hpe.
  assert (0 <= IZR m) as Hm0 by (apply IZR_le; lia).
  destruct (Z.eq_dec m 0) as [-> | Hnz].
  { rewrite Rmult_0_l in *. now apply b64_round_nonneg. }
  assert (0 < IZR m) as Hmp by (apply IZR_lt; lia).
  assert (0 < x) as Hx by nra.
  unfold b64_round. set (ex := b64_exp x).
  pose proof (pow2_pos ex) as Hpx. pose proof (pow2_pos (- ex)) as Hpnx.
  destruct (Z_le_gt_dec ex e) as [L | G].
  - assert (IZR (m * 2 ^ (e - ex)) <= x * powerRZ 2 (- ex)) as Hs.
    { rewrite <- scaled_integer by assumption. nra. }
    apply py_round_ge in Hs. apply IZR_le in Hs.
    rewrite <- scaled_integer in Hs by assumption.
    assert (IZR m * powerRZ 2 e
            = IZR m * powerRZ 2 e * powerRZ 2 (- ex) * powerRZ 2 ex) as E
      by (rewrite Rmult_assoc, pow2_cancel; ring).
    rewrite E. nra.
  - assert (ex = b64_mag x - 53)%Z as Eex by (unfold ex, b64_exp in *; lia).
    destruct (b64_mag_spec x ltac:(lra)) as [S1 _].
    rewrite Rabs_pos_eq in S1 by lra.
    assert (IZR (2 ^ 52) <= x * powerRZ 2 (- ex)) as Hs.
    { rewrite <- pow2_IZR by lia.
      replace 52%Z with ((b64_mag x - 1) + - ex)%Z by lia.
      rewrite pow2_add. nra. }
    apply py_round_ge in Hs. apply IZR_le in Hs.
    rewrite <- pow2_IZR in Hs by lia.
    assert (powerRZ 2 (53 + e) <= powerRZ 2 (52 + ex)) as Hpw
      by (apply pow2_le; lia).
    rewrite pow2_add in Hpw. rewrite (pow2_add 52 ex) in Hpw.
    rewrite (pow2_IZR 53) in Hpw by lia.
    assert (IZR m < IZR (2 ^ 53)) by (apply IZR_lt; lia).
    nra.
Qed.

Lemma b64_round_le_pos (x : R) (m e : Z) :
  (0 <= m < 2 ^ 53)%Z -> (-1074 <= e)%Z ->
  0 <= x -> x <= IZR m * powerRZ 2 e -> b64_round x <= IZR m * powerRZ 2 e.
Proof.
  intros Hm He Hx Hle. pose proof (pow2_pos e) as Hpe.
  assert (0 <= IZR m) as Hm0 by (apply IZR_le; lia).
  destruct (Req_dec x 0) as [-> | Hnz].
  { rewrite b64_round_0. nra. }
  assert (0 < x) as Hxp by lra.
  unfold b64_round. set (ex := b64_exp x).
  pose proof (pow2_pos ex) as Hpx. pose proof (pow2_pos (- ex)) as Hpnx.
  destruct (Z_le_gt_dec ex e) as [L | G].
  - assert (x * powerRZ 2 (- ex) <= IZR (m * 2 ^ (e - ex))) as Hs.
    { rewrite <- scaled_integer by assumption. nra. }
    apply py_round_le in Hs. apply IZR_le in Hs.
    rewrite <- scaled_integer in Hs by assumption.
    assert (IZR m * powerRZ 2 e
            = IZR m * powerRZ 2 e * powerRZ 2 (- ex) * powerRZ 2 ex) as E
      by (rewrite Rmult_assoc, pow2_cancel; ring).
    rewrite E. nra.
  - exfalso.
    assert (ex = b64_mag x - 53)%Z as Eex by (unfold ex, b64_exp in *; lia).
    destruct (b64_mag_spec x ltac:(lra)) as [S1 _].
    rewrite Rabs_pos_eq in S1 by lra.
    assert (powerRZ 2 (53 + e) <= powerRZ 2 (b64_mag x - 1)) as Hpw
      by (apply pow2_le; lia).
    rewrite pow2_add, (pow2_IZR 53) in Hpw by lia.
    assert (IZR m < IZR (2 ^ 53)) by (apply IZR_lt; lia).
    nra.
Qed.

Lemma b64_round_ge (x y : R) :
  b64_representable y -> y <= x -> y <= b64_round x.
Proof.
  intros (m & e & -> & Hlt & He) Hle.
  destruct (Z_le_gt_dec 0 m) as [P | N].
  - apply b64_round_ge_pos; [lia | assumption | assumption].
  - pose proof (pow2_pos e) as Hpe.
    assert (IZR m < 0) as Hm by (apply IZR_lt; lia).
    destruct (Rle_dec 0 x) as [Px | Nx].
    + pose proof (b64_round_nonneg x Px). nra.
    + pose proof (b64_round_le_pos (- x) (- m) e ltac:(lia) He ltac:(lra)) as H.
      rewrite opp_IZR, b64_round_opp in H.
      assert (- x <= - IZR m * powerRZ 2 e) as Hx by lra.
      specialize (H Hx). lra.
Qed.

Lemma b64_round_le (x y : R) :
  b64_representable y -> x <= y -> b64_round x <= y.
Proof.
  intros Hy Hle.
  pose proof (b64_round_ge (- x) (- y) (b64_representable_opp y Hy) ltac:(lra)) as H.
  rewrite b64_round_opp in H. lra.
Qed.

Lemma b64_round_IZR (z : Z) : (Z.abs z <= 2 ^ 53)%Z -> b64_round (IZR z) = IZR z.
Proof. intros H. apply b64_round_exact. now apply b64_representable_IZR. Qed.

(** ** Binary64: integer quotients *)

Lemma py_int_opp (x : R) : py_int (- x) = (- py_int x)%Z.
Proof.
  unfold py_int.
  destruct (Rle_dec 0 x) as [P | N]; destruct (Rle_dec 0 (- x)) as [P' | N'].
  - assert (x = 0) as -> by lra. rewrite Ropp_0.
    change 0 with (IZR 0). rewrite Int_part_IZR. reflexivity.
  - now rewrite Ropp_involutive.
  - lia.
  - lra.
Qed.

Lemma Rabs_le_both (a b : R) : Rabs a <= b -> - b <= a <= b.
Proof. unfold Rabs. destruct (Rcase_abs a); lra. Qed.

Lemma pow2_1022_small : powerRZ 2 (-1022) < 1 / 4.
Proof.
  replace (1 / 4) with (powerRZ 2 (-2)) by (simpl; lra).
  apply pow2_lt. lia.
Qed.

(** Half a unit in the last place is at most [2 ^ -53] of the value, or
    [2 ^ -1075] in the subnormal range. *)
Lemma b64_round_relative (x : R) :
  Rabs (b64_round x - x) <= Rabs x * powerRZ 2 (-53)
  \/ (Rabs (b64_round x - x) <= powerRZ 2 (-1075)
      /\ Rabs x < powerRZ 2 (-1021)).
Proof.
  pose proof (b64_round_error x) as He.
  destruct (Req_dec x 0) as [-> | Hx].
  { left. rewrite b64_round_0, Rminus_0_r, Rabs_R0. lra. }
  destruct (b64_mag_spec x Hx) as [S1 S2].
  unfold b64_exp in He.
  destruct (Z_le_gt_dec (-1074) (b64_mag x - 53)) as [L | G].
  - left. rewrite Z.max_l in He by assumption.
    replace (b64_mag x - 53)%Z with ((b64_mag x - 1) + -52)%Z in He by ring.
    rewrite pow2_add in He.
    replace (powerRZ 2 (-53)) with (powerRZ 2 (-52) / 2).
    + pose proof (pow2_pos (-52)). nra.
    + replace (-52)%Z with (-53 + 1)%Z by ring. rewrite pow2_double. field.
  - right. rewrite Z.max_r in He by lia. split.
    + replace (-1074)%Z with (-1075 + 1)%Z in He by ring.
      rewrite pow2_double in He. lra.
    + assert (powerRZ 2 (b64_mag x) <= powerRZ 2 (-1021))
        by (apply pow2_le; lia).
      lra.
Qed.

Lemma py_int_between (x : R) (z : Z) :
  0 <= x -> IZR z <= x < IZR z + 1 -> py_int x = z.
Proof.
  intros Hx Hz. unfold py_int.
  destruct (Rle_dec 0 x); [| contradiction].
  now apply Int_part_unique.
Qed.

Lemma b64_quotient_nonneg (a b : Z) :
  (0 < b)%Z -> (0 <= a < 2 ^ 53)%Z ->
  py_int (b64_round (IZR a / IZR b)) = (a / b)%Z.
Proof.
  intros Hb Ha.
  pose proof (Z.div_mod a b ltac:(lia)) as E.
  pose proof (Z.mod_pos_bound a b Hb) as Hr.
  pose proof (Z.div_pos a b ltac:(lia) Hb) as Hq.
  set (q := (a / b)%Z) in *. set (r := (a mod b)%Z) in *.
  assert (0 < IZR b) as Hb' by (now apply IZR_lt).
  assert (IZR a / IZR b = IZR q + IZR r / IZR b) as Ex.
  { rewrite E at 1. rewrite plus_IZR, mult_IZR. field. lra. }
  assert (0 <= IZR r / IZR b <= 1 - 1 / IZR b) as [F1 F2].
  { destruct Hr as [R1 R2]. apply IZR_le in R1.
    assert (r <= b - 1)%Z as R3 by lia. apply IZR_le in R3.
    rewrite minus_IZR in R3. split.
    - apply Rmult_le_pos; [lra | left; now apply Rinv_0_lt_compat].
    - apply Rmult_le_reg_r with (IZR b); [assumption |].
      replace (IZR r / IZR b * IZR b) with (IZR r) by (field; lra).
      replace ((1 - 1 / IZR b) * IZR b) with (IZR b - 1) by (field; lra).
      lra. }
  set (x := IZR a / IZR b) in *.
  assert (0 <= IZR q) as Hq' by (now apply IZR_le).
  assert (q <= a)%Z as Hqa.
  { assert (q * 1 <= b * q)%Z by nia. lia. }
  assert (IZR q <= b64_round x) as L1.
  { apply b64_round_ge; [apply b64_representable_IZR; lia | lra]. }
  assert (b64_round x < IZR q + 1) as L2.
  { assert (IZR a < IZR (2 ^ 53)) as Ha' by (apply IZR_lt; lia).
    rewrite <- pow2_IZR in Ha' by lia.
    assert (0 <= x) as Hx0 by lra.
    assert (x * powerRZ 2 (-53) < 1 / IZR b) as Hsmall.
    { unfold x.
      assert (powerRZ 2 (-53) * powerRZ 2 53 = 1) as Hc
        by (apply (pow2_cancel 53)).
      pose proof (pow2_pos (-53)) as Hp. pose proof (pow2_pos 53) as Hp'.
      apply Rmult_lt_reg_r with (IZR b); [assumption |].
      replace (IZR a / IZR b * powerRZ 2 (-53) * IZR b)
        with (IZR a * powerRZ 2 (-53)) by (field; lra).
      replace (1 / IZR b * IZR b) with 1 by (field; lra).
      nra. }
    destruct (b64_round_relative x) as [Hn | [Hs1 Hs2]].
    - rewrite (Rabs_pos_eq x) in Hn by assumption.
      apply Rabs_le_both in Hn. lra.
    - apply Rabs_le_both in Hs1. rewrite (Rabs_pos_eq x) in Hs2 by assumption.
      pose proof pow2_1022_small.
      assert (powerRZ 2 (-1075) <= powerRZ 2 (-1022)) by (apply pow2_le; lia).
      assert (powerRZ 2 (-1021) = 2 * powerRZ 2 (-1022)) as E21
        by (replace (-1021)%Z with (-1022 + 1)%Z by ring; apply pow2_double).
      lra. }
  apply py_int_between; lra.
Qed.

(** [int(a / b)] on two ints, with the quotient rounded to a double, is the
    quotient truncated toward zero as long as [|a| < 2 ^ 53]. *)
Lemma b64_quotient_exact (a b : Z) :
  (0 < b)%Z -> (Z.abs a < 2 ^ 53)%Z ->
  py_int (b64_round (IZR a / IZR b)) = (a ÷ b)%Z.
Proof.
  intros Hb Ha. destruct (Z_le_gt_dec 0 a) as [P | N].
  - rewrite b64_quotient_nonneg by lia. symmetry. apply Z.quot_div_nonneg; lia.
  - replace (IZR a / IZR b) with (- (IZR (- a) / IZR b))
      by (rewrite opp_IZR; field; apply not_0_IZR; lia).
    rewrite b64_round_opp, py_int_opp, b64_quotient_nonneg by lia.
    rewrite <- (Z.quot_div_nonneg (- a) b) by lia.
    rewrite Z.quot_opp_l by lia. ring.
Qed.

(** ** Binary64: finite results *)

Lemma pow2_53_1024 : IZR (2 ^ 53) < powerRZ 2 1024.
Proof. rewrite <- pow2_IZR by lia. apply pow2_lt. lia. Qed.

Lemma b64_finite (x : R) :
  Rabs x <= IZR (2 ^ 53) -> b64 x = Finite (b64_round x).
Proof.
  intros H. unfold b64.
  destruct (Rlt_dec _ _) as [L | L]; [reflexivity | exfalso; apply L].
  pose proof pow2_53_1024. apply Rabs_le_both in H.
  assert (- IZR (2 ^ 53) <= b64_round x <= IZR (2 ^ 53)) as [B1 B2].
  { split.
    - rewrite <- opp_IZR. apply b64_round_ge; [| rewrite opp_IZR; lra].
      apply b64_representable_IZR. rewrite Z.abs_opp. cbn. lia.
    - apply b64_round_le; [| lra].
      apply b64_representable_IZR. cbn. lia. }
  apply Rabs_def1; lra.
Qed.

Lemma b64_IZR (z : Z) : (Z.abs z <= 2 ^ 53)%Z -> b64 (IZR z) = Finite (IZR z).
Proof.
  intros H. rewrite b64_finite.
  - now rewrite b64_round_IZR.
  - rewrite <- abs_IZR. now apply IZR_le.
Qed.

(** A representable number below [2 ^ 1024] is a double. *)
Lemma b64_of_double (y : R) :
  b64_representable y -> Rabs y < powerRZ 2 1024 -> b64 y = Finite y.
Proof.
  intros Hy Hlt. unfold b64. rewrite b64_round_exact by assumption.
  destruct (Rlt_dec _ _); [reflexivity | contradiction].
Qed.

Lemma py_float_of_int_small (z : Z) :
  (Z.abs z <= 2 ^ 53)%Z -> py_float_of_int z = Ok (IZR z).
Proof. intros H. unfold py_float_of_int. now rewrite b64_IZR. Qed.

Lemma py_int_truediv_small (a b : Z) :
  (0 < b)%Z -> (Z.abs a < 2 ^ 53)%Z ->
  py_int_truediv a b = Ok (b64_round (IZR a / IZR b)).
Proof.
  intros Hb Ha. unfold py_int_truediv.
  destruct (Z.eqb_spec b 0); [lia |].
  rewrite b64_finite; [reflexivity |].
  assert (1 <= b)%Z as Hb1 by lia. apply IZR_le in Hb1.
  assert (Rabs (IZR a) <= IZR (2 ^ 53)) as Ha'
    by (rewrite <- abs_IZR; apply IZR_le; lia).
  unfold Rdiv. rewrite Rabs_mult, Rabs_inv, (Rabs_pos_eq (IZR b)) by lra.
  pose proof (Rabs_pos (IZR a)).
  apply Rmult_le_reg_r with (IZR b); [lra |].
  rewrite Rmult_assoc, Rinv_l by lra. nra.
Qed.

(** ** Binary64: evaluating a rounding *)

Lemma b64_round_eval (x : R) (k e : Z) :
  (2 ^ 52 < Z.abs k < 2 ^ 53)%Z -> (-1074 <= e)%Z ->
  Rabs (x * powerRZ 2 (- e) - IZR k) < 1 / 2 ->
  b64_round x = IZR k * powerRZ 2 e.
Proof.
  intros [K1 K2] He Hx.
  pose proof (pow2_pos e) as Hpe. pose proof (pow2_pos (- e)) as Hpne.
  assert (IZR (2 ^ 52) + 1 <= Rabs (IZR k) <= IZR (2 ^ 53) - 1) as [A1 A2].
  { rewrite <- abs_IZR. split.
    - rewrite <- (plus_IZR _ 1). apply IZR_le. lia.
    - rewrite <- (minus_IZR _ 1). apply IZR_le. lia. }
  assert (IZR (2 ^ 52) <= Rabs (x * powerRZ 2 (- e)) < IZR (2 ^ 53)) as [B1 B2].
  { pose proof (Rabs_triang_inv (x * powerRZ 2 (- e)) (IZR k)).
    pose proof (Rabs_triang_inv (IZR k) (x * powerRZ 2 (- e))).
    rewrite (Rabs_minus_sym (IZR k)) in *. lra. }
  rewrite Rabs_mult, (Rabs_pos_eq (powerRZ 2 (- e))) in B1, B2 by lra.
  assert (b64_mag x = e + 53)%Z as Em.
  { apply b64_mag_unique.
    replace (e + 53 - 1)%Z with (52 + e)%Z by ring.
    replace (e + 53)%Z with (53 + e)%Z by ring.
    rewrite !pow2_add, (pow2_IZR 52), (pow2_IZR 53) by lia.
    assert (Rabs x = Rabs x * powerRZ 2 (- e) * powerRZ 2 e) as ->
      by (rewrite Rmult_assoc, pow2_cancel; ring).
    split; nra. }
  unfold b64_round, b64_exp. rewrite Em.
  replace (Z.max (e + 53 - 53) (-1074)) with e by lia.
  f_equal. f_equal. apply py_round_near. apply Rabs_def2 in Hx. lra.
Qed.

Lemma b64_eval (x : R) (k e : Z) :
  (2 ^ 52 < Z.abs k < 2 ^ 53)%Z -> (-1074 <= e <= 971)%Z ->
  Rabs (x * powerRZ 2 (- e) - IZR k) < 1 / 2 ->
  b64 x = Finite (IZR k * powerRZ 2 e).
Proof.
  intros Hk He Hx. unfold b64.
  rewrite (b64_round_eval x k e) by (try assumption; lia).
  destruct (Rlt_dec _ _) as [L | L]; [reflexivity | exfalso; apply L].
  rewrite b64_abs_repr.
  assert (IZR (Z.abs k) < IZR (2 ^ 53)) as Hk' by (apply IZR_lt; lia).
  assert (0 <= IZR (Z.abs k)) by (apply IZR_le; lia).
  rewrite <- pow2_IZR in Hk' by lia.
  assert (powerRZ 2 (53 + e) <= powerRZ 2 1024) as Hp by (apply pow2_le; lia).
  rewrite pow2_add in Hp. pose proof (pow2_pos e). nra.
Qed.

(** A double given by mantissa and exponent. *)
Lemma b64_of_mantissa (m e : Z) :
  (Z.abs m < 2 ^ 53)%Z -> (-1074 <= e <= 971)%Z ->
  b64 (IZR m * powerRZ 2 e) = Finite (IZR m * powerRZ 2 e).
Proof.
  intros Hm He. apply b64_of_double.
  - exists m, e. split; [reflexivity | split; [assumption | lia]].
  - rewrite b64_abs_repr.
    assert (IZR (Z.abs m) < IZR (2 ^ 53)) as Hk' by (apply IZR_lt; lia).
    assert (0 <= IZR (Z.abs m)) by (apply IZR_le; lia).
    rewrite <- pow2_IZR in Hk' by lia.
    assert (powerRZ 2 (53 + e) <= powerRZ 2 1024) as Hp by (apply pow2_le; lia).
    rewrite pow2_add in Hp. pose proof (pow2_pos e). nra.
Qed.

(** ** The timer: [update] in binary64 *)

(** The pieces of a tick count that was computed without overflow. *)
Lemma ticks_binary64_inv (self : ATS.t) (tt : R) (k : Z) :
  ATS.ticks_binary64 self tt = Ok k ->
  exists p, py_float_of_int (ATS.prescale self) = Ok p /\ p <> 0
    /\ k = py_round
             (b64_round
                (b64_round (b64_round (tt - ATS.current_t self) * ARDUINO_FREQ)
                 / p)).
Proof.
  unfold ATS.ticks_binary64. intros H.
  destruct (py_float_of_int (ATS.prescale self)) as [p | |]; try discriminate.
  cbn [bind] in H. destruct (Req_dec_T p 0) as [E | N]; [discriminate |].
  exists p. split; [reflexivity | split; [exact N |]].
  unfold float_sub, float_mul, float_div, py_round_float, b64 in H.
  repeat match type of H with
         | context [Rlt_dec ?a ?b] => destruct (Rlt_dec a b); try discriminate
         end.
  now injection H as <-.
Qed.

Lemma py_float_of_int_pos (z : Z) (p : R) :
  (0 < z)%Z -> py_float_of_int z = Ok p -> 1 <= p.
Proof.
  unfold py_float_of_int, b64. intros Hz H.
  destruct (Rlt_dec _ _); [| discriminate]. injection H as <-.
  apply b64_round_ge.
  - apply (b64_representable_IZR 1). cbn. lia.
  - apply IZR_le. lia.
Qed.

Lemma ticks_binary64_nonneg (self : ATS.t) (tt : R) (k : Z) :
  (0 < ATS.prescale self)%Z -> ATS.current_t self <= tt ->
  ATS.ticks_binary64 self tt = Ok k -> (0 <= k)%Z.
Proof.
  intros Hp Ht H. destruct (ticks_binary64_inv _ _ _ H) as (p & Ep & _ & ->).
  pose proof (py_float_of_int_pos _ _ Hp Ep) as Hp1.
  apply py_round_nonneg, b64_round_nonneg.
  pose proof (b64_round_nonneg (tt - ATS.current_t self) ltac:(lra)) as H1.
  pose proof (b64_round_nonneg
                (b64_round (tt - ATS.current_t self) * ARDUINO_FREQ)) as H2.
  apply Rmult_le_pos; [| left; apply Rinv_0_lt_compat; lra].
  apply H2. unfold ARDUINO_FREQ. nra.
Qed.

Lemma ticks_binary64_nonpos (self : ATS.t) (tt : R) (k : Z) :
  (0 < ATS.prescale self)%Z -> tt <= ATS.current_t self ->
  ATS.ticks_binary64 self tt = Ok k -> (k <= 0)%Z.
Proof.
  intros Hp Ht H. destruct (ticks_binary64_inv _ _ _ H) as (p & Ep & _ & ->).
  pose proof (py_float_of_int_pos _ _ Hp Ep) as Hp1.
  apply py_round_nonpos, b64_round_nonpos.
  pose proof (b64_round_nonpos (tt - ATS.current_t self) ltac:(lra)) as H1.
  pose proof (b64_round_nonpos
                (b64_round (tt - ATS.current_t self) * ARDUINO_FREQ)) as H2.
  assert (0 < / p) by (apply Rinv_0_lt_compat; lra).
  assert (b64_round (b64_round (tt - ATS.current_t self) * ARDUINO_FREQ) <= 0)
    by (apply H2; unfold ARDUINO_FREQ; nra).
  unfold Rdiv. nra.
Qed.

(** With both ints below [2 ^ 53] the rounded quotient reduces the counter
    exactly as the integer remainder does. *)
Lemma update_binary64_reduce (self : ATS.t) (tt : R) (k : Z) :
  ATS.ticks_binary64 self tt = Ok k -> (0 < ATS.top self)%Z ->
  (Z.abs (ATS.current self + k) < 2 ^ 53)%Z ->
  ATS.update_binary64 self tt
  = Ok (ATS.mk (ATS.max self) (ATS.prescale_values self) (ATS.prescale self)
               (ATS.top self) (ATS.min_freq self) (ATS.duty self)
               (Z.rem (ATS.current self + k) (ATS.top self)) tt).
Proof.
  intros Hk Ht Hc. unfold ATS.update_binary64. rewrite Hk. cbn [bind].
  rewrite py_int_truediv_small by assumption. cbn [bind].
  rewrite b64_quotient_exact by assumption.
  do 2 f_equal.
  pose proof (Z.quot_rem' (ATS.current self + k) (ATS.top self)). lia.
Qed.

Lemma b64_round_abs_le (x : R) (z : Z) :
  (0 <= z <= 2 ^ 53)%Z -> Rabs x <= IZR z -> Rabs (b64_round x) <= IZR z.
Proof.
  intros Hz Hx. apply Rabs_le_both in Hx. apply Rabs_le. split.
  - rewrite <- opp_IZR. apply b64_round_ge; [| rewrite opp_IZR; lra].
    apply b64_representable_IZR. lia.
  - apply b64_round_le; [| lra]. apply b64_representable_IZR. lia.
Qed.

(** A time difference of at most [2 ^ 51] clock cycles gives a tick count
    without overflow, of at most [2 ^ 52]. *)
Lemma ticks_binary64_bounded (self : ATS.t) (tt : R) :
  (0 < ATS.prescale self <= 2 ^ 53)%Z ->
  Rabs (tt - ATS.current_t self) * ARDUINO_FREQ <= IZR (2 ^ 51) ->
  exists k, ATS.ticks_binary64 self tt = Ok k /\ (Z.abs k <= 2 ^ 52)%Z.
Proof.
  intros Hp Hd. set (d := tt - ATS.current_t self) in *.
  assert (0 <= Rabs d) as Hd0 by apply Rabs_pos.
  assert (Rabs d <= IZR (2 ^ 28)) as Hd28.
  { unfold ARDUINO_FREQ in Hd. cbn in Hd |- *. lra. }
  assert (Rabs (b64_round d * ARDUINO_FREQ) <= IZR (2 ^ 52)) as H1.
  { rewrite Rabs_mult, (Rabs_pos_eq ARDUINO_FREQ) by (unfold ARDUINO_FREQ; lra).
    assert (Rabs (b64_round d) <= Rabs d + Rabs (b64_round d - d)) as Ht.
    { replace (b64_round d) with (d + (b64_round d - d)) at 1 by ring.
      apply Rabs_triang. }
    assert (powerRZ 2 (-53) <= 1 / 4) as P53.
    { replace (1 / 4) with (powerRZ 2 (-2)) by (simpl; lra).
      apply pow2_le. lia. }
    assert (powerRZ 2 (-1075) <= 1 / 4) as P1075.
    { replace (1 / 4) with (powerRZ 2 (-2)) by (simpl; lra).
      apply pow2_le. lia. }
    pose proof (pow2_pos (-53)). pose proof (pow2_pos (-1075)).
    unfold ARDUINO_FREQ in *. cbn in Hd |- *.
    destruct (b64_round_relative d) as [Hn | [Hs _]]; nra. }
  set (x2 := b64_round (b64_round d * ARDUINO_FREQ)).
  assert (Rabs x2 <= IZR (2 ^ 52)) as H2
    by (apply b64_round_abs_le; [lia | exact H1]).
  assert (1 <= IZR (ATS.prescale self)) as Hp1 by (apply IZR_le; lia).
  assert (Rabs (x2 / IZR (ATS.prescale self)) <= IZR (2 ^ 52)) as H3.
  { unfold Rdiv. rewrite Rabs_mult, Rabs_inv,
      (Rabs_pos_eq (IZR (ATS.prescale self))) by lra.
    pose proof (Rabs_pos x2).
    apply Rmult_le_reg_r with (IZR (ATS.prescale self)); [lra |].
    rewrite Rmult_assoc, Rinv_l by lra. cbn in H2 |- *. nra. }
  set (x3 := b64_round (x2 / IZR (ATS.prescale self))).
  assert (Rabs x3 <= IZR (2 ^ 52)) as H4
    by (apply b64_round_abs_le; [lia | exact H3]).
  exists (py_round x3). split.
  - unfold ATS.ticks_binary64.
    rewrite py_float_of_int_small by lia. cbn [bind].
    destruct (Req_dec_T (IZR (ATS.prescale self)) 0) as [E | _]; [lra |].
    unfold float_sub. fold d.
    rewrite (b64_finite d) by (cbn in Hd28 |- *; lra).
    cbn [float_mul].
    rewrite (b64_finite (b64_round d * ARDUINO_FREQ))
      by (cbn in H1 |- *; lra).
    cbn [float_div]. fold x2.
    rewrite (b64_finite (x2 / IZR (ATS.prescale self)))
      by (cbn in H3 |- *; lra).
    reflexivity.
  - apply Rabs_le_both in H4. rewrite <- opp_IZR in H4. destruct H4 as [L U].
    apply py_round_ge in L. apply py_round_le in U. lia.
Qed.

(** A tick count whose three float operations are exact. *)
Lemma ticks_binary64_eval (self : ATS.t) (tt : R)
    (m1 e1 m2 e2 m3 e3 k : Z) :
  (0 < ATS.prescale self <= 2 ^ 53)%Z ->
  (Z.abs m1 < 2 ^ 53)%Z -> (-1074 <= e1 <= 971)%Z ->
  (Z.abs m2 < 2 ^ 53)%Z -> (-1074 <= e2 <= 971)%Z ->
  (Z.abs m3 < 2 ^ 53)%Z -> (-1074 <= e3 <= 971)%Z ->
  tt - ATS.current_t self = IZR m1 * powerRZ 2 e1 ->
  IZR m1 * powerRZ 2 e1 * ARDUINO_FREQ = IZR m2 * powerRZ 2 e2 ->
  IZR m2 * powerRZ 2 e2 / IZR (ATS.prescale self) = IZR m3 * powerRZ 2 e3 ->
  IZR m3 * powerRZ 2 e3 = IZR k ->
  ATS.ticks_binary64 self tt = Ok k.
Proof.
  intros Hp M1 E1 M2 E2 M3 E3 H1 H2 H3 H4. unfold ATS.ticks_binary64.
  rewrite py_float_of_int_small by lia. cbn [bind].
  destruct (Req_dec_T (IZR (ATS.prescale self)) 0) as [E | _].
  { apply eq_IZR in E. lia. }
  unfold float_sub. rewrite H1, b64_of_mantissa by assumption.
  cbn [float_mul]. rewrite H2, b64_of_mantissa by assumption.
  cbn [float_div]. rewrite H3, b64_of_mantissa by assumption.
  cbn [py_round_float]. now rewrite H4, py_round_IZR.
Qed.

(** [update] where the rounded quotient is the integer [q]. *)
Lemma update_binary64_eval (self : ATS.t) (tt : R) (k q : Z) :
  ATS.ticks_binary64 self tt = Ok k -> ATS.top self <> 0%Z ->
  b64 (IZR (ATS.current self + k) / IZR (ATS.top self)) = Finite (IZR q) ->
  ATS.update_binary64 self tt
  = Ok (ATS.mk (ATS.max self) (ATS.prescale_values self) (ATS.prescale self)
               (ATS.top self) (ATS.min_freq self) (ATS.duty self)
               (ATS.current self + k - ATS.top self * q) tt).
Proof.
  intros Hk Ht Hq. unfold ATS.update_binary64. rewrite Hk. cbn [bind].
  unfold py_int_truediv. destruct (Z.eqb_spec (ATS.top self) 0); [contradiction |].
  rewrite Hq. cbn [bind]. now rewrite py_int_IZR.
Qed.

Ltac pow2_num :=
  repeat match goal with
         | |- context [powerRZ 2 (Z.pos ?p)] =>
             rewrite (pow2_IZR (Z.pos p)) by lia;
             let v := eval vm_compute in (2 ^ Z.pos p)%Z in
             change (2 ^ Z.pos p)%Z with v
         end.

Lemma Timer1_0_ticks_1 : ATS.ticks_binary64 Timer1_0 1 = Ok 16000000%Z.
Proof.
  apply (ticks_binary64_eval Timer1_0 1 1 0 16000000 0 16000000 0);
    cbn [ATS.prescale ATS.current_t Timer1_0]; try lia;
    unfold ARDUINO_FREQ; simpl; lra.
Qed.

Lemma Timer1_at_1_ticks_half :
  ATS.ticks_binary64 Timer1_at_1 (1 / 2) = Ok (-8000000)%Z.
Proof.
  apply (ticks_binary64_eval Timer1_at_1 (1 / 2)
           (-1) (-1) (-8000000) 0 (-8000000) 0);
    cbn [ATS.prescale ATS.current_t Timer1_at_1]; try lia;
    unfold ARDUINO_FREQ; simpl; lra.
Qed.

Lemma Timer1_0_update_binary64_1 :
  ATS.update_binary64 Timer1_0 1 = Ok Timer1_at_1.
Proof.
  rewrite (update_binary64_reduce _ _ _ Timer1_0_ticks_1) by (cbn; lia).
  reflexivity.
Qed.

Lemma Timer1_at_1_update_binary64_half :
  ATS.update_binary64 Timer1_at_1 (1 / 2) = Ok Timer1_back.
Proof.
  rewrite (update_binary64_reduce _ _ _ Timer1_at_1_ticks_half) by (cbn; lia).
  reflexivity.
Qed.

(** The first timer playing A4, asked to go from time 0 to time 10^15: the
    tick count is 16 * 10^21, the quotient by the period 36364 is rounded
    to a multiple of 64, and the counter is left at 291072. *)
Lemma Timer1_a4_ticks_1e15 :
  ATS.ticks_binary64 Timer1_a4 1000000000000000
  = Ok 16000000000000000000000%Z.
Proof.
  apply (ticks_binary64_eval Timer1_a4 1000000000000000
           1000000000000000 0 476837158203125 25 476837158203125 25);
    cbn [ATS.prescale ATS.current_t Timer1_a4]; try lia;
    unfold ARDUINO_FREQ; pow2_num; simpl; lra.
Qed.

Lemma Timer1_a4_update_1e15 :
  ATS.update_binary64 Timer1_a4 1000000000000000
  = Ok (ATS.mk 65536 [1; 8; 64; 256; 1024]%Z 1 36364
               (ARDUINO_FREQ / IZR (1024 * 65536)) 320 291072
               1000000000000000).
Proof.
  rewrite (update_binary64_eval _ _ _ 439995600043999552
             Timer1_a4_ticks_1e15).
  - reflexivity.
  - cbn. lia.
  - cbn [ATS.current ATS.top Timer1_a4 Z.add].
    rewrite (b64_eval _ 6874931250687493 6); try lia.
    + f_equal. pow2_num. rewrite <- mult_IZR. reflexivity.
    + replace (powerRZ 2 (- (6))) with (/ 64) by (simpl; lra).
      apply Rabs_def1; lra.
Qed.

(** ** Binary64: tick counts near an integer *)

Lemma b64_round_error_sum (x : R) :
  Rabs (b64_round x - x) <= Rabs x * powerRZ 2 (-53) + powerRZ 2 (-1075).
Proof.
  pose proof (Rabs_pos x). pose proof (pow2_pos (-53)).
  pose proof (pow2_pos (-1075)).
  destruct (b64_round_relative x) as [Hn | [Hs _]]; nra.
Qed.

Lemma pow2_m53 : powerRZ 2 (-53) = / IZR (2 ^ 53).
Proof. rewrite <- pow2_IZR by lia. apply (pow2_opp 53). Qed.

Lemma pow2_m1075_small : powerRZ 2 (-1075) * ARDUINO_FREQ <= / IZR (2 ^ 53).
Proof.
  assert (powerRZ 2 (-1075) <= powerRZ 2 (-53 + -24))
    by (apply pow2_le; lia).
  rewrite pow2_add, pow2_m53 in H.
  assert (powerRZ 2 (-24) = / IZR (2 ^ 24)) as E
    by (rewrite <- pow2_IZR by lia; apply (pow2_opp 24)).
  rewrite E in H. pose proof (pow2_pos (-1075)).
  unfold ARDUINO_FREQ. cbn in *. nra.
Qed.

(** The three float operations of [update] do not move the tick count: when
    the exact quotient is within a quarter of the integer [a], and the time
    difference is below [2 ^ 48] clock cycles, the rounded quotient is still
    nearest to [a]. *)
Lemma ticks_binary64_near (self : ATS.t) (tt : R) (a : Z) :
  (0 < ATS.prescale self <= 2 ^ 53)%Z ->
  Rabs (tt - ATS.current_t self) * ARDUINO_FREQ <= IZR (2 ^ 48) ->
  Rabs ((tt - ATS.current_t self) * ARDUINO_FREQ / IZR (ATS.prescale self)
        - IZR a) <= 1 / 4 ->
  ATS.ticks_binary64 self tt = Ok a.
Proof.
  intros Hp HD Ha.
  destruct (ticks_binary64_bounded self tt Hp) as (k & Hk & _).
  { cbn in HD |- *. lra. }
  rewrite Hk. f_equal.
  destruct (ticks_binary64_inv _ _ _ Hk) as (p & Ep & _ & ->).
  rewrite py_float_of_int_small in Ep by lia. injection Ep as <-.
  set (d := tt - ATS.current_t self) in *.
  set (x1 := b64_round d).
  set (x2 := b64_round (x1 * ARDUINO_FREQ)).
  set (x3 := b64_round (x2 / IZR (ATS.prescale self))).
  assert (1 <= IZR (ATS.prescale self)) as Hp1 by (apply IZR_le; lia).
  pose proof (b64_round_error_sum d) as E1. fold x1 in E1.
  pose proof (b64_round_error_sum (x1 * ARDUINO_FREQ)) as E2. fold x2 in E2.
  pose proof (b64_round_error_sum (x2 / IZR (ATS.prescale self))) as E3.
  fold x3 in E3.
  rewrite pow2_m53 in E1, E2, E3.
  pose proof pow2_m1075_small as Hs. pose proof (pow2_pos (-1075)) as Hη.
  set (η := powerRZ 2 (-1075)) in *.
  assert (η <= / IZR (2 ^ 53)) as Hη'.
  { unfold ARDUINO_FREQ in Hs. nra. }
  assert (0 < ARDUINO_FREQ) as HF by (unfold ARDUINO_FREQ; lra).
  pose proof (Rabs_pos d) as Hd0.
  (* x1 *)
  assert (Rabs (x1 * ARDUINO_FREQ - d * ARDUINO_FREQ) <= 1 / 16) as B1.
  { replace (x1 * ARDUINO_FREQ - d * ARDUINO_FREQ)
      with ((x1 - d) * ARDUINO_FREQ) by ring.
    rewrite Rabs_mult, (Rabs_pos_eq ARDUINO_FREQ) by lra.
    cbn in HD, E1, Hs, Hη' |- *. nra. }
  assert (Rabs (x1 * ARDUINO_FREQ) <= IZR (2 ^ 48) + 1 / 16) as A1.
  { replace (x1 * ARDUINO_FREQ)
      with (d * ARDUINO_FREQ + (x1 * ARDUINO_FREQ - d * ARDUINO_FREQ)) by ring.
    eapply Rle_trans; [apply Rabs_triang |].
    rewrite (Rabs_mult d), (Rabs_pos_eq ARDUINO_FREQ) by lra. lra. }
  (* x2 *)
  assert (Rabs (x2 - x1 * ARDUINO_FREQ) <= 1 / 16) as B2.
  { pose proof (Rabs_pos (x1 * ARDUINO_FREQ)).
    cbn in A1, E2, Hη' |- *. nra. }
  assert (Rabs (x2 - d * ARDUINO_FREQ) <= 1 / 8) as C2.
  { replace (x2 - d * ARDUINO_FREQ)
      with ((x2 - x1 * ARDUINO_FREQ)
            + (x1 * ARDUINO_FREQ - d * ARDUINO_FREQ)) by ring.
    eapply Rle_trans; [apply Rabs_triang |]. lra. }
  assert (Rabs x2 <= IZR (2 ^ 48) + 1 / 8) as A2.
  { replace x2 with (d * ARDUINO_FREQ + (x2 - d * ARDUINO_FREQ)) by ring.
    eapply Rle_trans; [apply Rabs_triang |].
    rewrite (Rabs_mult d), (Rabs_pos_eq ARDUINO_FREQ) by lra. lra. }
  (* x3 *)
  assert (forall y, Rabs (y / IZR (ATS.prescale self)) <= Rabs y) as Hdiv.
  { intros y. unfold Rdiv.
    rewrite Rabs_mult, Rabs_inv, (Rabs_pos_eq (IZR (ATS.prescale self)))
      by lra.
    pose proof (Rabs_pos y).
    apply Rmult_le_reg_r with (IZR (ATS.prescale self)); [lra |].
    rewrite Rmult_assoc, Rinv_l by lra. nra. }
  assert (Rabs (x3 - x2 / IZR (ATS.prescale self)) <= 1 / 16) as B3.
  { pose proof (Hdiv x2). pose proof (Rabs_pos (x2 / IZR (ATS.prescale self))).
    cbn in A2, E3, Hη' |- *. nra. }
  assert (Rabs (x2 / IZR (ATS.prescale self)
                - d * ARDUINO_FREQ / IZR (ATS.prescale self)) <= 1 / 8) as C3.
  { replace (x2 / IZR (ATS.prescale self)
             - d * ARDUINO_FREQ / IZR (ATS.prescale self))
      with ((x2 - d * ARDUINO_FREQ) / IZR (ATS.prescale self))
      by (field; lra).
    eapply Rle_trans; [apply Hdiv | exact C2]. }
  apply py_round_near.
  apply Rabs_le_both in B3, C3, Ha. lra.
Qed.

Lemma update_binary64_config (self self' : ATS.t) (tt : R) :
  ATS.update_binary64 self tt = Ok self' -> same_config self' self.
Proof.
  unfold ATS.update_binary64. intros H.
  destruct (ATS.ticks_binary64 self tt); cbn [bind] in H; try discriminate.
  destruct (py_int_truediv _ _); cbn [bind] in H; try discriminate.
  injection H as <-. repeat split.
Qed.

(** Within [2 ^ 51] clock cycles of the last sync time, on a counter below
    [2 ^ 52], [update] returns and leaves the remainder of the division of
    counter plus ticks by the period. *)
Lemma update_binary64_near (self : ATS.t) (tt : R) :
  (0 < ATS.prescale self <= 2 ^ 53)%Z -> (0 < ATS.top self)%Z ->
  (Z.abs (ATS.current self) < 2 ^ 52)%Z ->
  Rabs (tt - ATS.current_t self) * ARDUINO_FREQ <= IZR (2 ^ 51) ->
  exists k,
    ATS.ticks_binary64 self tt = Ok k /\ (Z.abs k <= 2 ^ 52)%Z
    /\ ATS.update_binary64 self tt
       = Ok (ATS.mk (ATS.max self) (ATS.prescale_values self)
                    (ATS.prescale self) (ATS.top self) (ATS.min_freq self)
                    (ATS.duty self)
                    (Z.rem (ATS.current self + k) (ATS.top self)) tt).
Proof.
  intros Hp Ht Hc Hd.
  destruct (ticks_binary64_bounded self tt Hp Hd) as (k & Hk & Hb).
  exists k. split; [exact Hk |]. split; [exact Hb |].
  apply update_binary64_reduce; [exact Hk | exact Ht | lia].
Qed.

(** C1 (as amended).  [update] has no check on its argument.  For a timer
    with a positive prescaler and period and a counter below [2 ^ 52], and a
    target time within [2 ^ 51] clock cycles of the last sync time, before
    it or after it, the call returns normally: it adds the rounded tick
    count to the counter, leaves the remainder of the division by the
    period, truncated toward zero, and stores the target time.  For a
    target time before the last sync time the tick count is zero or
    negative, so the counter can be left negative.  All float operations
    are rounded as binary64 rounds them. *)
Theorem update_total_no_contract_check (self : ATS.t) (tt : R) :
  (0 < ATS.prescale self <= 2 ^ 53)%Z -> (0 < ATS.top self)%Z ->
  (Z.abs (ATS.current self) < 2 ^ 52)%Z ->
  Rabs (tt - ATS.current_t self) * ARDUINO_FREQ <= IZR (2 ^ 51) ->
  exists k,
    ATS.ticks_binary64 self tt = Ok k
    /\ ATS.update_binary64 self tt
       = Ok (ATS.mk (ATS.max self) (ATS.prescale_values self)
                    (ATS.prescale self) (ATS.top self) (ATS.min_freq self)
                    (ATS.duty self)
                    (Z.rem (ATS.current self + k) (ATS.top self)) tt)
    /\ (tt < ATS.current_t self ->
        (k <= 0)%Z
        /\ (- ATS.top self
            < Z.rem (ATS.current self + k) (ATS.top self)
            < ATS.top self)%Z).
Proof.
  intros Hp Ht Hc Hd.
  destruct (update_binary64_near self tt Hp Ht Hc Hd) as (k & Hk & _ & Hu).
  exists k. split; [exact Hk |]. split; [exact Hu |].
  intros Hlt. split.
  - apply (ticks_binary64_nonpos self tt); [lia | lra | exact Hk].
  - pose proof (Z.rem_bound_abs (ATS.current self + k) (ATS.top self)
                                ltac:(lia)).
    lia.
Qed.

Lemma update_total_no_contract_check_witness :
  exists k,
    ATS.ticks_binary64 Timer1_at_1 (1 / 2) = Ok k
    /\ ATS.update_binary64 Timer1_at_1 (1 / 2)
       = Ok (ATS.mk 65536 [1; 8; 64; 256; 1024]%Z 1 65536
                    (ARDUINO_FREQ / IZR (1024 * 65536)) 0
                    (Z.rem (9216 + k) 65536) (1 / 2))
    /\ (1 / 2 < 1 ->
        (k <= 0)%Z /\ (- 65536 < Z.rem (9216 + k) 65536 < 65536)%Z).
Proof.
  apply (update_total_no_contract_check Timer1_at_1 (1 / 2)).
  - cbn. lia.
  - cbn. lia.
  - cbn. lia.
  - cbn [ATS.current_t Timer1_at_1]. unfold ARDUINO_FREQ.
    rewrite Rabs_left by lra. cbn. lra.
Defined.

(** C1, counterexample.  The first timer, advanced to time 1 and then asked
    to go to time 1/2, does not fail: it returns a state whose counter is
    -60928, in exact arithmetic and in binary64 alike. *)
Lemma update_backwards_returns :
  ATS.update Timer1_0 1 = Ok Timer1_at_1
  /\ 1 / 2 < ATS.current_t Timer1_at_1
  /\ ATS.update Timer1_at_1 (1 / 2) = Ok Timer1_back
  /\ ATS.update_binary64 Timer1_0 1 = Ok Timer1_at_1
  /\ ATS.update_binary64 Timer1_at_1 (1 / 2) = Ok Timer1_back.
Proof.
  split; [| split; [| split; [| split]]].
  - rewrite update_ok by (simpl; lia). unfold Timer1_at_1, ticks_to. simpl.
    replace ((1 - 0) * ARDUINO_FREQ / 1) with (IZR 16000000)
      by (unfold ARDUINO_FREQ; lra).
    rewrite py_round_IZR. reflexivity.
  - simpl. lra.
  - rewrite update_ok by (simpl; lia). unfold Timer1_back, ticks_to. simpl.
    replace ((1 / 2 - 1) * ARDUINO_FREQ / 1) with (IZR (-8000000))
      by (unfold ARDUINO_FREQ; lra).
    rewrite py_round_IZR. reflexivity.
  - apply Timer1_0_update_binary64_1.
  - apply Timer1_at_1_update_binary64_half.
Qed.

Lemma module_timer_prescale_le (self : ATS.t) :
  module_timer self -> In (ATS.prescale self) (ATS.prescale_values self) ->
  (0 < ATS.prescale self <= 1024)%Z.
Proof.
  intros [(_ & E & _) | (_ & E & _)] Hin; rewrite E in Hin; cbn in Hin;
    intuition lia.
Qed.

(** [update] to a later time, at most [2 ^ 51] clock cycles away, keeps the
    counter inside a period of at most [2 ^ 52]. *)
Lemma update_binary64_forward (self : ATS.t) (tt : R) :
  (0 < ATS.prescale self <= 2 ^ 53)%Z ->
  (0 <= ATS.current self < ATS.top self)%Z -> (ATS.top self <= 2 ^ 52)%Z ->
  ATS.current_t self <= tt ->
  (tt - ATS.current_t self) * ARDUINO_FREQ <= IZR (2 ^ 51) ->
  exists self',
    ATS.update_binary64 self tt = Ok self'
    /\ (0 <= ATS.current self' < ATS.top self')%Z
    /\ ATS.top self' = ATS.top self /\ ATS.duty self' = ATS.duty self
    /\ ATS.prescale self' = ATS.prescale self
    /\ ATS.prescale_values self' = ATS.prescale_values self
    /\ ATS.current_t self' = tt.
Proof.
  intros Hp Hc Htop Ht Hd.
  destruct (update_binary64_near self tt Hp ltac:(lia) ltac:(lia))
    as (k & Hk & Hb & Hu).
  { rewrite Rabs_pos_eq by lra. exact Hd. }
  pose proof (ticks_binary64_nonneg self tt k ltac:(lia) Ht Hk) as Hk0.
  eexists. split; [exact Hu |]. cbn.
  repeat split; try reflexivity; apply Z.rem_bound_pos; lia.
Qed.

(** C5.  On either timer of the module, started from a state that satisfies
    the invariants, [set_note] on a MIDI pitch and [set_off] return and
    leave a state that satisfies the invariants again: counter within the
    period, duty at most the period, prescaler among the candidates.  So
    does [update] to a time not before the last sync time as long as the
    time difference is at most [2 ^ 51] clock cycles and the period at most
    [2 ^ 52].  Beyond that it does not: [update] reduces the counter with
    the float quotient [self.current / self.top], which is exact only up to
    [2 ^ 53].  The first timer after [set_note (69, 10)], at time 0 with its
    counter at 0, is moved by [update (1e15)] to the counter 291072, which
    is not below the period 36364. *)
Theorem timer_operations_preserve_invariants :
  (forall self : ATS.t,
     module_timer self -> timer_inv self ->
     (forall note volume, (0 <= note <= 127)%Z ->
        exists self', ATS.set_note self note volume = Ok self'
                      /\ timer_inv self' /\ module_timer self')
     /\ (timer_inv (ATS.set_off self) /\ module_timer (ATS.set_off self))
     /\ (forall tt, ATS.current_t self <= tt ->
           (tt - ATS.current_t self) * ARDUINO_FREQ <= IZR (2 ^ 51) ->
           (ATS.top self <= 2 ^ 52)%Z ->
           exists self', ATS.update_binary64 self tt = Ok self'
                         /\ timer_inv self' /\ module_timer self'))
  /\ (ATS.set_note Timer1_0 69 10 = Ok Timer1_a4 /\ timer_inv Timer1_a4
      /\ ATS.current_t Timer1_a4 <= 1000000000000000
      /\ exists self',
           ATS.update_binary64 Timer1_a4 1000000000000000 = Ok self'
           /\ ATS.current self' = 291072%Z /\ ATS.top self' = 36364%Z
           /\ ~ timer_inv self').
Proof.
  split.
  { intros self Hcfg (Hc & Hd & Hp).
  pose proof (module_timer_wf self Hcfg) as Hwf.
  split; [| split].
  - intros note volume Hnote.
    destruct (set_note_returns self note volume Hwf) as [self' H].
    exists self'. split; [assumption |].
    destruct (set_note_module_timer self self' note volume Hcfg Hnote H)
      as [-> | (p & -> & Hin & Hpos & Htop & Hduty)].
    + split; [repeat split; tauto | assumption].
    + split; [| eauto using module_timer_config, note_state_config].
      unfold timer_inv. cbn [note_state ATS.top ATS.duty ATS.current
                             ATS.prescale ATS.prescale_values] in *.
      split; [| split; [lia | assumption]].
      destruct (Z.leb_spec (py_round (ARDUINO_FREQ / (IZR p * get_midi_freq note)))
                           (ATS.current self)); lia.
  - split; [| eauto using module_timer_config, set_off_config].
    unfold timer_inv. cbn. repeat split; try tauto; lia.
  - intros tt Ht Hnear Htop.
    pose proof (module_timer_prescale_le self Hcfg Hp) as Hpp.
    destruct (update_binary64_forward self tt ltac:(lia) Hc Htop Ht Hnear)
      as (self' & H & Hc' & E1 & E2 & E3 & E4 & _).
    exists self'. split; [assumption |].
    split; [| eauto using module_timer_config, update_binary64_config].
    unfold timer_inv. rewrite E1 in Hc'. rewrite E1, E2, E3, E4. tauto. }
  - split; [apply (set_note_a4 Timer1_0); [repeat split | cbn; lia] |].
    split; [unfold timer_inv, Timer1_a4; cbn; intuition lia |].
    split; [cbn; lra |].
    eexists. split; [apply Timer1_a4_update_1e15 |].
    cbn [ATS.current ATS.top]. split; [reflexivity | split; [reflexivity |]].
    unfold timer_inv. cbn [ATS.current ATS.top]. lia.
Qed.

Lemma timer_operations_preserve_invariants_witness :
  (forall note volume, (0 <= note <= 127)%Z ->
     exists self', ATS.set_note Timer1_0 note volume = Ok self'
                   /\ timer_inv self' /\ module_timer self')
  /\ (timer_inv (ATS.set_off Timer1_0) /\ module_timer (ATS.set_off Timer1_0))
  /\ (forall tt, ATS.current_t Timer1_0 <= tt ->
        (tt - ATS.current_t Timer1_0) * ARDUINO_FREQ <= IZR (2 ^ 51) ->
        (ATS.top Timer1_0 <= 2 ^ 52)%Z ->
        exists self', ATS.update_binary64 Timer1_0 tt = Ok self'
                      /\ timer_inv self' /\ module_timer self').
Proof.
  destruct timer_operations_preserve_invariants as [A _].
  apply (A Timer1_0).
  - left. repeat split.
  - unfold timer_inv, Timer1_0. cbn. repeat split; lia.
Defined.

(** ** The logic signal: single commands *)

(** What one call of [update_state] does to the cursor and the pulse list. *)
Lemma update_state_pulses (tt : R) (st st' : logic_state) :
  update_state tt st = Ok st' ->
  current_t st' = tt
  /\ (pulses st' = pulses st
      \/ (current_state st = true /\ current_state st' = false
          /\ pulses st'
             = pulses st
               ++ [(current_pulse_start st,
                    Rmin (current_pulse_start st + MAX_PULSE_LENGTH) tt)])).
Proof.
  unfold update_state. intros H.
  destruct (ATS.update (Timer1 (tms st)) tt) as [t1 | |]; try discriminate.
  destruct (ATS.update (Timer2 (tms st)) tt) as [t2 | |]; try discriminate.
  cbn [bind] in H.
  destruct (Bool.eqb _ _) eqn:E.
  - injection H as <-. cbn. auto.
  - destruct (ATS.current_state t1 || ATS.current_state t2) eqn:N.
    + injection H as <-. cbn. auto.
    + injection H as <-. cbn. split; [reflexivity |]. right.
      destruct (current_state st); [auto | discriminate].
Qed.

(** The first command of a stream is handled at time 0, whatever its delta
    time: the tempo is still 0. *)
Lemma run_single_cmd (fuel : nat) (ticks_per_beat : Z) (cmd : command)
    (ts : timers) (st : logic_state) :
  run_cmds fuel ticks_per_beat [cmd] 0 0 (initial_logic_state ts) = Ok st ->
  exists r,
    apply_cmd cmd 0 (initial_logic_state ts) = Ok r
    /\ update_state 0 (snd r) = Ok st.
Proof.
  intros H. destruct (Z.eq_dec ticks_per_beat 0) as [-> | Hz].
  - cbn [run_cmds] in H.
    replace (1000000 * 0) with 0 in H by ring.
    rewrite py_truediv_zero in H. discriminate.
  - rewrite run_cmds_same_time in H by (try reflexivity; lia).
    destruct (apply_cmd cmd 0 (initial_logic_state ts)) as [r | |];
      try discriminate.
    cbn [bind] in H. exists r. split; [reflexivity |].
    destruct (update_state 0 (snd r)); try discriminate. exact H.
Qed.

Lemma apply_cmd_locals (cmd : command) (current_tempo : Z) (st : logic_state)
    (r : Z * logic_state) :
  apply_cmd cmd current_tempo st = Ok r ->
  current_state (snd r) = current_state st
  /\ current_pulse_start (snd r) = current_pulse_start st
  /\ pulses (snd r) = pulses st
  /\ current_t (snd r) = current_t st.
Proof.
  unfold apply_cmd. intros H.
  destruct (type cmd);
    repeat match type of H with
           | context [ArduinoTimers_index ?i] =>
               destruct (ArduinoTimers_index i) as [[|] | |];
               cbn [bind] in H; try discriminate
           | context [ATS.set_note ?a ?b ?c] =>
               destruct (ATS.set_note a b c); cbn [bind] in H; try discriminate
           end;
    injection H as <-; cbn; auto.
Qed.

(** The first falling edge, on timers that are off. *)
Lemma initial_update_state :
  update_state 0 (initial_logic_state fresh_timers)
  = Ok (mk_ls fresh_timers false 0 [(0, 0)] 0).
Proof.
  unfold update_state. cbn [initial_logic_state tms fresh_timers Timer1 Timer2].
  rewrite Timer1_0_update_0, Timer2_0_update_0. cbn.
  rewrite Rmin_cap_zero. reflexivity.
Qed.

(** C3, counterexample.  The stream that holds only a tempo command yields
    the single pulse [(0, 0)], whose duration is not positive. *)
Lemma tempo_only_zero_length_pulse :
  generate_logic_signal 1000 480 [tempo_cmd] fresh_timers
  = Ok ([(0, 0)], fresh_timers)
  /\ ~ pulses_strict [(0, 0)].
Proof.
  split; [apply tempo_only_run |].
  intros [H _]. inversion H as [| ? ? Hp _]; subst. cbn in Hp. lra.
Qed.

(** ** Conversions *)

Lemma generate_wav_of_pulses (fuel : nat) (ticks_per_beat : Z)
    (cmds : list command) (ts ts' : timers) (ps : list pulse) :
  generate_logic_signal fuel ticks_per_beat cmds ts = Ok (ps, ts') ->
  generate_wav fuel ticks_per_beat cmds ts
  = mk_run (fst (render fuel ps)) (snd (render fuel ps)) (Some ts').
Proof. intros H. unfold generate_wav. now rewrite H. Qed.

(** C2.  On the empty command stream, and on every stream for which the
    signal generator returns an empty pulse list, [generate_wav] writes no
    frame and ends in [IndexError]: the index [-1] is taken on the empty
    list. *)
Theorem no_pulses_raises_IndexError :
  (forall fuel ticks_per_beat ts,
     generate_logic_signal fuel ticks_per_beat [] ts = Ok ([], ts)
     /\ generate_wav fuel ticks_per_beat [] ts
        = mk_run [] (Raise IndexError) (Some ts))
  /\ (forall fuel ticks_per_beat cmds ts ts',
        generate_logic_signal fuel ticks_per_beat cmds ts = Ok ([], ts') ->
        generate_wav fuel ticks_per_beat cmds ts
        = mk_run [] (Raise IndexError) (Some ts')).
Proof.
  split.
  - intros. split; reflexivity.
  - intros fuel tpb cmds ts ts' H.
    now rewrite (generate_wav_of_pulses _ _ _ _ _ _ H).
Qed.

Lemma no_pulses_raises_IndexError_witness :
  generate_wav 100 480 [a4_on_cmd] fresh_timers
  = mk_run [] (Raise IndexError) (Some (mk_timers Timer1_a4 Timer2_0)).
Proof.
  destruct no_pulses_raises_IndexError as [_ B].
  exact (B 100%nat 480%Z [a4_on_cmd] fresh_timers _ (note_on_only_run 100)).
Defined.


(** The tempo command and then the note-on, from the fresh timers: the
    pulse [(0, 0)], and the first timer left playing. *)
Lemma tempo_then_note_run (fuel : nat) :
  generate_logic_signal fuel 480 [tempo_cmd; a4_on_cmd] fresh_timers
  = Ok ([(0, 0)], mk_timers Timer1_a4 Timer2_0).
Proof.
  unfold generate_logic_signal.
  rewrite run_cmds_same_time by (try reflexivity; lia).
  cbn [apply_cmd tempo_cmd type tempo bind snd fst].
  rewrite initial_update_state. cbn [bind].
  rewrite run_cmds_same_time by (try reflexivity; lia).
  cbn [apply_cmd a4_on_cmd type timer note volume bind snd fst].
  cbn [ArduinoTimers_index Z.sub Z.eqb orb Z.pos_sub Z.add Z.opp bind
       tms fresh_timers Timer1 Timer2 with_timers].
  rewrite (set_note_a4 Timer1_0) by (try (repeat split); cbn; lia).
  cbn [bind snd fst Timer1_0 ATS.current ATS.current_t]. fold Timer1_0 Timer1_a4.
  unfold update_state. cbn [tms Timer1 Timer2 with_timers].
  rewrite Timer1_a4_update_0, Timer2_0_update_0. cbn. reflexivity.
Qed.




(** ** The logic signal: ordering of the pulses *)

Lemma update_ok_inv (self self' : ATS.t) (tt : R) :
  ATS.update self tt = Ok self' ->
  ATS.prescale self <> 0%Z /\ ATS.top self <> 0%Z.
Proof.
  unfold ATS.update, py_truediv. intros H.
  destruct (Req_dec_T (IZR (ATS.prescale self)) 0) as [E | E]; [discriminate |].
  cbn [bind] in H.
  destruct (Req_dec_T (IZR (ATS.top self)) 0) as [E' | E']; [discriminate |].
  split; intros Hz; [apply E | apply E']; now rewrite Hz.
Qed.

Lemma timer_running_set (self : ATS.t) : timer_running self -> timer_set self.
Proof. unfold timer_running, timer_set. intuition lia. Qed.

Lemma update_running (self self' : ATS.t) (tt : R) :
  timer_set self -> ATS.current_t self <= tt ->
  ATS.update self tt = Ok self' ->
  timer_running self' /\ ATS.current_t self' = tt.
Proof.
  intros (Hwf & Hc & Ht & Hlt & Hp) Htt H.
  destruct (update_ok_inv _ _ _ H) as [_ Hnz].
  assert (0 <= ATS.current self < ATS.top self)%Z as Hc' by lia.
  destruct (update_forward self tt Hp Hc' Htt)
    as (s & Hs & Hcs & E1 & _ & E3 & _ & E5).
  rewrite Hs in H. injection H as <-.
  split; [| assumption].
  split; [| split; [assumption | now rewrite E3]].
  eapply same_config_wf; [eapply update_config; eassumption | assumption].
Qed.

Lemma next_prescale_In (max0 : Z) (f : R) (vs : list Z) (p : Z) :
  ATS.next_prescale max0 f vs = Ok p -> In p vs.
Proof.
  induction vs as [| v vs IH]; cbn [ATS.next_prescale]; [discriminate |].
  destruct (py_truediv _ _); cbn [bind]; try discriminate.
  destruct (Rlt_dec _ _).
  - intros H. injection H as ->. now left.
  - intros H. right. auto.
Qed.

(** [set_note] either leaves the timer alone or writes the state for one of
    the candidate prescalers. *)
Lemma set_note_inv (self self' : ATS.t) (note volume : Z) :
  ATS.set_note self note volume = Ok self' ->
  self' = self
  \/ exists p, In p (ATS.prescale_values self)
               /\ self' = note_state self note volume p.
Proof.
  unfold ATS.set_note. intros H.
  destruct (Rlt_dec _ _); [injection H as <-; now left |].
  destruct (ATS.next_prescale _ _ _) as [p | |] eqn:Hn; try discriminate.
  cbn [bind] in H.
  destruct (py_truediv ARDUINO_FREQ _) as [q | |] eqn:Hq; try discriminate.
  cbn [bind] in H.
  destruct (py_truediv _ (IZR p)) as [d | |] eqn:Hd; try discriminate.
  cbn [bind] in H. injection H as <-.
  right. exists p. split; [eapply next_prescale_In; eassumption |].
  unfold py_truediv in Hq, Hd.
  destruct (Req_dec_T _ _); [discriminate |]. injection Hq as <-.
  destruct (Req_dec_T _ _); [discriminate |]. injection Hd as <-.
  reflexivity.
Qed.

Lemma set_note_set (self self' : ATS.t) (note volume : Z) :
  timer_running self -> ATS.set_note self note volume = Ok self' ->
  timer_set self' /\ ATS.current_t self' = ATS.current_t self.
Proof.
  intros Hr H. destruct (set_note_inv _ _ _ _ H) as [-> | (p & Hin & ->)].
  - split; [now apply timer_running_set | reflexivity].
  - destruct Hr as (Hwf & Hc & Hp).
    pose proof (wf_prescale_pos self p Hwf Hin) as Hpp.
    split; [| reflexivity].
    assert (0 <= py_round (ARDUINO_FREQ / (IZR p * get_midi_freq note)))%Z as Ht.
    { apply py_round_nonneg. apply IZR_lt in Hpp.
      pose proof (get_midi_freq_pos note).
      apply Rlt_le, Rdiv_lt_0_compat; [unfold ARDUINO_FREQ; lra | nra]. }
    split; [eapply same_config_wf; [apply note_state_config | assumption] |].
    unfold note_state. cbn [ATS.current ATS.top ATS.prescale].
    destruct (Z.leb_spec (py_round (ARDUINO_FREQ / (IZR p * get_midi_freq note)))
                         (ATS.current self)); repeat split; lia.
Qed.

Lemma set_off_running (self : ATS.t) :
  timer_running self -> timer_running (ATS.set_off self).
Proof.
  intros (Hwf & Hc & Hp). split; [| split; assumption].
  eapply same_config_wf; [apply set_off_config | assumption].
Qed.

(** The next change of a running timer lies strictly ahead of it. *)
Lemma next_change_later (self : ATS.t) :
  timer_running self -> ATS.current_t self < ATS.next_change self.
Proof.
  intros (_ & Hc & Hp). unfold ATS.next_change, ATS.current_state.
  apply IZR_lt in Hp.
  assert (forall x : Z, (0 < x)%Z ->
            0 < IZR x * IZR (ATS.prescale self) / ARDUINO_FREQ) as Hpos.
  { intros x Hx. apply IZR_lt in Hx.
    apply Rdiv_lt_0_compat; [nra | unfold ARDUINO_FREQ; lra]. }
  destruct (Z.ltb_spec (ATS.current self) (ATS.duty self)).
  - specialize (Hpos (ATS.duty self - ATS.current self)%Z ltac:(lia)). lra.
  - specialize (Hpos (ATS.top self - ATS.current self)%Z ltac:(lia)). lra.
Qed.

Lemma sorted_snoc {A : Type} (R : A -> A -> Prop) (l : list A) (a : A) :
  StronglySorted R l -> Forall (fun x => R x a) l -> StronglySorted R (l ++ [a]).
Proof.
  induction l as [| x l IH]; intros Hs Hf; cbn.
  - repeat constructor.
  - apply StronglySorted_inv in Hs. destruct Hs as [Hs Hx].
    inversion Hf; subst. constructor; [auto |].
    apply Forall_app. split; [assumption | now constructor].
Qed.

Lemma pulses_ordered_snoc (ps : list pulse) (s e : R) :
  pulses_ordered ps -> Forall (fun p : pulse => snd p <= s) ps ->
  s <= e <= s + MAX_PULSE_LENGTH ->
  pulses_ordered (ps ++ [(s, e)]).
Proof.
  intros [Hd Hs] Hf He. split.
  - apply Forall_app. split; [assumption | now constructor].
  - apply sorted_snoc; assumption.
Qed.

Lemma Forall_snd_le (ps : list pulse) (a b : R) :
  a <= b -> Forall (fun p : pulse => snd p <= a) ps ->
  Forall (fun p : pulse => snd p <= b) ps.
Proof.
  intros Hab. apply Forall_impl. intros p Hp. lra.
Qed.

(** One call of [update_state] at a time not before the cursor keeps the
    invariant of the generator. *)
Lemma update_state_inv (tt : R) (st st' : logic_state) :
  timers_synced timer_set st -> pulses_inv st -> current_t st <= tt ->
  update_state tt st = Ok st' -> logic_inv st'.
Proof.
  intros (H1 & H2 & E1 & E2) (Ho & Hps & Hall & Hopen) Htt H.
  unfold update_state in H.
  destruct (ATS.update (Timer1 (tms st)) tt) as [t1 | |] eqn:U1; try discriminate.
  destruct (ATS.update (Timer2 (tms st)) tt) as [t2 | |] eqn:U2; try discriminate.
  cbn [bind] in H.
  assert (ATS.current_t (Timer1 (tms st)) <= tt) as L1 by lra.
  assert (ATS.current_t (Timer2 (tms st)) <= tt) as L2 by lra.
  destruct (update_running _ _ _ H1 L1 U1) as [R1 T1].
  destruct (update_running _ _ _ H2 L2 U2) as [R2 T2].
  pose proof MAX_PULSE_LENGTH_pos as Hmax.
  destruct (Bool.eqb _ _) eqn:E.
  - injection H as <-.
    split; [unfold timers_synced; cbn [tms Timer1 Timer2 current_t]; auto |].
    split; [assumption |]. cbn. split; [lra |].
    split; [eapply Forall_snd_le; [| eassumption]; lra | assumption].
  - destruct (ATS.current_state t1 || ATS.current_state t2) eqn:N.
    + injection H as <-.
      split; [unfold timers_synced; cbn [tms Timer1 Timer2 current_t]; auto |].
      split; [assumption |]. cbn. split; [lra |].
      assert (Forall (fun p : pulse => snd p <= tt) (pulses st))
        by (eapply Forall_snd_le; [| eassumption]; lra).
      split; auto.
    + injection H as <-.
      assert (current_state st = true) as Hst
        by (destruct (current_state st); [reflexivity | discriminate]).
      specialize (Hopen Hst).
      split; [unfold timers_synced; cbn [tms Timer1 Timer2 current_t]; auto |].
      unfold pulses_inv. cbn [pulses current_pulse_start current_t current_state].
      split; [| split; [lra | split; [| discriminate]]].
      * apply pulses_ordered_snoc; [assumption | assumption |].
        split; [apply Rmin_glb; lra | apply Rmin_l].
      * apply Forall_app. split.
        -- eapply Forall_snd_le; [| eassumption]. lra.
        -- constructor; [cbn; apply Rmin_r | constructor].
Qed.

Lemma logic_inv_set (st : logic_state) :
  logic_inv st -> timers_synced timer_set st.
Proof.
  intros [(H1 & H2 & E1 & E2) _].
  repeat split; try assumption; now apply timer_running_set.
Qed.

Lemma advance_to_inv (fuel : nat) (cmd_t : R) (st st' : logic_state) :
  logic_inv st -> current_t st <= cmd_t ->
  advance_to fuel cmd_t st = Ok st' ->
  logic_inv st' /\ current_t st' = cmd_t.
Proof.
  revert st. induction fuel as [| fuel IH]; intros st Hinv Hle H;
    cbn [advance_to] in H;
    destruct (Rlt_dec (current_t st) cmd_t) as [L | L]; try discriminate.
  - injection H as <-. split; [assumption | lra].
  - destruct Hinv as [Hsync Hp]. pose proof Hsync as (H1 & H2 & E1 & E2).
    pose proof (next_change_later _ H1) as N1.
    pose proof (next_change_later _ H2) as N2.
    set (ntc := Rmin (ATS.next_change (Timer1 (tms st)))
                     (ATS.next_change (Timer2 (tms st)))) in *.
    assert (current_t st < ntc) as Hn.
    { unfold ntc. apply Rmin_case; lra. }
    destruct (Rlt_dec ntc cmd_t) as [C | C].
    + destruct (update_state ntc st) as [st1 | |] eqn:U; try discriminate.
      cbn [bind] in H.
      assert (logic_inv st1) as Hinv1.
      { apply (update_state_inv ntc st st1); [| assumption | lra | exact U].
        apply logic_inv_set. now split. }
      destruct (update_state_pulses _ _ _ U) as [Et _].
      apply (IH st1); [assumption | lra | assumption].
    + destruct (update_state cmd_t st) as [st1 | |] eqn:U; try discriminate.
      cbn [bind] in H.
      assert (logic_inv st1) as Hinv1.
      { apply (update_state_inv cmd_t st st1); [| assumption | lra | exact U].
        apply logic_inv_set. now split. }
      destruct (update_state_pulses _ _ _ U) as [Et _].
      apply (IH st1); [assumption | lra | assumption].
  - injection H as <-. split; [assumption | lra].
Qed.

Lemma apply_cmd_inv (cmd : command) (current_tempo : Z) (st : logic_state)
    (r : Z * logic_state) :
  logic_inv st -> cmd_ok cmd -> (0 <= current_tempo)%Z ->
  apply_cmd cmd current_tempo st = Ok r ->
  timers_synced timer_set (snd r) /\ pulses_inv (snd r)
  /\ current_t (snd r) = current_t st /\ (0 <= fst r)%Z.
Proof.
  intros Hinv [_ Hok] Htempo H.
  pose proof (logic_inv_set st Hinv) as Hset.
  destruct Hinv as [(H1 & H2 & E1 & E2) Hp].
  pose proof Hset as (S1 & S2 & _ & _).
  pose proof (timer_running_set _ (set_off_running _ H1)) as O1.
  pose proof (timer_running_set _ (set_off_running _ H2)) as O2.
  unfold apply_cmd in H.
  destruct (type cmd) eqn:Ety.
  - injection H as <-. cbn [fst snd]. auto 6.
  - injection H as <-. cbn [fst snd]. auto 6.
  - destruct (ArduinoTimers_index _) as [[|] | |]; cbn [bind] in H;
      try discriminate; injection H as <-; cbn [fst snd];
      (split; [| split; [exact Hp | split; [reflexivity | assumption]]]);
      unfold timers_synced; cbn; auto.
  - injection H as <-. cbn [fst snd].
    split; [| split; [exact Hp | split; [reflexivity | assumption]]].
    unfold timers_synced; cbn; auto.
  - destruct (ArduinoTimers_index _) as [[|] | |]; cbn [bind] in H;
      try discriminate.
    + destruct (ATS.set_note _ _ _) as [t2 | |] eqn:Hs; cbn [bind] in H;
        try discriminate.
      injection H as <-. cbn [fst snd].
      destruct (set_note_set _ _ _ _ H2 Hs) as [T2 Et].
      split; [| split; [exact Hp | split; [reflexivity | assumption]]].
      unfold timers_synced; cbn. rewrite Et. auto.
    + destruct (ATS.set_note _ _ _) as [t1 | |] eqn:Hs; cbn [bind] in H;
        try discriminate.
      injection H as <-. cbn [fst snd].
      destruct (set_note_set _ _ _ _ H1 Hs) as [T1 Et].
      split; [| split; [exact Hp | split; [reflexivity | assumption]]].
      unfold timers_synced; cbn. rewrite Et. auto.
  - injection H as <-. cbn [fst snd]. auto 6.
Qed.

Lemma run_cmds_inv (fuel : nat) (ticks_per_beat : Z) (cmds : list command)
    (last_cmd_t : R) (current_tempo : Z) (st st' : logic_state) :
  (0 < ticks_per_beat)%Z -> Forall cmd_ok cmds ->
  logic_inv st -> current_t st = last_cmd_t -> (0 <= current_tempo)%Z ->
  run_cmds fuel ticks_per_beat cmds last_cmd_t current_tempo st = Ok st' ->
  logic_inv st'.
Proof.
  intros Htpb. revert last_cmd_t current_tempo st.
  induction cmds as [| cmd cmds IH]; intros last tempo0 st Hok Hinv Hlast Htempo H.
  - cbn in H. now injection H as <-.
  - inversion Hok as [| ? ? Hcmd Hrest]; subst.
    cbn [run_cmds] in H.
    apply IZR_lt in Htpb.
    rewrite py_truediv_ok in H by nra. cbn [bind] in H.
    set (cmd_t := current_t st
                  + IZR (time cmd * tempo0) / (1000000 * IZR ticks_per_beat)) in *.
    assert (current_t st <= cmd_t) as Hle.
    { assert (0 <= IZR (time cmd * tempo0) / (1000000 * IZR ticks_per_beat)).
      { apply Rmult_le_pos.
        - apply IZR_le. destruct Hcmd. nia.
        - left. apply Rinv_0_lt_compat. nra. }
      unfold cmd_t. lra. }
    destruct (advance_to fuel cmd_t st) as [st1 | |] eqn:A; try discriminate.
    cbn [bind] in H.
    destruct (advance_to_inv _ _ _ _ Hinv Hle A) as [Hinv1 Et1].
    destruct (apply_cmd cmd tempo0 st1) as [r | |] eqn:C; try discriminate.
    cbn [bind] in H.
    destruct (apply_cmd_inv _ _ _ _ Hinv1 Hcmd Htempo C) as (Hs & Hp & Et & Hf).
    destruct (update_state cmd_t (snd r)) as [st3 | |] eqn:U; try discriminate.
    cbn [bind] in H.
    assert (logic_inv st3) as Hinv3.
    { eapply update_state_inv; [exact Hs | exact Hp | | exact U]. lra. }
    destruct (update_state_pulses _ _ _ U) as [Et3 _].
    eapply IH; [exact Hrest | exact Hinv3 | exact Et3 | exact Hf | exact H].
Qed.

(** C3 (as amended).  Started on running timers that stand at time 0, for a
    positive [ticks_per_beat] and a stream whose delta times and tempi are
    not negative, every pulse list the generator returns is ordered in the
    weak sense: each pulse ends at or after its start and at most
    [MAX_PULSE_LENGTH] later, and each pulse starts at or after the end of
    every earlier one.  Pulses of duration 0, and pulses that touch, occur. *)
Theorem pulses_weakly_ordered (fuel : nat) (ticks_per_beat : Z)
    (cmds : list command) (ts ts' : timers) (ps : list pulse) :
  timer_running (Timer1 ts) -> timer_running (Timer2 ts) ->
  ATS.current_t (Timer1 ts) = 0 -> ATS.current_t (Timer2 ts) = 0 ->
  (0 < ticks_per_beat)%Z -> Forall cmd_ok cmds ->
  generate_logic_signal fuel ticks_per_beat cmds ts = Ok (ps, ts') ->
  pulses_ordered ps.
Proof.
  intros H1 H2 E1 E2 Htpb Hok H. unfold generate_logic_signal in H.
  destruct (run_cmds _ _ _ _ _ _) as [st | |] eqn:R; try discriminate.
  cbn [bind] in H. injection H as <- <-.
  assert (logic_inv (initial_logic_state ts)) as Hinv.
  { split; [unfold timers_synced; cbn [tms Timer1 Timer2 current_t]; auto |].
    unfold pulses_inv, initial_logic_state.
    cbn [pulses current_pulse_start current_t current_state].
    split; [split; constructor |]. split; [lra |]. split; intros; constructor. }
  pose proof (run_cmds_inv _ _ _ _ _ _ _ Htpb Hok Hinv eq_refl (Z.le_refl 0) R)
    as [_ [Hord _]].
  exact Hord.
Qed.

Lemma Timer1_0_running : timer_running Timer1_0.
Proof. split; [apply Timer1_0_wf | cbn; lia]. Qed.

Lemma Timer2_0_running : timer_running Timer2_0.
Proof. split; [apply Timer2_0_wf | cbn; lia]. Qed.

Lemma tempo_cmd_ok : cmd_ok tempo_cmd.
Proof. split; cbn; intros; lia. Qed.

Lemma a4_on_cmd_ok : cmd_ok a4_on_cmd.
Proof. split; cbn; intros; lia. Qed.

Lemma pulses_weakly_ordered_witness : pulses_ordered [(0, 0)].
Proof.
  apply (pulses_weakly_ordered 100 480 [tempo_cmd; a4_on_cmd] fresh_timers
           (mk_timers Timer1_a4 Timer2_0) [(0, 0)]).
  - apply Timer1_0_running.
  - apply Timer2_0_running.
  - reflexivity.
  - reflexivity.
  - lia.
  - repeat constructor; cbn; intros; lia.
  - apply tempo_then_note_run.
Defined.


(** ** The constructor *)

(** X1.  [__init__]: an empty prescaler list raises [IndexError]; a wrap limit or
    a last prescaler of 0 raises [ZeroDivisionError]; otherwise the timer
    returned is off, at time 0, with prescaler 1 and the period at the wrap
    limit.  With a positive wrap limit and an ascending list of positive
    prescalers it is well formed and its counter is within its period; the
    prescaler 1 it starts with is among the candidates only if the list
    holds 1.  [Timer1] and [Timer2] are what [__init__] returns for the
    arguments of lines 76 and 77. *)
Theorem init_behaviour :
  (forall max0, ATS.init max0 [] = Raise IndexError)
  /\ (forall max0 pvs v,
        ATS.last_item pvs = Ok v -> (v * max0 = 0)%Z ->
        ATS.init max0 pvs = Raise ZeroDivisionError)
  /\ (forall max0 pvs v,
        ATS.last_item pvs = Ok v -> (v * max0 <> 0)%Z ->
        ATS.init max0 pvs
        = Ok (ATS.mk max0 pvs 1 max0 (ARDUINO_FREQ / IZR (v * max0)) 0 0 0))
  /\ (forall max0 pvs self,
        (0 < max0)%Z -> Forall (fun v => 0 < v)%Z pvs ->
        StronglySorted Z.lt pvs ->
        ATS.init max0 pvs = Ok self ->
        timer_running self /\ ATS.current_state self = false
        /\ (timer_inv self <-> In 1%Z pvs))
  /\ ATS.init 65536 [1; 8; 64; 256; 1024]%Z = Ok Timer1_0
  /\ ATS.init 256 [1; 8; 32; 64; 128; 256; 1024]%Z = Ok Timer2_0.
Proof.
  assert (forall max0 pvs v,
            ATS.last_item pvs = Ok v -> (v * max0 <> 0)%Z ->
            ATS.init max0 pvs
            = Ok (ATS.mk max0 pvs 1 max0 (ARDUINO_FREQ / IZR (v * max0)) 0 0 0))
    as Hok.
  { intros max0 pvs v Hl Hnz. unfold ATS.init. rewrite Hl. cbn [bind].
    rewrite py_truediv_ok by (now apply not_0_IZR). reflexivity. }
  split; [reflexivity |]. split; [| split; [exact Hok | split; [| split]]].
  - intros max0 pvs v Hl Hz. unfold ATS.init. rewrite Hl. cbn [bind].
    rewrite Hz. now rewrite py_truediv_zero.
  - intros max0 pvs self Hmax Hpos Hs H.
    destruct (ATS.last_item pvs) as [v | |] eqn:Hl;
      try (unfold ATS.init in H; rewrite Hl in H; discriminate).
    assert (0 < v)%Z as Hv.
    { rewrite Forall_forall in Hpos. apply Hpos. now apply last_item_In. }
    rewrite (Hok max0 pvs v Hl) in H by nia. injection H as <-.
    split; [| split].
    + split; [| cbn; lia]. unfold timer_wf. cbn.
      repeat split; try assumption. exists v. auto.
    + reflexivity.
    + unfold timer_inv. cbn. intuition lia.
  - apply (Hok 65536%Z _ 1024%Z); [reflexivity | lia].
  - apply (Hok 256%Z _ 1024%Z); [reflexivity | lia].
Qed.

Lemma init_behaviour_witness :
  ATS.init 0 [1; 8]%Z = Raise ZeroDivisionError
  /\ (timer_running Timer1_0 /\ ATS.current_state Timer1_0 = false
      /\ (timer_inv Timer1_0 <-> In 1%Z [1; 8; 64; 256; 1024]%Z)).
Proof.
  destruct init_behaviour as (_ & A & _ & B & C & _). split.
  - apply (A 0%Z [1; 8]%Z 8%Z); reflexivity.
  - apply (B 65536%Z [1; 8; 64; 256; 1024]%Z Timer1_0);
      [lia | repeat constructor; lia | repeat constructor; lia | exact C].
Defined.

(** ** Note frequencies *)



(** ** The period that [set_note] writes *)

Lemma next_prescale_fits (max0 : Z) (f : R) (vs : list Z) (p : Z) :
  ATS.next_prescale max0 f vs = Ok p -> ARDUINO_FREQ / IZR (max0 * p) < f.
Proof.
  induction vs as [| v vs IH]; cbn [ATS.next_prescale]; [discriminate |].
  unfold py_truediv. destruct (Req_dec_T _ _); cbn [bind]; [discriminate |].
  destruct (Rlt_dec _ _) as [L | L].
  - intros H. injection H as <-. exact L.
  - exact IH.
Qed.

(** What [set_note] returns when the note is not below [min_freq]. *)
Lemma set_note_written (self self' : ATS.t) (note volume : Z) :
  ~ get_midi_freq note < ATS.min_freq self ->
  ATS.set_note self note volume = Ok self' ->
  exists p, In p (ATS.prescale_values self)
            /\ prescaler_fits (ATS.max self) (get_midi_freq note) p
            /\ self' = note_state self note volume p.
Proof.
  unfold ATS.set_note. intros Hge H.
  destruct (Rlt_dec _ _); [contradiction |].
  destruct (ATS.next_prescale _ _ _) as [p | |] eqn:Hn; try discriminate.
  cbn [bind] in H. exists p.
  split; [eapply next_prescale_In; eassumption |].
  split; [eapply next_prescale_fits; eassumption |].
  unfold py_truediv in H.
  destruct (Req_dec_T _ _); [discriminate |]. cbn [bind] in H.
  destruct (Req_dec_T _ _); [discriminate |]. cbn [bind] in H.
  now injection H as <-.
Qed.

(** X3.  When [set_note] writes a period, the period fits the counter: it is
    between 0 and the wrap limit [max], and it is the ideal period
    [ARDUINO_FREQ / (prescale * f)] to within half a tick. *)
Theorem set_note_period_fits (self self' : ATS.t) (note volume : Z) :
  timer_wf self ->
  ~ get_midi_freq note < ATS.min_freq self ->
  ATS.set_note self note volume = Ok self' ->
  (0 <= ATS.top self' <= ATS.max self)%Z
  /\ Rabs (IZR (ATS.top self')
           - ARDUINO_FREQ / (IZR (ATS.prescale self') * get_midi_freq note))
     <= 1 / 2
  /\ prescaler_fits (ATS.max self) (get_midi_freq note) (ATS.prescale self').
Proof.
  intros Hwf Hge H.
  destruct (set_note_written _ _ _ _ Hge H) as (p & Hin & Hfit & ->).
  pose proof (wf_prescale_pos self p Hwf Hin) as Hp.
  destruct Hwf as (Hmax & _).
  pose proof (get_midi_freq_pos note) as Hf.
  cbn [note_state ATS.top ATS.prescale].
  set (x := ARDUINO_FREQ / (IZR p * get_midi_freq note)).
  apply IZR_lt in Hp, Hmax.
  assert (0 < x) as Hx.
  { apply Rdiv_lt_0_compat; [unfold ARDUINO_FREQ; lra | nra]. }
  assert (x < IZR (ATS.max self)) as Hxm.
  { unfold prescaler_fits in Hfit. rewrite mult_IZR in Hfit.
    unfold x.
    apply Rmult_lt_reg_r with (IZR p * get_midi_freq note); [nra |].
    unfold Rdiv. rewrite Rmult_assoc, Rinv_l by nra.
    apply Rmult_lt_reg_r with (/ (IZR (ATS.max self) * IZR p)).
    { apply Rinv_0_lt_compat. nra. }
    replace (IZR (ATS.max self) * (IZR p * get_midi_freq note)
             * / (IZR (ATS.max self) * IZR p))
      with (get_midi_freq note) by (field; lra).
    lra. }
  split; [| split; [| exact Hfit]].
  - split; [apply py_round_nonneg; lra | apply py_round_le; lra].
  - pose proof (py_round_bounds x). apply Rabs_le. lra.
Qed.

Lemma set_note_period_fits_witness :
  (0 <= ATS.top Timer1_a4 <= ATS.max Timer1_0)%Z
  /\ Rabs (IZR (ATS.top Timer1_a4)
           - ARDUINO_FREQ / (IZR (ATS.prescale Timer1_a4) * get_midi_freq 69))
     <= 1 / 2
  /\ prescaler_fits (ATS.max Timer1_0) (get_midi_freq 69)
                    (ATS.prescale Timer1_a4).
Proof.
  apply (set_note_period_fits Timer1_0 Timer1_a4 69 10).
  - apply Timer1_0_wf.
  - rewrite get_midi_freq_base. cbn. unfold ARDUINO_FREQ. lra.
  - apply (set_note_a4 Timer1_0); [repeat split | cbn; lia].
Defined.


(** ** More on the timer *)

Lemma ticks_binary64_same_time (self : ATS.t) :
  (0 < ATS.prescale self <= 2 ^ 53)%Z ->
  ATS.ticks_binary64 self (ATS.current_t self) = Ok 0%Z.
Proof.
  intros Hp.
  apply (ticks_binary64_eval self (ATS.current_t self) 0 0 0 0 0 0);
    try lia; try (simpl; unfold Rdiv; ring).
Qed.

(** The state [update (1e15)] leaves the first timer in (see above), updated
    to the same time once more: the counter moves on to 160. *)
Lemma Timer1_a4_update_1e15_again :
  ATS.update_binary64
    (ATS.mk 65536 [1; 8; 64; 256; 1024]%Z 1 36364
            (ARDUINO_FREQ / IZR (1024 * 65536)) 320 291072 1000000000000000)
    1000000000000000
  = Ok (ATS.mk 65536 [1; 8; 64; 256; 1024]%Z 1 36364
               (ARDUINO_FREQ / IZR (1024 * 65536)) 320 160 1000000000000000).
Proof.
  set (s := ATS.mk _ _ _ _ _ _ _ _).
  rewrite (update_binary64_reduce s _ 0).
  - reflexivity.
  - apply (ticks_binary64_same_time s). cbn. lia.
  - cbn. lia.
  - cbn. lia.
Qed.

(** X4.  [update] is idempotent on a counter below [2 ^ 52] and a target time
    within [2 ^ 51] clock cycles of the last sync time: once the timer has
    been brought to a time, a second [update] to the same time returns the
    same state.  This is what [update_state (cmd_t)] relies on when the loop
    has already reached [cmd_t].  It does not hold beyond: the first timer
    after [set_note (69, 10)], updated to time 1e15, has its counter at
    291072, and at 160 after a second [update] to that time. *)
Theorem update_idempotent :
  (forall (self self' : ATS.t) (tt : R),
     (0 < ATS.prescale self <= 2 ^ 53)%Z -> (0 < ATS.top self)%Z ->
     (Z.abs (ATS.current self) < 2 ^ 52)%Z ->
     Rabs (tt - ATS.current_t self) * ARDUINO_FREQ <= IZR (2 ^ 51) ->
     ATS.update_binary64 self tt = Ok self' ->
     ATS.update_binary64 self' tt = Ok self')
  /\ exists s1 s2,
       ATS.update_binary64 Timer1_a4 1000000000000000 = Ok s1
       /\ ATS.update_binary64 s1 1000000000000000 = Ok s2
       /\ ATS.current s1 = 291072%Z /\ ATS.current s2 = 160%Z.
Proof.
  split.
  - intros self self' tt Hp Ht Hc Hd H.
    destruct (update_binary64_near self tt Hp Ht Hc Hd) as (k & Hk & Hb & Hu).
    rewrite Hu in H. injection H as <-.
    set (c := Z.rem _ _).
    set (s := ATS.mk _ _ _ _ _ _ c tt).
    assert (Z.abs c <= Z.abs (ATS.current self + k))%Z as Hle.
    { unfold c. destruct (Z.eq_dec (ATS.top self) 0); [lia |].
      pose proof (Z.rem_bound_abs (ATS.current self + k) (ATS.top self)).
      pose proof (Z.quot_rem' (ATS.current self + k) (ATS.top self)) as E.
      pose proof (Z.rem_sign_nz (ATS.current self + k) (ATS.top self)
                                ltac:(lia)) as Hs.
      destruct (Z.eq_dec (Z.rem (ATS.current self + k) (ATS.top self)) 0)
        as [-> | Hnz]; [lia |].
      specialize (Hs Hnz).
      pose proof (Z.quot_abs (ATS.current self + k) (ATS.top self) ltac:(lia)).
      pose proof (Z.rem_abs (ATS.current self + k) (ATS.top self) ltac:(lia))
        as Hra.
      pose proof (Z.rem_le (Z.abs (ATS.current self + k)) (Z.abs (ATS.top self))
                           ltac:(lia) ltac:(lia)).
      lia. }
    rewrite (update_binary64_reduce s tt 0).
    + unfold s. cbn [ATS.max ATS.prescale_values ATS.prescale ATS.top
                     ATS.min_freq ATS.duty ATS.current].
      rewrite Z.add_0_r. unfold c. now rewrite Z.rem_rem by lia.
    + apply (ticks_binary64_same_time s). exact Hp.
    + exact Ht.
    + cbn [ATS.current s]. lia.
  - eexists. eexists.
    split; [apply Timer1_a4_update_1e15 |].
    split; [apply Timer1_a4_update_1e15_again |]. split; reflexivity.
Qed.

Lemma update_idempotent_witness :
  ATS.update_binary64 Timer1_at_1 1 = Ok Timer1_at_1.
Proof.
  destruct update_idempotent as [A _].
  apply (A Timer1_0 Timer1_at_1 1).
  - cbn. lia.
  - cbn. lia.
  - cbn. lia.
  - cbn [ATS.current_t Timer1_0]. unfold ARDUINO_FREQ.
    rewrite Rabs_pos_eq by lra. cbn. lra.
  - apply Timer1_0_update_binary64_1.
Defined.

(** X5.  [next_change ()] of a timer that satisfies the invariants, with a
    positive prescaler, lies at least one tick and at most one full period
    after the last sync time. *)
Theorem next_change_within_period (self : ATS.t) :
  timer_inv self -> (0 < ATS.prescale self)%Z ->
  ATS.current_t self + IZR (ATS.prescale self) / ARDUINO_FREQ
  <= ATS.next_change self
  <= ATS.current_t self
     + IZR (ATS.top self) * IZR (ATS.prescale self) / ARDUINO_FREQ.
Proof.
  intros (Hc & Hd & _) Hp. unfold ATS.next_change, ATS.current_state.
  apply IZR_lt in Hp.
  assert (forall x y : Z, (x <= y)%Z ->
            IZR x * IZR (ATS.prescale self) / ARDUINO_FREQ
            <= IZR y * IZR (ATS.prescale self) / ARDUINO_FREQ) as Hmono.
  { intros x y Hxy. apply IZR_le in Hxy.
    unfold Rdiv. apply Rmult_le_compat_r.
    - left. apply Rinv_0_lt_compat. unfold ARDUINO_FREQ. lra.
    - nra. }
  assert (IZR (ATS.prescale self) / ARDUINO_FREQ
          = IZR 1 * IZR (ATS.prescale self) / ARDUINO_FREQ) as E1
    by (unfold Rdiv; ring).
  rewrite E1.
  destruct (Z.ltb_spec (ATS.current self) (ATS.duty self)).
  - pose proof (Hmono 1%Z (ATS.duty self - ATS.current self)%Z ltac:(lia)).
    pose proof (Hmono (ATS.duty self - ATS.current self)%Z (ATS.top self)
                      ltac:(lia)).
    lra.
  - pose proof (Hmono 1%Z (ATS.top self - ATS.current self)%Z ltac:(lia)).
    pose proof (Hmono (ATS.top self - ATS.current self)%Z (ATS.top self)
                      ltac:(lia)).
    lra.
Qed.

Lemma next_change_within_period_witness :
  ATS.current_t Timer1_0 + IZR (ATS.prescale Timer1_0) / ARDUINO_FREQ
  <= ATS.next_change Timer1_0
  <= ATS.current_t Timer1_0
     + IZR (ATS.top Timer1_0) * IZR (ATS.prescale Timer1_0) / ARDUINO_FREQ.
Proof.
  apply (next_change_within_period Timer1_0).
  - unfold timer_inv, Timer1_0. cbn. repeat split; lia.
  - cbn. lia.
Defined.

(** The first timer after [set_note (69, 10)] and [set_off], asked to go
    from time 0 to time 3 * 10^15: the quotient by the period is rounded up,
    and the counter is left negative. *)
Lemma Timer1_a4_off_ticks_3e15 :
  ATS.ticks_binary64 (ATS.set_off Timer1_a4) 3000000000000000
  = Ok 48000000000000000000000%Z.
Proof.
  apply (ticks_binary64_eval (ATS.set_off Timer1_a4) 3000000000000000
           3000000000000000 0 1430511474609375 25 1430511474609375 25);
    cbn [ATS.prescale ATS.current_t ATS.set_off Timer1_a4]; try lia;
    unfold ARDUINO_FREQ; pow2_num; simpl; lra.
Qed.

Lemma Timer1_a4_off_update_3e15 :
  ATS.update_binary64 (ATS.set_off Timer1_a4) 3000000000000000
  = Ok (ATS.mk 65536 [1; 8; 64; 256; 1024]%Z 1 36364
               (ARDUINO_FREQ / IZR (1024 * 65536)) 0 (-1454080)
               3000000000000000).
Proof.
  rewrite (update_binary64_eval _ _ _ 1319986800131998720
             Timer1_a4_off_ticks_3e15).
  - reflexivity.
  - cbn. lia.
  - cbn [ATS.current ATS.top ATS.set_off Timer1_a4 Z.add].
    rewrite (b64_eval _ 5156198438015620 8); try lia.
    + f_equal. pow2_num. rewrite <- mult_IZR. reflexivity.
    + replace (powerRZ 2 (- (8))) with (/ 256) by (simpl; lra).
      apply Rabs_def1; lra.
Qed.

(** X6.  [set_off] keeps period, prescaler, counter and time and sets the duty
    to 0.  The output is then low whenever the counter is not negative, and
    stays low under every later [update] to a time not before the last sync
    time and at most [2 ^ 51] clock cycles after it, for a period of at most
    [2 ^ 52].  With a negative counter the output is high although the duty
    is 0; an [update] to an earlier time leaves such a counter, and so does
    an [update] far ahead, where the float quotient is no longer exact: the
    first timer after [set_note (69, 10)] and [set_off], updated from time 0
    to time 3e15, has its counter at -1454080 and reads high. *)
Theorem set_off_silences :
  (forall self : ATS.t,
     ((0 <= ATS.current self)%Z ->
      ATS.current_state (ATS.set_off self) = false)
     /\ ((ATS.current self < 0)%Z ->
         ATS.current_state (ATS.set_off self) = true)
     /\ (forall tt self',
           (0 <= ATS.current self < ATS.top self)%Z ->
           (ATS.top self <= 2 ^ 52)%Z ->
           (0 < ATS.prescale self <= 2 ^ 53)%Z ->
           ATS.current_t self <= tt ->
           (tt - ATS.current_t self) * ARDUINO_FREQ <= IZR (2 ^ 51) ->
           ATS.update_binary64 (ATS.set_off self) tt = Ok self' ->
           ATS.current_state self' = false /\ ATS.duty self' = 0%Z)
     /\ ATS.set_off (ATS.set_off self) = ATS.set_off self)
  /\ (exists self',
        ATS.update_binary64 (ATS.set_off Timer1_a4) 3000000000000000
        = Ok self'
        /\ ATS.current self' = (-1454080)%Z /\ ATS.duty self' = 0%Z
        /\ ATS.current_state self' = true).
Proof.
  split.
  - intros self. split; [| split; [| split; [| reflexivity]]].
    + intros H. unfold ATS.current_state. cbn. apply Z.ltb_ge. exact H.
    + intros H. unfold ATS.current_state. cbn. apply Z.ltb_lt. exact H.
    + intros tt self' Hc Htop Hp Ht Hnear H.
      destruct (update_binary64_forward (ATS.set_off self) tt Hp Hc Htop Ht
                                        Hnear)
        as (s & Hs & Hcs & _ & Ed & _).
      rewrite Hs in H. injection H as <-.
      cbn [ATS.set_off ATS.duty] in Ed.
      split; [| exact Ed]. unfold ATS.current_state. rewrite Ed.
      apply Z.ltb_ge. lia.
  - eexists. split; [apply Timer1_a4_off_update_3e15 |].
    repeat split.
Qed.

Lemma set_off_silences_witness :
  ATS.current_state (ATS.set_off Timer1_a4) = false
  /\ ATS.current_state (ATS.set_off Timer1_back) = true
  /\ (ATS.current_state (ATS.set_off Timer1_a4) = false
      /\ ATS.duty (ATS.set_off Timer1_a4) = 0%Z).
Proof.
  destruct set_off_silences as [S _].
  destruct (S Timer1_a4) as (A & _ & C & _).
  destruct (S Timer1_back) as (_ & B & _).
  split; [apply A; cbn; lia |]. split; [apply B; cbn; lia |].
  apply (C 0 (ATS.set_off Timer1_a4)); try (cbn; lia); try (cbn; lra).
  rewrite (update_binary64_reduce (ATS.set_off Timer1_a4) 0 0).
  - reflexivity.
  - apply (ticks_binary64_same_time (ATS.set_off Timer1_a4)). cbn. lia.
  - cbn. lia.
  - cbn. lia.
Defined.


(** ** Range and shape of the envelope *)

Lemma py_int_bounds (x : R) :
  0 <= x -> (0 <= py_int x)%Z /\ IZR (py_int x) <= x < IZR (py_int x) + 1.
Proof.
  intros Hx. unfold py_int. destruct (Rle_dec 0 x); [| contradiction].
  pose proof (Int_part_bounds x) as [B1 B2]. split; [| lra].
  destruct (Z_lt_le_dec (Int_part x) 0) as [C | C]; [| assumption].
  assert (Int_part x + 1 <= 0)%Z as C' by lia. apply IZR_le in C'.
  rewrite plus_IZR in C'. lra.
Qed.

Lemma py_int_mono (x y : R) : 0 <= x -> x <= y -> (py_int x <= py_int y)%Z.
Proof.
  intros Hx Hxy.
  destruct (py_int_bounds x Hx) as (_ & X1 & X2).
  destruct (py_int_bounds y ltac:(lra)) as (_ & Y1 & Y2).
  destruct (Z_lt_le_dec (py_int y) (py_int x)) as [C | C]; [| assumption].
  assert (py_int y + 1 <= py_int x)%Z as C' by lia. apply IZR_le in C'.
  rewrite plus_IZR in C'. lra.
Qed.

Lemma py_int_le_IZR (x : R) (z : Z) : 0 <= x -> x <= IZR z -> (py_int x <= z)%Z.
Proof.
  intros Hx Hz. rewrite <- (py_int_IZR z). now apply py_int_mono.
Qed.

Lemma half_power_bounds (x : R) :
  0 <= x -> 0 < Rpower ENERGY_TRANSFER_SPARK_DECAY x <= 1.
Proof.
  intros Hx. unfold Rpower, ENERGY_TRANSFER_SPARK_DECAY.
  split; [apply exp_pos |].
  assert (ln (1 / 2) < 0) as Hl.
  { rewrite <- ln_1. apply ln_increasing; lra. }
  assert (exp (x * ln (1 / 2)) <= exp 0) as He.
  { destruct (Rle_lt_or_eq_dec _ _ Hx) as [L | <-].
    - left. apply exp_increasing. nra.
    - right. f_equal. ring. }
  now rewrite exp_0 in He.
Qed.

Lemma half_power_decreasing (x y : R) :
  x <= y ->
  Rpower ENERGY_TRANSFER_SPARK_DECAY y <= Rpower ENERGY_TRANSFER_SPARK_DECAY x.
Proof.
  intros Hxy. unfold Rpower, ENERGY_TRANSFER_SPARK_DECAY.
  assert (ln (1 / 2) < 0) as Hl.
  { rewrite <- ln_1. apply ln_increasing; lra. }
  destruct (Rle_lt_or_eq_dec _ _ Hxy) as [L | <-].
  - left. apply exp_increasing. nra.
  - right. reflexivity.
Qed.

Lemma PULSE_SLOPE_pos : 0 < PULSE_SLOPE.
Proof.
  unfold PULSE_SLOPE, PULSE_STEP, PULSE_MAX, MAX_HALF_CYCLES,
    HALF_CYCLE_LENGTH, COIL_FREQ.
  apply Rdiv_lt_0_compat; lra.
Qed.

Lemma ramp_value_range (current_t pulse_start : R) :
  pulse_start <= current_t ->
  (0 <= ramp_value current_t pulse_start <= 32767)%Z.
Proof.
  intros H. unfold ramp_value, PULSE_INIT, PULSE_MAX.
  pose proof PULSE_SLOPE_pos.
  assert (0 <= Rmin (0 + PULSE_SLOPE * (current_t - pulse_start)) 32767) as Hm.
  { apply Rmin_glb; nra. }
  split; [apply py_int_bounds; exact Hm |].
  apply py_int_le_IZR; [exact Hm | apply Rmin_r].
Qed.

Lemma ramp_value_mono (t1 t2 pulse_start : R) :
  pulse_start <= t1 -> t1 <= t2 ->
  (ramp_value t1 pulse_start <= ramp_value t2 pulse_start)%Z.
Proof.
  intros H1 H2. unfold ramp_value, PULSE_INIT, PULSE_MAX.
  pose proof PULSE_SLOPE_pos.
  apply py_int_mono.
  - apply Rmin_glb; nra.
  - apply Rle_min_compat_r. nra.
Qed.

(** The branches of [envelope], one lemma each. *)
Lemma envelope_attack (current_t pulse_start pulse_end : R) :
  pulse_start < current_t -> current_t <= pulse_end ->
  envelope current_t pulse_start pulse_end
  = Ok (PyInt (ramp_value current_t pulse_start)).
Proof.
  intros H1 H2. unfold envelope. rewrite envelope_rec_not_after by lra.
  destruct (Rlt_dec pulse_start current_t); [reflexivity | contradiction].
Qed.

Lemma envelope_after (current_t pulse_start pulse_end : R) :
  pulse_start < pulse_end -> pulse_end < current_t ->
  envelope current_t pulse_start pulse_end
  = Ok (PyInt (py_int (IZR (ramp_value pulse_end pulse_start)
                       * decay_product current_t pulse_end))).
Proof.
  intros H1 H2. unfold envelope, decay_product. cbn [envelope_rec].
  destruct (Rlt_dec pulse_end current_t); [| contradiction].
  destruct (Rlt_dec pulse_end pulse_end); [lra |].
  destruct (Rlt_dec pulse_start pulse_end); [| contradiction].
  cbn [bind]. fold (ramp_value pulse_end pulse_start).
  do 3 f_equal. ring.
Qed.

Lemma decay_product_range (current_t pulse_end : R) :
  pulse_end <= current_t -> 0 <= decay_product current_t pulse_end <= 1.
Proof.
  intros H. unfold decay_product.
  assert (0 <= (current_t - pulse_end) / ENERGY_TRANSFER_TIME) as Hc.
  { apply Rmult_le_pos; [lra |]. left. apply Rinv_0_lt_compat.
    unfold ENERGY_TRANSFER_TIME, ENERGY_TRANSFER_HALF_CYCLES,
      HALF_CYCLE_LENGTH, COIL_FREQ. lra. }
  pose proof (half_power_bounds _ Hc) as [D1 D2].
  destruct (Rlt_dec _ _).
  - pose proof (Rabs_pos (cos (PI * ((current_t - pulse_end)
                                     / ENERGY_TRANSFER_TIME) / 2))) as A1.
    assert (Rabs (cos (PI * ((current_t - pulse_end)
                             / ENERGY_TRANSFER_TIME) / 2)) <= 1) as A2.
    { apply Rabs_le. apply COS_bound. }
    nra.
  - nra.
Qed.

(** X7.  Whenever [envelope] returns an integer, it lies in [0 .. 32767], so
    [struct.pack ('<h', ...)] accepts it: the code needs no clamp. *)
Theorem envelope_fits_16_bits (current_t pulse_start pulse_end : R) (v : Z) :
  envelope current_t pulse_start pulse_end = Ok (PyInt v) ->
  (0 <= v <= 32767)%Z /\ pack_h (PyInt v) = Ok v.
Proof.
  intros H.
  assert (0 <= v <= 32767)%Z as Hv.
  { destruct (Rlt_dec pulse_end current_t) as [L | L].
    - destruct (Rlt_dec pulse_start pulse_end) as [S | S].
      + rewrite envelope_after in H by assumption. injection H as <-.
        pose proof (ramp_value_range pulse_end pulse_start ltac:(lra)) as [P1 P2].
        pose proof (decay_product_range current_t pulse_end ltac:(lra)) as [D1 D2].
        apply IZR_le in P1, P2.
        assert (0 <= IZR (ramp_value pulse_end pulse_start)
                     * decay_product current_t pulse_end) as Hp by nra.
        split; [apply py_int_bounds; exact Hp |].
        apply py_int_le_IZR; [exact Hp | nra].
      + exfalso. revert H. unfold envelope. cbn [envelope_rec].
        destruct (Rlt_dec pulse_end current_t); [| contradiction].
        destruct (Rlt_dec pulse_end pulse_end); [lra |].
        destruct (Rlt_dec pulse_start pulse_end); [contradiction |].
        discriminate.
    - destruct (Rlt_dec pulse_start current_t) as [S | S].
      + rewrite envelope_attack in H by lra. injection H as <-.
        apply ramp_value_range. lra.
      + exfalso. revert H. unfold envelope.
        rewrite envelope_rec_not_after by assumption.
        destruct (Rlt_dec pulse_start current_t); [contradiction | discriminate]. }
  split; [exact Hv |]. unfold pack_h.
  destruct (Z.leb_spec (-32768) v), (Z.leb_spec v 32767); try lia. reflexivity.
Qed.

Lemma envelope_fits_16_bits_witness :
  (0 <= ramp_value 1 0 <= 32767)%Z
  /\ pack_h (PyInt (ramp_value 1 0)) = Ok (ramp_value 1 0).
Proof.
  apply (envelope_fits_16_bits 1 0 1). apply envelope_attack; lra.
Defined.

(** X8.  The shape of the envelope for a pulse with [start < end]: the attack
    does not decrease with time; from [MAX_PULSE_LENGTH] after the start on
    it stands at 32766 or 32767, and from twice that length on at 32767.
    (In exact arithmetic the ramp reaches 32767 at [MAX_PULSE_LENGTH]; in
    binary64 the constant [MAX_PULSE_LENGTH] is the double just below
    1/50000, where the ramp is just below 32767 and [int] gives 32766.)
    After the end the amplitude never exceeds the value at the end, and it
    does not increase with time during the first three energy-transfer
    periods, where the cosine factor is not applied. *)
Theorem envelope_shape (pulse_start pulse_end : R) :
  pulse_start < pulse_end ->
  (forall t1 t2,
     pulse_start < t1 -> t1 <= t2 -> t2 <= pulse_end ->
     exists v1 v2,
       envelope t1 pulse_start pulse_end = Ok (PyInt v1)
       /\ envelope t2 pulse_start pulse_end = Ok (PyInt v2) /\ (v1 <= v2)%Z)
  /\ (forall t,
        MAX_PULSE_LENGTH <= t - pulse_start -> t <= pulse_end ->
        exists v,
          envelope t pulse_start pulse_end = Ok (PyInt v)
          /\ (32766 <= v <= 32767)%Z
          /\ (2 * MAX_PULSE_LENGTH <= t - pulse_start -> v = 32767%Z))
  /\ (forall t,
        pulse_end < t ->
        exists v peak,
          envelope t pulse_start pulse_end = Ok (PyInt v)
          /\ envelope pulse_end pulse_start pulse_end = Ok (PyInt peak)
          /\ (0 <= v <= peak)%Z)
  /\ (forall t1 t2,
        pulse_end < t1 -> t1 <= t2 ->
        t2 <= pulse_end + 3 * ENERGY_TRANSFER_TIME ->
        exists v1 v2,
          envelope t1 pulse_start pulse_end = Ok (PyInt v1)
          /\ envelope t2 pulse_start pulse_end = Ok (PyInt v2)
          /\ (v2 <= v1)%Z).
Proof.
  intros Hse.
  pose proof (ramp_value_range pulse_end pulse_start ltac:(lra)) as [P1 P2].
  apply IZR_le in P1.
  split; [| split; [| split]].
  - intros t1 t2 H1 H12 H2. eexists. eexists.
    split; [apply envelope_attack; lra |].
    split; [apply envelope_attack; lra |].
    apply ramp_value_mono; lra.
  - intros t H1 H2. pose proof MAX_PULSE_LENGTH_pos.
    exists 32767%Z. split; [| split; [lia | reflexivity]].
    rewrite envelope_attack by lra. do 2 f_equal.
    unfold ramp_value, PULSE_INIT, PULSE_MAX.
    rewrite Rmin_right; [apply py_int_IZR |].
    assert (PULSE_SLOPE * MAX_PULSE_LENGTH = 32767) as E.
    { unfold PULSE_SLOPE, PULSE_STEP, PULSE_MAX, MAX_PULSE_LENGTH,
        MAX_HALF_CYCLES, HALF_CYCLE_LENGTH, COIL_FREQ. field. }
    pose proof PULSE_SLOPE_pos. nra.
  - intros t Ht. eexists. eexists.
    split; [apply envelope_after; lra |].
    split; [apply envelope_attack; lra |].
    pose proof (decay_product_range t pulse_end ltac:(lra)) as [D1 D2].
    assert (0 <= IZR (ramp_value pulse_end pulse_start)
                 * decay_product t pulse_end) as Hp by nra.
    split; [apply py_int_bounds; exact Hp |].
    apply py_int_le_IZR; [exact Hp | nra].
  - intros t1 t2 H1 H12 H2. eexists. eexists.
    split; [apply envelope_after; lra |].
    split; [apply envelope_after; lra |].
    assert (0 < ENERGY_TRANSFER_TIME) as Hett.
    { unfold ENERGY_TRANSFER_TIME, ENERGY_TRANSFER_HALF_CYCLES,
        HALF_CYCLE_LENGTH, COIL_FREQ. lra. }
    assert (forall t, pulse_end < t -> t <= pulse_end + 3 * ENERGY_TRANSFER_TIME ->
              decay_product t pulse_end
              = Rpower ENERGY_TRANSFER_SPARK_DECAY
                       ((t - pulse_end) / ENERGY_TRANSFER_TIME)) as Hsmooth.
    { intros t Ht1 Ht2. unfold decay_product.
      assert ((t - pulse_end) / ENERGY_TRANSFER_TIME <= 3) as Hc.
      { apply Rmult_le_reg_r with ENERGY_TRANSFER_TIME; [assumption |].
        unfold Rdiv. rewrite Rmult_assoc, Rinv_l by lra. lra. }
      pose proof (half_power_decreasing _ _ Hc) as Hd.
      assert (Rpower ENERGY_TRANSFER_SPARK_DECAY 3 = 1 / 8) as E3.
      { replace 3 with (INR 3) by (simpl; lra).
        unfold ENERGY_TRANSFER_SPARK_DECAY. rewrite Rpower_pow by lra.
        simpl. lra. }
      destruct (Rlt_dec _ _) as [L | L]; [| ring].
      unfold ENERGY_TRANSFER_EXPONENTIAL_DECAY_START in L. lra. }
    rewrite (Hsmooth t1) by lra. rewrite (Hsmooth t2) by lra.
    assert ((t1 - pulse_end) / ENERGY_TRANSFER_TIME
            <= (t2 - pulse_end) / ENERGY_TRANSFER_TIME) as Hc.
    { unfold Rdiv. apply Rmult_le_compat_r; [| lra].
      left. now apply Rinv_0_lt_compat. }
    pose proof (half_power_decreasing _ _ Hc) as Hd.
    assert (0 <= (t2 - pulse_end) / ENERGY_TRANSFER_TIME) as Hc2.
    { apply Rmult_le_pos; [lra |]. left. now apply Rinv_0_lt_compat. }
    pose proof (half_power_bounds _ Hc2) as [B1 B2].
    apply py_int_mono; nra.
Qed.

Lemma envelope_shape_witness :
  (exists v1 v2,
     envelope (1 / 4) 0 1 = Ok (PyInt v1)
     /\ envelope (1 / 2) 0 1 = Ok (PyInt v2) /\ (v1 <= v2)%Z)
  /\ (exists v,
        envelope 1 0 1 = Ok (PyInt v)
        /\ (32766 <= v <= 32767)%Z
        /\ (2 * MAX_PULSE_LENGTH <= 1 - 0 -> v = 32767%Z))
  /\ (exists v peak,
        envelope 2 0 1 = Ok (PyInt v)
        /\ envelope 1 0 1 = Ok (PyInt peak) /\ (0 <= v <= peak)%Z).
Proof.
  destruct (envelope_shape 0 1 ltac:(lra)) as (A & B & C & _).
  pose proof MAX_PULSE_LENGTH_pos.
  split; [apply (A (1 / 4) (1 / 2)); lra |].
  split; [apply (B 1); [| lra] | apply (C 2); lra].
  unfold MAX_PULSE_LENGTH, MAX_HALF_CYCLES, HALF_CYCLE_LENGTH, COIL_FREQ. lra.
Defined.


(** ** Delta times before the first tempo command *)

Lemma apply_cmd_at_delta (d : Z) (cmd : command) (current_tempo : Z)
    (st : logic_state) :
  apply_cmd (at_delta d cmd) current_tempo st = apply_cmd cmd current_tempo st.
Proof. reflexivity. Qed.

Lemma apply_cmd_keeps_tempo (cmd : command) (current_tempo : Z)
    (st : logic_state) (r : Z * logic_state) :
  ~ sets_tempo cmd -> apply_cmd cmd current_tempo st = Ok r ->
  fst r = current_tempo.
Proof.
  unfold sets_tempo, apply_cmd. intros Hn H.
  destruct (type cmd); try tauto;
    repeat match type of H with
           | context [ArduinoTimers_index ?i] =>
               destruct (ArduinoTimers_index i) as [[|] | |];
               cbn [bind] in H; try discriminate
           | context [ATS.set_note ?a ?b ?c] =>
               destruct (ATS.set_note a b c); cbn [bind] in H; try discriminate
           end;
    now injection H as <-.
Qed.

(** One command handled while the tempo is 0: its delta time plays no
    part. *)
Lemma run_cmds_tempo_0_head (fuel : nat) (ticks_per_beat : Z) (cmd : command)
    (cmds : list command) (last_cmd_t : R) (st : logic_state) :
  run_cmds fuel ticks_per_beat (cmd :: cmds) last_cmd_t 0 st
  = (d <- py_truediv 0 (1000000 * IZR ticks_per_beat) ;;
     st1 <- advance_to fuel (last_cmd_t + d) st ;;
     r <- apply_cmd cmd 0 st1 ;;
     st3 <- update_state (last_cmd_t + d) (snd r) ;;
     run_cmds fuel ticks_per_beat cmds (last_cmd_t + d) (fst r) st3).
Proof. cbn [run_cmds]. now rewrite Z.mul_0_r. Qed.

Lemma run_cmds_tempo_0 (fuel : nat) (ticks_per_beat : Z)
    (pre rest : list command) :
  Forall (fun c => ~ sets_tempo c) pre ->
  forall (c : command) (last_cmd_t : R) (st : logic_state),
    run_cmds fuel ticks_per_beat (pre ++ c :: rest) last_cmd_t 0 st
    = run_cmds fuel ticks_per_beat
               (map (at_delta 0) pre ++ at_delta 0 c :: rest) last_cmd_t 0 st.
Proof.
  induction 1 as [| cmd pre Hcmd Hpre IH]; intros c last st;
    cbn [map app]; rewrite !run_cmds_tempo_0_head.
  - reflexivity.
  - destruct (py_truediv 0 _) as [d | |]; cbn [bind]; try reflexivity.
    destruct (advance_to fuel (last + d) st) as [st1 | |]; cbn [bind];
      try reflexivity.
    rewrite apply_cmd_at_delta.
    destruct (apply_cmd cmd 0 st1) as [r | |] eqn:Ha; cbn [bind];
      try reflexivity.
    destruct (update_state (last + d) (snd r)) as [st3 | |]; cbn [bind];
      try reflexivity.
    rewrite (apply_cmd_keeps_tempo _ _ _ _ Hcmd Ha). apply IH.
Qed.

(** X9.  [generate_logic_signal] starts with [current_tempo = 0], so the delta
    times of all commands up to and including the first command that sets the
    tempo do not enter the result: the stream with those delta times replaced
    by 0 gives the same pulses and leaves the same timers. *)
Theorem delta_times_before_first_tempo (fuel : nat) (ticks_per_beat : Z)
    (pre rest : list command) (c : command) (ts : timers) :
  Forall (fun cmd => ~ sets_tempo cmd) pre ->
  generate_logic_signal fuel ticks_per_beat (pre ++ c :: rest) ts
  = generate_logic_signal fuel ticks_per_beat
      (map (at_delta 0) pre ++ at_delta 0 c :: rest) ts.
Proof.
  intros H. unfold generate_logic_signal.
  now rewrite (run_cmds_tempo_0 fuel ticks_per_beat pre rest H).
Qed.

Lemma delta_times_before_first_tempo_witness :
  generate_logic_signal 100 480
    ([mk_cmd 960 note_on 0 1 69 10] ++ mk_cmd 480 set_tempo 500000 0 0 0 :: [])
    fresh_timers
  = generate_logic_signal 100 480
      (map (at_delta 0) [mk_cmd 960 note_on 0 1 69 10]
       ++ at_delta 0 (mk_cmd 480 set_tempo 500000 0 0 0) :: [])
      fresh_timers.
Proof.
  apply (delta_times_before_first_tempo 100 480
           [mk_cmd 960 note_on 0 1 69 10] []
           (mk_cmd 480 set_tempo 500000 0 0 0) fresh_timers).
  constructor; [| constructor].
  unfold sets_tempo. cbn. intros [H | H]; discriminate.
Defined.

(** ** The sampling loop stays inside the pulse list *)

Lemma skip_ended_bounds (n : nat) (logic_pulses : list pulse) (sample_t : R)
    (pulse_idx : nat) :
  (pulse_idx < length logic_pulses)%nat ->
  (pulse_idx <= skip_ended n logic_pulses sample_t pulse_idx
   < length logic_pulses)%nat.
Proof.
  revert pulse_idx. induction n as [| n IH]; intros idx Hidx; cbn [skip_ended].
  - lia.
  - destruct (Nat.ltb_spec (idx + 1) (length logic_pulses)) as [L | L]; [| lia].
    destruct (nth_error logic_pulses idx); [| lia].
    destruct (Rlt_dec _ _); [| lia].
    specialize (IH (idx + 1)%nat L). lia.
Qed.

(** Every pulse that the inner loop steps over has ended before the sample
    time. *)
Lemma skip_ended_skipped (n : nat) (logic_pulses : list pulse) (sample_t : R)
    (pulse_idx j : nat) (p : pulse) :
  (pulse_idx <= j < skip_ended n logic_pulses sample_t pulse_idx)%nat ->
  nth_error logic_pulses j = Some p -> snd p < sample_t.
Proof.
  revert pulse_idx. induction n as [| n IH]; intros idx Hj Hp;
    cbn [skip_ended] in Hj.
  - lia.
  - destruct (Nat.ltb_spec (idx + 1) (length logic_pulses)) as [L | L]; [| lia].
    destruct (nth_error logic_pulses idx) as [q |] eqn:Hq; [| lia].
    destruct (Rlt_dec (snd q) sample_t) as [E | E]; [| lia].
    destruct (Nat.eq_dec j idx) as [-> | Hne].
    + unfold pulse in *. rewrite Hq in Hp. now injection Hp as <-.
    + apply (IH (idx + 1)%nat); [lia | assumption].
Qed.

Lemma envelope_no_IndexError (current_t pulse_start pulse_end : R) :
  envelope current_t pulse_start pulse_end <> Raise IndexError.
Proof.
  unfold envelope. cbn [envelope_rec].
  destruct (Rlt_dec pulse_end current_t).
  - destruct (Rlt_dec pulse_end pulse_end); [cbn; discriminate |].
    destruct (Rlt_dec pulse_start pulse_end); cbn; discriminate.
  - destruct (Rlt_dec pulse_start current_t); discriminate.
Qed.

Lemma sample_volume_no_IndexError (logic_pulses : list pulse) (sample_t : R)
    (pulse_idx : nat) :
  (pulse_idx < length logic_pulses)%nat ->
  sample_volume logic_pulses sample_t pulse_idx <> Raise IndexError.
Proof.
  intros Hidx. unfold sample_volume, pulse_at.
  destruct (nth_error logic_pulses pulse_idx) as [p |] eqn:Hp.
  - cbn [bind]. destruct (Rlt_dec _ _); [| apply envelope_no_IndexError].
    destruct (Nat.ltb_spec 0 pulse_idx); [| discriminate].
    destruct (nth_error logic_pulses (pulse_idx - 1)) as [q |] eqn:Hq.
    + cbn [bind]. apply envelope_no_IndexError.
    + apply nth_error_None in Hq. lia.
  - apply nth_error_None in Hp. lia.
Qed.

Lemma sample_loop_no_IndexError (fuel : nat) (logic_pulses : list pulse)
    (last_t sample_t : R) (pulse_idx : nat) :
  (pulse_idx < length logic_pulses)%nat ->
  snd (sample_loop fuel logic_pulses last_t sample_t pulse_idx)
  <> Raise IndexError.
Proof.
  revert sample_t pulse_idx.
  induction fuel as [| fuel IH]; intros sample_t idx Hidx; cbn [sample_loop];
    destruct (Rle_dec sample_t last_t); cbn [snd]; try discriminate.
  pose proof (skip_ended_bounds (length logic_pulses) logic_pulses sample_t
                                idx Hidx) as Hb.
  pose proof (sample_volume_no_IndexError logic_pulses sample_t _ (proj2 Hb))
    as Hv.
  destruct (sample_volume logic_pulses sample_t _) as [v | e |];
    cbn [bind snd].
  - destruct (pack_h v) as [frame | e |] eqn:Hpk; cbn [snd].
    + apply IH. lia.
    + destruct v; cbn in Hpk; [destruct (_ && _) in Hpk |];
        try discriminate Hpk; injection Hpk as <-; discriminate.
    + discriminate.
  - intros E. apply Hv. now injection E as ->.
  - discriminate.
Qed.

(** X10.  Once the pulse list is not empty, the sampling loop of [generate_wav]
    never indexes outside it: the index stays below the length, the pulses
    it steps over have all ended before the sample time, and neither the
    body nor the whole loop ends in [IndexError]. *)
Theorem sampling_stays_in_bounds (logic_pulses : list pulse) (sample_t : R)
    (pulse_idx : nat) :
  (pulse_idx < length logic_pulses)%nat ->
  let idx := skip_ended (length logic_pulses) logic_pulses sample_t pulse_idx in
  (pulse_idx <= idx < length logic_pulses)%nat
  /\ (forall j p, (pulse_idx <= j < idx)%nat ->
                  nth_error logic_pulses j = Some p -> snd p < sample_t)
  /\ sample_volume logic_pulses sample_t idx <> Raise IndexError
  /\ (forall fuel last_t,
        snd (sample_loop fuel logic_pulses last_t sample_t pulse_idx)
        <> Raise IndexError).
Proof.
  intros Hidx idx.
  pose proof (skip_ended_bounds (length logic_pulses) logic_pulses sample_t
                                pulse_idx Hidx) as Hb.
  split; [exact Hb |]. split; [| split].
  - intros j p Hj Hp. eapply skip_ended_skipped; eassumption.
  - apply sample_volume_no_IndexError. apply Hb.
  - intros fuel last_t. now apply sample_loop_no_IndexError.
Qed.

Lemma sampling_stays_in_bounds_witness :
  let idx := skip_ended (length two_pulses) two_pulses 5 0 in
  (0 <= idx < length two_pulses)%nat
  /\ (forall j p, (0 <= j < idx)%nat ->
                  nth_error two_pulses j = Some p -> snd p < 5)
  /\ sample_volume two_pulses 5 idx <> Raise IndexError
  /\ (forall fuel last_t,
        snd (sample_loop fuel two_pulses last_t 5 0) <> Raise IndexError).
Proof.
  apply (sampling_stays_in_bounds two_pulses 5 0). cbn. lia.
Defined.


(** ** The generator returns *)

Lemma timer_live_running (self : ATS.t) : timer_live self -> timer_running self.
Proof.
  intros (Hcfg & Hc & Hp). split; [now apply module_timer_wf | tauto].
Qed.

Lemma logic_live_inv (st : logic_state) : logic_live st -> logic_inv st.
Proof.
  intros [(H1 & H2 & E1 & E2) Hp]. split; [| exact Hp].
  repeat split; try assumption; now apply timer_live_running.
Qed.

Lemma update_live (self : ATS.t) (tt : R) :
  timer_live self -> ATS.current_t self <= tt ->
  exists self',
    ATS.update self tt = Ok self' /\ timer_live self'
    /\ ATS.current_t self' = tt.
Proof.
  intros (Hcfg & Hc & Hp) Ht.
  destruct (update_forward self tt Hp Hc Ht)
    as (s & Hs & Hcs & E1 & _ & E3 & _ & E5).
  exists s. split; [exact Hs |]. split; [| exact E5].
  split; [eauto using module_timer_config, update_config |].
  rewrite E3. tauto.
Qed.

Lemma set_note_live (self : ATS.t) (note volume : Z) :
  timer_live self -> (0 <= note <= 127)%Z ->
  exists self',
    ATS.set_note self note volume = Ok self' /\ timer_live self'
    /\ ATS.current_t self' = ATS.current_t self.
Proof.
  intros (Hcfg & Hc & Hp) Hnote.
  destruct (set_note_returns self note volume (module_timer_wf _ Hcfg))
    as [self' H].
  exists self'. split; [exact H |].
  destruct (set_note_module_timer self self' note volume Hcfg Hnote H)
    as [-> | (p & -> & Hin & Hpos & Htop & _)].
  - split; [repeat split; tauto | reflexivity].
  - split; [| reflexivity].
    split; [eauto using module_timer_config, note_state_config |].
    cbn [note_state ATS.top ATS.current ATS.prescale] in *.
    split; [| assumption].
    destruct (Z.leb_spec (py_round (ARDUINO_FREQ / (IZR p * get_midi_freq note)))
                         (ATS.current self)); lia.
Qed.

Lemma set_off_live (self : ATS.t) : timer_live self -> timer_live (ATS.set_off self).
Proof.
  intros (Hcfg & Hc & Hp).
  split; [eauto using module_timer_config, set_off_config | tauto].
Qed.

(** With the timers in order, [update_state] at a time not before the cursor
    returns. *)
Lemma update_state_live (tt : R) (st : logic_state) :
  logic_live st -> current_t st <= tt ->
  exists st', update_state tt st = Ok st' /\ logic_live st'
              /\ current_t st' = tt.
Proof.
  intros Hl Ht. pose proof (logic_live_inv st Hl) as Hinv.
  destruct Hl as [(H1 & H2 & E1 & E2) Hp].
  destruct (update_live _ tt H1 ltac:(lra)) as (t1 & U1 & L1 & T1).
  destruct (update_live _ tt H2 ltac:(lra)) as (t2 & U2 & L2 & T2).
  assert (exists st', update_state tt st = Ok st'
                      /\ tms st' = mk_timers t1 t2) as (st' & U & Etms).
  { unfold update_state. rewrite U1, U2. cbn [bind].
    destruct (Bool.eqb _ _); [eexists; split; reflexivity |].
    destruct (_ || _); eexists; split; reflexivity. }
  exists st'. split; [exact U |].
  destruct (update_state_pulses _ _ _ U) as [Et _].
  pose proof (update_state_inv tt st st' (logic_inv_set st Hinv) Hp Ht U)
    as [_ Hp'].
  split; [| exact Et]. split; [| exact Hp'].
  unfold timers_synced. rewrite Etms, Et. cbn [Timer1 Timer2]. auto.
Qed.

Lemma ArduinoTimers_index_ok (i : Z) :
  (i = 1 \/ i = 2)%Z ->
  ArduinoTimers_index (i - 1) = Ok (if (i =? 1)%Z then false else true).
Proof. intros [-> | ->]; reflexivity. Qed.

Lemma apply_cmd_live (cmd : command) (current_tempo : Z) (st : logic_state) :
  logic_live st -> cmd_valid cmd ->
  exists st',
    apply_cmd cmd current_tempo st = Ok (tempo_after cmd current_tempo, st')
    /\ logic_live st' /\ current_t st' = current_t st.
Proof.
  intros Hl (_ & Hon & Hoff). pose proof Hl as [(H1 & H2 & E1 & E2) Hp].
  pose proof (set_off_live _ H1) as O1. pose proof (set_off_live _ H2) as O2.
  unfold apply_cmd, tempo_after.
  destruct (type cmd) eqn:Ety.
  - exists st. auto.
  - exists st. auto.
  - rewrite (ArduinoTimers_index_ok _ (Hoff eq_refl)). cbn [bind].
    destruct (timer cmd =? 1)%Z; eexists; (split; [reflexivity |]);
      (split; [| reflexivity]); (split; [| exact Hp]);
      unfold timers_synced; cbn; auto.
  - eexists. split; [reflexivity |]. split; [| reflexivity].
    split; [| exact Hp]. unfold timers_synced; cbn; auto.
  - destruct (Hon eq_refl) as [Htm Hnote].
    rewrite (ArduinoTimers_index_ok _ Htm). cbn [bind].
    destruct (timer cmd =? 1)%Z.
    + destruct (set_note_live _ (note cmd) (volume cmd) H1 Hnote)
        as (t1 & S1 & L1 & T1).
      rewrite S1. cbn [bind]. eexists. split; [reflexivity |].
      split; [| reflexivity]. split; [| exact Hp].
      unfold timers_synced; cbn. rewrite T1. auto.
    + destruct (set_note_live _ (note cmd) (volume cmd) H2 Hnote)
        as (t2 & S2 & L2 & T2).
      rewrite S2. cbn [bind]. eexists. split; [reflexivity |].
      split; [| reflexivity]. split; [| exact Hp].
      unfold timers_synced; cbn. rewrite T2. auto.
  - exists st. auto.
Qed.

(** The next change of a running timer is at least one clock tick ahead. *)
Lemma next_change_tick_ahead (self : ATS.t) :
  (0 <= ATS.current self < ATS.top self)%Z -> (0 < ATS.prescale self)%Z ->
  ATS.current_t self + 1 / ARDUINO_FREQ <= ATS.next_change self.
Proof.
  intros Hc Hp. unfold ATS.next_change, ATS.current_state.
  assert (1 <= ATS.prescale self)%Z as Hp1 by lia. apply IZR_le in Hp1.
  assert (forall x : Z, (1 <= x)%Z ->
            1 / ARDUINO_FREQ
            <= IZR x * IZR (ATS.prescale self) / ARDUINO_FREQ) as Hpos.
  { intros x Hx. apply IZR_le in Hx. unfold Rdiv.
    apply Rmult_le_compat_r; [| nra].
    left. apply Rinv_0_lt_compat. unfold ARDUINO_FREQ. lra. }
  destruct (Z.ltb_spec (ATS.current self) (ATS.duty self)).
  - specialize (Hpos (ATS.duty self - ATS.current self)%Z ltac:(lia)). lra.
  - specialize (Hpos (ATS.top self - ATS.current self)%Z ltac:(lia)). lra.
Qed.

(** The loop between two commands ends: every pass moves the cursor at
    least one clock tick, so a number of passes above the number of clock
    ticks between the cursor and the command is enough. *)
Lemma advance_to_returns (fuel : nat) (cmd_t : R) (st : logic_state) :
  logic_live st -> current_t st <= cmd_t ->
  (cmd_t - current_t st) * ARDUINO_FREQ < INR fuel ->
  exists st', advance_to fuel cmd_t st = Ok st' /\ logic_live st'
              /\ current_t st' = cmd_t.
Proof.
  revert st. induction fuel as [| fuel IH]; intros st Hl Hle Hf;
    cbn [advance_to]; destruct (Rlt_dec (current_t st) cmd_t) as [L | L].
  - exfalso. cbn in Hf. unfold ARDUINO_FREQ in Hf. nra.
  - exists st. split; [reflexivity | split; [assumption | lra]].
  - pose proof Hl as [(H1 & H2 & E1 & E2) _].
    destruct H1 as (_ & Hc1 & Hp1). destruct H2 as (_ & Hc2 & Hp2).
    pose proof (next_change_tick_ahead _ Hc1 Hp1) as N1.
    pose proof (next_change_tick_ahead _ Hc2 Hp2) as N2.
    set (ntc := Rmin (ATS.next_change (Timer1 (tms st)))
                     (ATS.next_change (Timer2 (tms st)))) in *.
    assert (current_t st + 1 / ARDUINO_FREQ <= ntc) as Hn.
    { unfold ntc. apply Rmin_case; lra. }
    assert (0 < 1 / ARDUINO_FREQ) as Htick by (unfold ARDUINO_FREQ; lra).
    rewrite S_INR in Hf.
    destruct (Rlt_dec ntc cmd_t) as [C | C].
    + destruct (update_state_live ntc st Hl ltac:(lra)) as (st1 & U & Hl1 & Et).
      rewrite U. cbn [bind]. apply IH; [assumption | lra |].
      rewrite Et. clearbody ntc.
      unfold ARDUINO_FREQ in Hn, Hf |- *. lra.
    + destruct (update_state_live cmd_t st Hl ltac:(lra)) as (st1 & U & Hl1 & Et).
      rewrite U. cbn [bind]. exists st1.
      split; [apply advance_to_done; lra | split; assumption].
  - exists st. split; [reflexivity | split; [assumption | lra]].
Qed.

Lemma advance_to_more_fuel (fuel fuel' : nat) (cmd_t : R) (st st' : logic_state) :
  advance_to fuel cmd_t st = Ok st' -> (fuel <= fuel')%nat ->
  advance_to fuel' cmd_t st = Ok st'.
Proof.
  revert fuel' st. induction fuel as [| fuel IH]; intros fuel' st H Hle;
    cbn [advance_to] in H;
    destruct (Rlt_dec (current_t st) cmd_t) as [L | L]; try discriminate.
  - injection H as <-. now apply advance_to_done.
  - destruct fuel' as [| fuel']; [lia |]. cbn [advance_to].
    destruct (Rlt_dec (current_t st) cmd_t); [| contradiction].
    destruct (if Rlt_dec _ cmd_t then _ else _) as [st1 | |];
      cbn [bind] in *; try discriminate.
    apply IH; [assumption | lia].
  - injection H as <-. now apply advance_to_done.
Qed.

Lemma nat_above (x : R) : exists n : nat, x < INR n.
Proof.
  destruct (Rle_dec 0 x) as [P | P].
  - destruct (archimed x) as [A _].
    exists (Z.to_nat (up x)). rewrite INR_IZR_INZ, Z2Nat.id; [lra |].
    apply le_IZR. lra.
  - exists 0%nat. cbn. lra.
Qed.

Lemma run_cmds_returns (ticks_per_beat : Z) (cmds : list command) :
  (0 < ticks_per_beat)%Z -> Forall cmd_valid cmds ->
  forall (last_cmd_t : R) (current_tempo : Z) (st : logic_state),
    logic_live st -> current_t st = last_cmd_t -> (0 <= current_tempo)%Z ->
    exists (N : nat) (st' : logic_state),
      logic_live st'
      /\ current_t st' = end_time ticks_per_beat cmds last_cmd_t current_tempo
      /\ forall fuel, (N <= fuel)%nat ->
           run_cmds fuel ticks_per_beat cmds last_cmd_t current_tempo st
           = Ok st'.
Proof.
  intros Htpb. induction 1 as [| cmd cmds Hcmd Hrest IH];
    intros last tempo0 st Hl Hlast Htempo.
  - exists 0%nat, st. cbn. auto.
  - pose proof Htpb as Htpb'. apply IZR_lt in Htpb'.
    set (cmd_t := last + IZR (time cmd * tempo0)
                         / (1000000 * IZR ticks_per_beat)).
    assert (current_t st <= cmd_t) as Hle.
    { assert (0 <= IZR (time cmd * tempo0) / (1000000 * IZR ticks_per_beat)).
      { apply Rmult_le_pos.
        - apply IZR_le. destruct Hcmd as [[? _] _]. nia.
        - left. apply Rinv_0_lt_compat. nra. }
      unfold cmd_t. lra. }
    destruct (nat_above ((cmd_t - current_t st) * ARDUINO_FREQ)) as [N1 HN1].
    destruct (advance_to_returns N1 cmd_t st Hl Hle HN1) as (st1 & A & Hl1 & Et1).
    destruct (apply_cmd_live cmd tempo0 st1 Hl1 Hcmd) as (st2 & C & Hl2 & Et2).
    destruct (update_state_live cmd_t st2 Hl2 ltac:(lra)) as (st3 & U & Hl3 & Et3).
    assert (0 <= tempo_after cmd tempo0)%Z as Htempo'.
    { unfold tempo_after. destruct Hcmd as [[_ Hok] _].
      destruct (type cmd); auto. }
    destruct (IH cmd_t (tempo_after cmd tempo0) st3 Hl3 Et3 Htempo')
      as (N2 & st' & Hl' & Et' & Hrun).
    exists (Nat.max N1 N2), st'. split; [exact Hl' |]. split; [exact Et' |].
    intros fuel Hfuel. cbn [run_cmds].
    rewrite py_truediv_ok by nra. cbn [bind]. fold cmd_t.
    rewrite (advance_to_more_fuel N1 fuel cmd_t st st1 A) by lia. cbn [bind].
    rewrite C. cbn [bind fst snd]. rewrite U. cbn [bind].
    apply Hrun. lia.
Qed.

(** X11.  Started on the module's timers standing at time 0 in order, for a
    positive [ticks_per_beat] and a stream of valid commands,
    [generate_logic_signal] returns: no exception is raised, and the loops
    end, so that every bound on their passes from some number on gives the
    same pulse list and the same timers.  The timers are left at the time of
    the last command. *)
Theorem generator_returns (ticks_per_beat : Z) (cmds : list command)
    (ts : timers) :
  timer_live (Timer1 ts) -> timer_live (Timer2 ts) ->
  ATS.current_t (Timer1 ts) = 0 -> ATS.current_t (Timer2 ts) = 0 ->
  (0 < ticks_per_beat)%Z -> Forall cmd_valid cmds ->
  exists (N : nat) (ps : list pulse) (ts' : timers),
    (forall fuel, (N <= fuel)%nat ->
       generate_logic_signal fuel ticks_per_beat cmds ts = Ok (ps, ts'))
    /\ timer_live (Timer1 ts') /\ timer_live (Timer2 ts')
    /\ ATS.current_t (Timer1 ts') = end_time ticks_per_beat cmds 0 0
    /\ ATS.current_t (Timer2 ts') = end_time ticks_per_beat cmds 0 0.
Proof.
  intros H1 H2 E1 E2 Htpb Hok.
  assert (logic_live (initial_logic_state ts)) as Hl.
  { split; [unfold timers_synced; cbn [tms Timer1 Timer2 current_t
                                          initial_logic_state]; auto |].
    unfold pulses_inv, initial_logic_state.
    cbn [pulses current_pulse_start current_t current_state].
    split; [split; constructor |]. split; [lra |]. split; intros; constructor. }
  destruct (run_cmds_returns ticks_per_beat cmds Htpb Hok 0 0%Z
              (initial_logic_state ts) Hl eq_refl (Z.le_refl 0))
    as (N & st' & [(L1 & L2 & T1 & T2) _] & Et & Hrun).
  exists N, (pulses st'), (tms st').
  split; [| rewrite T1, T2, Et; auto].
  intros fuel Hfuel. unfold generate_logic_signal.
  now rewrite (Hrun fuel Hfuel).
Qed.

Lemma Timer1_0_live : timer_live Timer1_0.
Proof. split; [left; repeat split | cbn; lia]. Qed.

Lemma Timer2_0_live : timer_live Timer2_0.
Proof. split; [right; repeat split | cbn; lia]. Qed.

Lemma generator_returns_witness :
  exists (N : nat) (ps : list pulse) (ts' : timers),
    (forall fuel, (N <= fuel)%nat ->
       generate_logic_signal fuel 480 [tempo_cmd; a4_on_cmd] fresh_timers
       = Ok (ps, ts'))
    /\ timer_live (Timer1 ts') /\ timer_live (Timer2 ts')
    /\ ATS.current_t (Timer1 ts') = end_time 480 [tempo_cmd; a4_on_cmd] 0 0
    /\ ATS.current_t (Timer2 ts') = end_time 480 [tempo_cmd; a4_on_cmd] 0 0.
Proof.
  apply (generator_returns 480 [tempo_cmd; a4_on_cmd] fresh_timers).
  - apply Timer1_0_live.
  - apply Timer2_0_live.
  - reflexivity.
  - reflexivity.
  - lia.
  - repeat constructor; cbn; intros; try lia; try discriminate.
Defined.


(** ** Where the pulses lie in time *)

Lemma update_state_from_0 (tt : R) (st st' : logic_state) :
  update_state tt st = Ok st' -> 0 <= tt ->
  pulses_from_0 st -> pulses_from_0 st'.
Proof.
  unfold update_state. intros H Htt (Hs & Hc & Hp).
  destruct (ATS.update (Timer1 (tms st)) tt) as [t1 | |]; try discriminate.
  destruct (ATS.update (Timer2 (tms st)) tt) as [t2 | |]; try discriminate.
  cbn [bind] in H.
  destruct (Bool.eqb _ _).
  - injection H as <-. repeat split; assumption.
  - destruct (_ || _).
    + injection H as <-. repeat split; assumption.
    + injection H as <-. unfold pulses_from_0.
      cbn [current_pulse_start current_t pulses].
      repeat split; try assumption.
      apply Forall_app. split; [assumption |].
      constructor; [cbn; assumption | constructor].
Qed.

Lemma advance_to_from_0 (fuel : nat) (cmd_t : R) (st st' : logic_state) :
  logic_inv st -> current_t st <= cmd_t -> pulses_from_0 st ->
  advance_to fuel cmd_t st = Ok st' -> pulses_from_0 st'.
Proof.
  revert st. induction fuel as [| fuel IH]; intros st Hinv Hle H0 H;
    cbn [advance_to] in H;
    destruct (Rlt_dec (current_t st) cmd_t) as [L | L]; try discriminate.
  - now injection H as <-.
  - pose proof Hinv as [(H1 & H2 & E1 & E2) Hp].
    pose proof (next_change_later _ H1) as N1.
    pose proof (next_change_later _ H2) as N2.
    set (ntc := Rmin (ATS.next_change (Timer1 (tms st)))
                     (ATS.next_change (Timer2 (tms st)))) in *.
    assert (current_t st < ntc) as Hn.
    { unfold ntc. apply Rmin_case; lra. }
    pose proof H0 as (_ & Hc0 & _).
    destruct (Rlt_dec ntc cmd_t) as [C | C].
    + destruct (update_state ntc st) as [st1 | |] eqn:U; try discriminate.
      cbn [bind] in H.
      assert (logic_inv st1) as Hinv1.
      { apply (update_state_inv ntc st st1); [| assumption | lra | exact U].
        now apply logic_inv_set. }
      destruct (update_state_pulses _ _ _ U) as [Et _].
      apply (IH st1); [assumption | lra | | assumption].
      apply (update_state_from_0 ntc st st1 U); [lra | assumption].
    + destruct (update_state cmd_t st) as [st1 | |] eqn:U; try discriminate.
      cbn [bind] in H.
      assert (logic_inv st1) as Hinv1.
      { apply (update_state_inv cmd_t st st1); [| assumption | lra | exact U].
        now apply logic_inv_set. }
      destruct (update_state_pulses _ _ _ U) as [Et _].
      apply (IH st1); [assumption | lra | | assumption].
      apply (update_state_from_0 cmd_t st st1 U); [lra | assumption].
  - now injection H as <-.
Qed.

Lemma apply_cmd_tempo (cmd : command) (current_tempo : Z) (st : logic_state)
    (r : Z * logic_state) :
  apply_cmd cmd current_tempo st = Ok r -> fst r = tempo_after cmd current_tempo.
Proof.
  unfold apply_cmd, tempo_after. intros H.
  destruct (type cmd);
    repeat match type of H with
           | context [ArduinoTimers_index ?i] =>
               destruct (ArduinoTimers_index i) as [[|] | |];
               cbn [bind] in H; try discriminate
           | context [ATS.set_note ?a ?b ?c] =>
               destruct (ATS.set_note a b c); cbn [bind] in H; try discriminate
           end;
    now injection H as <-.
Qed.

Lemma run_cmds_from_0 (fuel : nat) (ticks_per_beat : Z) (cmds : list command)
    (last_cmd_t : R) (current_tempo : Z) (st st' : logic_state) :
  (0 < ticks_per_beat)%Z -> Forall cmd_ok cmds ->
  logic_inv st -> pulses_from_0 st ->
  current_t st = last_cmd_t -> (0 <= current_tempo)%Z ->
  run_cmds fuel ticks_per_beat cmds last_cmd_t current_tempo st = Ok st' ->
  logic_inv st' /\ pulses_from_0 st'
  /\ current_t st' = end_time ticks_per_beat cmds last_cmd_t current_tempo.
Proof.
  intros Htpb. revert last_cmd_t current_tempo st.
  induction cmds as [| cmd cmds IH];
    intros last tempo0 st Hok Hinv H0 Hlast Htempo H.
  - cbn in H. injection H as <-. cbn. auto.
  - inversion Hok as [| ? ? Hcmd Hrest]; subst.
    cbn [run_cmds] in H. cbn [end_time].
    pose proof Htpb as Htpb'. apply IZR_lt in Htpb'.
    rewrite py_truediv_ok in H by nra. cbn [bind] in H.
    set (cmd_t := current_t st
                  + IZR (time cmd * tempo0) / (1000000 * IZR ticks_per_beat)) in *.
    assert (current_t st <= cmd_t) as Hle.
    { assert (0 <= IZR (time cmd * tempo0) / (1000000 * IZR ticks_per_beat)).
      { apply Rmult_le_pos.
        - apply IZR_le. destruct Hcmd. nia.
        - left. apply Rinv_0_lt_compat. nra. }
      unfold cmd_t. lra. }
    destruct (advance_to fuel cmd_t st) as [st1 | |] eqn:A; try discriminate.
    cbn [bind] in H.
    destruct (advance_to_inv _ _ _ _ Hinv Hle A) as [Hinv1 Et1].
    pose proof (advance_to_from_0 _ _ _ _ Hinv Hle H0 A) as H01.
    destruct (apply_cmd cmd tempo0 st1) as [r | |] eqn:C; try discriminate.
    cbn [bind] in H.
    destruct (apply_cmd_inv _ _ _ _ Hinv1 Hcmd Htempo C) as (Hs & Hp & Et & Hf).
    destruct (apply_cmd_locals _ _ _ _ C) as (_ & Ecps & Eps & _).
    destruct (update_state cmd_t (snd r)) as [st3 | |] eqn:U; try discriminate.
    cbn [bind] in H.
    assert (logic_inv st3) as Hinv3.
    { eapply update_state_inv; [exact Hs | exact Hp | | exact U]. lra. }
    destruct (update_state_pulses _ _ _ U) as [Et3 _].
    assert (pulses_from_0 (snd r)) as H0r.
    { destruct H01 as (A1 & A2 & A3). unfold pulses_from_0.
      rewrite Ecps, Eps, Et. auto. }
    pose proof H0 as (_ & Hc0 & _).
    pose proof (update_state_from_0 _ _ _ U ltac:(lra) H0r) as H03.
    rewrite (apply_cmd_tempo _ _ _ _ C) in *.
    eapply IH; eassumption.
Qed.

(** X12.  Started on running timers that stand at time 0, for a positive
    [ticks_per_beat] and a stream whose delta times and tempi are not
    negative, every pulse the generator returns lies between time 0 and the
    time of the last command, and both timers are left at the time of the
    last command: what the timers would do after the last command is not
    part of the result. *)
Theorem pulses_within_stream (fuel : nat) (ticks_per_beat : Z)
    (cmds : list command) (ts ts' : timers) (ps : list pulse) :
  timer_running (Timer1 ts) -> timer_running (Timer2 ts) ->
  ATS.current_t (Timer1 ts) = 0 -> ATS.current_t (Timer2 ts) = 0 ->
  (0 < ticks_per_beat)%Z -> Forall cmd_ok cmds ->
  generate_logic_signal fuel ticks_per_beat cmds ts = Ok (ps, ts') ->
  Forall (fun p : pulse =>
            0 <= fst p /\ fst p <= snd p
            /\ snd p <= end_time ticks_per_beat cmds 0 0) ps
  /\ ATS.current_t (Timer1 ts') = end_time ticks_per_beat cmds 0 0
  /\ ATS.current_t (Timer2 ts') = end_time ticks_per_beat cmds 0 0.
Proof.
  intros H1 H2 E1 E2 Htpb Hok H. unfold generate_logic_signal in H.
  destruct (run_cmds _ _ _ _ _ _) as [st | |] eqn:R; try discriminate.
  cbn [bind] in H. injection H as <- <-.
  assert (logic_inv (initial_logic_state ts)) as Hinv.
  { split; [unfold timers_synced; cbn [tms Timer1 Timer2 current_t
                                          initial_logic_state]; auto |].
    unfold pulses_inv, initial_logic_state.
    cbn [pulses current_pulse_start current_t current_state].
    split; [split; constructor |]. split; [lra |]. split; intros; constructor. }
  assert (pulses_from_0 (initial_logic_state ts)) as H0.
  { unfold pulses_from_0. cbn. repeat split; try lra. constructor. }
  destruct (run_cmds_from_0 _ _ _ _ _ _ _ Htpb Hok Hinv H0 eq_refl
                            (Z.le_refl 0) R)
    as ([(_ & _ & T1 & T2) ((Hd & _) & _ & Hall & _)] & (_ & _ & Hfrom) & Et).
  cbn [initial_logic_state current_t] in Et.
  cbn [tms] in *. rewrite T1, T2. split; [| auto].
  rewrite <- Et. rewrite Forall_forall in *. intros p Hp.
  specialize (Hd p Hp). specialize (Hall p Hp). specialize (Hfrom p Hp).
  cbn beta in *. lra.
Qed.

Lemma pulses_within_stream_witness :
  Forall (fun p : pulse =>
            0 <= fst p /\ fst p <= snd p
            /\ snd p <= end_time 480 [tempo_cmd; a4_on_cmd] 0 0) [(0, 0)]
  /\ ATS.current_t (Timer1 (mk_timers Timer1_a4 Timer2_0))
     = end_time 480 [tempo_cmd; a4_on_cmd] 0 0
  /\ ATS.current_t (Timer2 (mk_timers Timer1_a4 Timer2_0))
     = end_time 480 [tempo_cmd; a4_on_cmd] 0 0.
Proof.
  apply (pulses_within_stream 100 480 [tempo_cmd; a4_on_cmd] fresh_timers
           (mk_timers Timer1_a4 Timer2_0) [(0, 0)]).
  - apply Timer1_0_running.
  - apply Timer2_0_running.
  - reflexivity.
  - reflexivity.
  - lia.
  - repeat constructor; cbn; intros; lia.
  - apply tempo_then_note_run.
Defined.

(** ** The second of silence before the first pulse *)

Lemma skip_ended_stays (n : nat) (logic_pulses : list pulse) (sample_t : R)
    (p : pulse) :
  nth_error logic_pulses 0 = Some p -> ~ snd p < sample_t ->
  skip_ended n logic_pulses sample_t 0 = 0%nat.
Proof.
  intros Hp Hn. destruct n as [| n]; cbn [skip_ended]; [reflexivity |].
  destruct (_ <? _)%nat; [| reflexivity].
  unfold pulse in *. rewrite Hp.
  destruct (Rlt_dec (snd p) sample_t); [contradiction | reflexivity].
Qed.

(** The step of the sampling loop, [1.0 / SAMPLE_RATE], is a double that is
    not negative and exceeds 1/44100 by less than [2 ^ -52]. *)
Lemma SAMPLE_STEP_bounds :
  0 <= SAMPLE_STEP <= 1 / IZR SAMPLE_RATE + powerRZ 2 (-52).
Proof.
  unfold SAMPLE_STEP, SAMPLE_RATE.
  split; [apply b64_round_nonneg; lra |].
  pose proof (b64_round_error_sum (1 / 44100)) as E.
  rewrite (Rabs_pos_eq (1 / 44100)) in E by lra.
  apply Rabs_le_both in E.
  assert (powerRZ 2 (-1075) <= powerRZ 2 (-53)) by (apply pow2_le; lia).
  pose proof (pow2_double (-53)) as D. cbn [Z.add Z.pos_sub Z.succ_double
    Z.pred_double Pos.pred_double Z.opp Z.double] in D.
  change (-53 + 1)%Z with (-52)%Z in D.
  pose proof (pow2_pos (-53)). nra.
Qed.

(** One step of the sampling loop from a sample time in [-1, 0): the sum is
    rounded, which moves it by less than [2 ^ -52], and never below -1. *)
Lemma sample_step_bounds (sample_t : R) :
  -1 <= sample_t < 0 ->
  -1 <= b64_round (sample_t + SAMPLE_STEP)
  <= sample_t + 1 / IZR SAMPLE_RATE + powerRZ 2 (-50).
Proof.
  intros Hs. pose proof SAMPLE_STEP_bounds as [S0 S1].
  assert (powerRZ 2 (-52) <= 1 / 4) as H52.
  { apply Rle_trans with (powerRZ 2 (-2)); [apply pow2_le; lia |].
    assert (powerRZ 2 (-2) = / IZR (2 ^ 2)) as E
        by (rewrite <- pow2_IZR by lia; apply (pow2_opp 2)).
    rewrite E. change (2 ^ 2)%Z with 4%Z. lra. }
  assert (1 / IZR SAMPLE_RATE <= 1 / 4) as Hr by (unfold SAMPLE_RATE; lra).
  split.
  - replace (-1) with (IZR (-1)) by reflexivity.
    apply b64_round_ge; [apply b64_representable_IZR; cbn; lia |].
    cbn. lra.
  - pose proof (b64_round_error_sum (sample_t + SAMPLE_STEP)) as E.
    apply Rabs_le_both in E.
    assert (Rabs (sample_t + SAMPLE_STEP) <= 1) as Ha
        by (apply Rabs_le; lra).
    assert (powerRZ 2 (-1075) <= powerRZ 2 (-53)) by (apply pow2_le; lia).
    pose proof (pow2_double (-53)) as D53.
    change (-53 + 1)%Z with (-52)%Z in D53.
    pose proof (pow2_double (-52)) as D52.
    change (-52 + 1)%Z with (-51)%Z in D52.
    pose proof (pow2_double (-51)) as D51.
    change (-51 + 1)%Z with (-50)%Z in D51.
    pose proof (pow2_pos (-53)). pose proof (Rabs_pos (sample_t + SAMPLE_STEP)).
    nra.
Qed.

Lemma sample_loop_silence (logic_pulses : list pulse) (p : pulse) (last_t : R) :
  nth_error logic_pulses 0 = Some p -> 0 <= fst p -> 0 <= snd p ->
  0 <= last_t ->
  forall (n fuel k : nat) (sample_t : R),
    (n <= fuel)%nat -> INR k + INR n <= IZR SAMPLE_RATE ->
    -1 <= sample_t
    <= -1 + INR k * (1 / IZR SAMPLE_RATE + powerRZ 2 (-50)) ->
    firstn n (fst (sample_loop fuel logic_pulses last_t sample_t 0))
    = repeat 0%Z n.
Proof.
  intros Hp Hs He Hl. induction n as [| n IH]; intros fuel k sample_t Hfuel Hk Ht.
  - reflexivity.
  - destruct fuel as [| fuel]; [lia |].
    assert (powerRZ 2 (-50) <= 1 / 1000000000000) as Hd.
    { assert (powerRZ 2 (-50) = / IZR (2 ^ 50)) as E
          by (rewrite <- pow2_IZR by lia; apply (pow2_opp 50)).
      rewrite E.
      apply Rmult_le_reg_r with (IZR (2 ^ 50)); [apply IZR_lt; reflexivity |].
      rewrite Rinv_l by (apply not_0_IZR; discriminate).
      cbn. lra. }
    pose proof (pow2_pos (-50)) as Hd0.
    rewrite S_INR in Hk. pose proof (pos_INR n) as Hn0.
    assert (INR k <= 44099) as Hk' by (unfold SAMPLE_RATE in Hk; lra).
    pose proof (pos_INR k) as Hk0.
    assert (sample_t < 0) as Hneg.
    { unfold SAMPLE_RATE in Ht.
      assert (INR k * (1 / 44100 + powerRZ 2 (-50))
              <= 44099 * (1 / 44100 + 1 / 1000000000000)) by nra.
      lra. }
    cbn [sample_loop].
    destruct (Rle_dec sample_t last_t) as [L | L]; [| lra].
    rewrite (skip_ended_stays _ _ _ p Hp) by lra.
    unfold sample_volume, pulse_at. unfold pulse in *. rewrite Hp.
    cbn [bind].
    destruct (Rlt_dec sample_t (fst p)) as [L' | L']; [| lra].
    cbn [Nat.ltb Nat.leb bind pack_h].
    cbn [Z.leb Z.compare andb fst snd firstn repeat]. f_equal.
    apply (IH fuel (S k)); [lia | rewrite S_INR; lra |].
    pose proof (sample_step_bounds sample_t ltac:(lra)) as [B1 B2].
    rewrite S_INR. split; [exact B1 |].
    unfold SAMPLE_RATE in *. nra.
Qed.

(** X13.  [generate_wav] starts sampling one second before time 0.
    Started on running timers that stand at time 0, for a positive
    [ticks_per_beat] and a stream whose delta times and tempi are not
    negative, when the generator has found at least one pulse, the frames
    for the sample times before 0, as many of the first 44100 as are
    written, are all 0. *)
Theorem leading_silence (fuel n : nat) (ticks_per_beat : Z)
    (cmds : list command) (ts ts' : timers) (ps : list pulse) :
  timer_running (Timer1 ts) -> timer_running (Timer2 ts) ->
  ATS.current_t (Timer1 ts) = 0 -> ATS.current_t (Timer2 ts) = 0 ->
  (0 < ticks_per_beat)%Z -> Forall cmd_ok cmds ->
  generate_logic_signal fuel ticks_per_beat cmds ts = Ok (ps, ts') ->
  ps <> [] -> (n <= fuel)%nat -> INR n <= IZR SAMPLE_RATE ->
  firstn n (frames (generate_wav fuel ticks_per_beat cmds ts)) = repeat 0%Z n.
Proof.
  intros H1 H2 E1 E2 Htpb Hok H Hne Hn Hrate.
  assert (Forall (fun p : pulse => 0 <= fst p /\ 0 <= snd p) ps) as Hnonneg.
  { assert (Forall (fun p : pulse =>
                      0 <= fst p /\ fst p <= snd p
                      /\ snd p <= end_time ticks_per_beat cmds 0 0) ps) as Hw.
    { unfold generate_logic_signal in H.
      destruct (run_cmds _ _ _ _ _ _) as [st | |] eqn:R; try discriminate.
      cbn [bind] in H. injection H as <- <-.
      assert (logic_inv (initial_logic_state ts)) as Hinv.
      { split; [unfold timers_synced; cbn [tms Timer1 Timer2 current_t
                                              initial_logic_state]; auto |].
        unfold pulses_inv, initial_logic_state.
        cbn [pulses current_pulse_start current_t current_state].
        split; [split; constructor |]. split; [lra |].
        split; intros; constructor. }
      assert (pulses_from_0 (initial_logic_state ts)) as H0.
      { unfold pulses_from_0. cbn. repeat split; try lra. constructor. }
      destruct (run_cmds_from_0 _ _ _ _ _ _ _ Htpb Hok Hinv H0 eq_refl
                                (Z.le_refl 0) R)
        as ([_ ((Hd & _) & _ & Hall & _)] & (_ & _ & Hfrom) & Et).
      cbn [initial_logic_state current_t] in Et.
      rewrite <- Et. rewrite Forall_forall in *. intros p Hp.
      specialize (Hd p Hp). specialize (Hall p Hp). specialize (Hfrom p Hp).
      cbn beta in *. lra. }
    revert Hw. apply Forall_impl. intros p Hp. lra. }
  rewrite (generate_wav_of_pulses _ _ _ _ _ _ H). cbn [frames].
  unfold render, last_pulse_of.
  destruct (rev ps) as [| q qs] eqn:Hrev.
  { exfalso. apply Hne. rewrite <- (rev_involutive ps), Hrev. reflexivity. }
  destruct ps as [| p ps']; [contradiction |].
  assert (In q (p :: ps')) as Hq by (apply in_rev; rewrite Hrev; now left).
  rewrite Forall_forall in Hnonneg.
  pose proof (Hnonneg q Hq) as [_ Hqe].
  pose proof (Hnonneg p (or_introl eq_refl)) as [Hps Hpe].
  apply (sample_loop_silence (p :: ps') p _ eq_refl Hps Hpe) with (k := 0%nat);
    try assumption.
  - apply b64_round_nonneg. unfold LAST_PULSE_OFF_TIME. lra.
  - cbn [INR]. lra.
  - unfold FIRST_PULSE_ON_TIME. cbn [INR]. lra.
Qed.

Lemma leading_silence_witness :
  firstn 3 (frames (generate_wav 100 480 [tempo_cmd; a4_on_cmd] fresh_timers))
  = repeat 0%Z 3.
Proof.
  apply (leading_silence 100 3 480 [tempo_cmd; a4_on_cmd] fresh_timers
           (mk_timers Timer1_a4 Timer2_0) [(0, 0)]).
  - apply Timer1_0_running.
  - apply Timer2_0_running.
  - reflexivity.
  - reflexivity.
  - lia.
  - repeat constructor; cbn; intros; lia.
  - apply tempo_then_note_run.
  - discriminate.
  - lia.
  - unfold SAMPLE_RATE. cbn [INR]. lra.
Defined.


(** ** Volume and duty *)

Lemma py_round_mono (x y : R) : x <= y -> (py_round x <= py_round y)%Z.
Proof.
  intros Hxy.
  destruct (py_round_bounds x) as [X1 X2].
  destruct (py_round_bounds y) as [Y1 Y2].
  destruct (Z_lt_le_dec (py_round y) (py_round x)) as [C | C]; [| assumption].
  assert (py_round y + 1 <= py_round x)%Z as C' by lia.
  apply IZR_le in C'. rewrite plus_IZR in C'.
  assert (x = y) as E by lra. subst y. lia.
Qed.

(** X14.  The duty that [set_note] writes, for a volume that is not negative: it
    is at least one tick; unless it is that one tick, the pulse width it
    stands for is the target width, [min (volume, 10)] half cycles of the
    coil, to within half a tick, and so at most [MAX_PULSE_LENGTH] plus half
    a tick.  It does not decrease when the volume grows, and volumes from
    [MAX_HALF_CYCLES] on all give the duty of volume 10. *)
Theorem set_note_duty (self : ATS.t) (note : Z) :
  timer_wf self -> ~ get_midi_freq note < ATS.min_freq self ->
  exists p,
    (0 < p)%Z
    /\ (forall volume,
          ATS.set_note self note volume = Ok (note_state self note volume p))
    /\ (forall volume, (0 <= volume)%Z ->
          let d := ATS.duty (note_state self note volume p) in
          (1 <= d)%Z
          /\ (d = 1%Z
              \/ Rabs (IZR d * IZR p / ARDUINO_FREQ
                       - IZR (Z.min volume MAX_HALF_CYCLES) * HALF_CYCLE_LENGTH)
                 <= IZR p / (2 * ARDUINO_FREQ)
                 /\ IZR d * IZR p / ARDUINO_FREQ
                    <= MAX_PULSE_LENGTH + IZR p / (2 * ARDUINO_FREQ)))
    /\ (forall v1 v2, (0 <= v1 <= v2)%Z ->
          (ATS.duty (note_state self note v1 p)
           <= ATS.duty (note_state self note v2 p))%Z)
    /\ (forall volume, (MAX_HALF_CYCLES <= volume)%Z ->
          ATS.duty (note_state self note volume p)
          = ATS.duty (note_state self note MAX_HALF_CYCLES p)).
Proof.
  intros Hwf Hge.
  destruct (set_note_finds_prescaler self note Hwf Hge)
    as (p & pre & post & E & _ & _ & Hn).
  assert (In p (ATS.prescale_values self)) as Hin.
  { rewrite E. apply in_or_app. right. now left. }
  pose proof (wf_prescale_pos self p Hwf Hin) as Hp.
  exists p. split; [exact Hp |]. split; [| split; [| split]].
  - intros volume. apply set_note_with; [assumption | assumption | lia].
  - intros volume Hvol. cbn zeta. cbn [note_state ATS.duty].
    pose proof (duty_ticks_nonneg volume p Hp Hvol) as Hd.
    destruct (Z.eqb_spec (duty_ticks volume p) 0) as [Ez | Ez];
      [split; [lia | now left] |].
    split; [lia |]. right.
    unfold duty_ticks in *.
    set (x := IZR (Z.min volume MAX_HALF_CYCLES) * HALF_CYCLE_LENGTH
              * ARDUINO_FREQ / IZR p) in *.
    pose proof (py_round_bounds x) as [B1 B2].
    apply IZR_lt in Hp.
    assert (IZR (Z.min volume MAX_HALF_CYCLES) * HALF_CYCLE_LENGTH
            = x * IZR p / ARDUINO_FREQ) as Ex.
    { unfold x, ARDUINO_FREQ. field. lra. }
    assert (IZR (Z.min volume MAX_HALF_CYCLES) <= IZR MAX_HALF_CYCLES) as Hm.
    { apply IZR_le. lia. }
    assert (0 < HALF_CYCLE_LENGTH) as Hh
      by (unfold HALF_CYCLE_LENGTH, COIL_FREQ; lra).
    assert (forall a b : R, a <= b ->
              a * IZR p / ARDUINO_FREQ <= b * IZR p / ARDUINO_FREQ) as Hmono.
    { intros a b Hab. unfold Rdiv. apply Rmult_le_compat_r; [| nra].
      left. apply Rinv_0_lt_compat. unfold ARDUINO_FREQ. lra. }
    assert ((x + 1 / 2) * IZR p / ARDUINO_FREQ
            = x * IZR p / ARDUINO_FREQ + IZR p / (2 * ARDUINO_FREQ)) as E1
      by (unfold ARDUINO_FREQ; field).
    assert ((x - 1 / 2) * IZR p / ARDUINO_FREQ
            = x * IZR p / ARDUINO_FREQ - IZR p / (2 * ARDUINO_FREQ)) as E2
      by (unfold ARDUINO_FREQ; field).
    pose proof (Hmono _ _ B1) as M1. pose proof (Hmono _ _ B2) as M2.
    rewrite E2 in M1. rewrite E1 in M2.
    split.
    + rewrite Ex. apply Rabs_le. lra.
    + unfold MAX_PULSE_LENGTH. rewrite <- Ex in *. nra.
  - intros v1 v2 Hv. cbn [note_state ATS.duty].
    assert (duty_ticks v1 p <= duty_ticks v2 p)%Z as Hm.
    { unfold duty_ticks. apply py_round_mono.
      assert (IZR (Z.min v1 MAX_HALF_CYCLES) <= IZR (Z.min v2 MAX_HALF_CYCLES))
        by (apply IZR_le; lia).
      apply IZR_lt in Hp.
      unfold Rdiv. apply Rmult_le_compat_r;
        [left; now apply Rinv_0_lt_compat |].
      unfold HALF_CYCLE_LENGTH, COIL_FREQ, ARDUINO_FREQ. nra. }
    pose proof (duty_ticks_nonneg v1 p Hp ltac:(lia)).
    destruct (Z.eqb_spec (duty_ticks v1 p) 0), (Z.eqb_spec (duty_ticks v2 p) 0);
      lia.
  - intros volume Hvol. cbn [note_state ATS.duty]. unfold duty_ticks.
    now rewrite Z.min_r, Z.min_id by assumption.
Qed.

Lemma set_note_duty_witness :
  exists p,
    (0 < p)%Z
    /\ (forall volume,
          ATS.set_note Timer1_0 69 volume = Ok (note_state Timer1_0 69 volume p))
    /\ (forall volume, (0 <= volume)%Z ->
          let d := ATS.duty (note_state Timer1_0 69 volume p) in
          (1 <= d)%Z
          /\ (d = 1%Z
              \/ Rabs (IZR d * IZR p / ARDUINO_FREQ
                       - IZR (Z.min volume MAX_HALF_CYCLES) * HALF_CYCLE_LENGTH)
                 <= IZR p / (2 * ARDUINO_FREQ)
                 /\ IZR d * IZR p / ARDUINO_FREQ
                    <= MAX_PULSE_LENGTH + IZR p / (2 * ARDUINO_FREQ)))
    /\ (forall v1 v2, (0 <= v1 <= v2)%Z ->
          (ATS.duty (note_state Timer1_0 69 v1 p)
           <= ATS.duty (note_state Timer1_0 69 v2 p))%Z)
    /\ (forall volume, (MAX_HALF_CYCLES <= volume)%Z ->
          ATS.duty (note_state Timer1_0 69 volume p)
          = ATS.duty (note_state Timer1_0 69 MAX_HALF_CYCLES p)).
Proof.
  apply (set_note_duty Timer1_0 69).
  - apply Timer1_0_wf.
  - rewrite get_midi_freq_base. cbn. unfold ARDUINO_FREQ. lra.
Defined.

(** ** Updates on tick boundaries *)

(** X15.  [update] in binary64 to a time within a quarter tick of [a] whole
    ticks ahead, less than [2 ^ 48] clock cycles away, adds exactly [a]
    ticks: the rounding of the difference, the product and the quotient
    cannot move the count.  So near tick boundaries updates compose without
    drift: going [a] ticks and then [b] ticks ahead leaves the timer where
    going [a + b] ticks ahead leaves it, and going one full period ahead
    leaves the counter and the output as they are. *)
Theorem update_on_tick_boundaries (self : ATS.t) (tt : R) (a : Z) :
  (0 < ATS.prescale self)%Z -> (0 <= ATS.current self < ATS.top self)%Z ->
  (ATS.top self <= 2 ^ 52)%Z ->
  (0 <= a)%Z -> ((a + 1) * ATS.prescale self <= 2 ^ 48)%Z ->
  Rabs ((tt - ATS.current_t self) * ARDUINO_FREQ / IZR (ATS.prescale self)
        - IZR a) <= 1 / 4 ->
  let s1 := ATS.mk (ATS.max self) (ATS.prescale_values self)
                   (ATS.prescale self) (ATS.top self) (ATS.min_freq self)
                   (ATS.duty self)
                   ((ATS.current self + a) mod ATS.top self)%Z tt in
  ATS.ticks_binary64 self tt = Ok a
  /\ ATS.update_binary64 self tt = Ok s1
  /\ (a = ATS.top self ->
      ATS.current s1 = ATS.current self
      /\ ATS.current_state s1 = ATS.current_state self)
  /\ (forall (tt2 : R) (b : Z),
        (0 <= b)%Z -> ((a + b + 1) * ATS.prescale self <= 2 ^ 48)%Z ->
        Rabs ((tt2 - tt) * ARDUINO_FREQ / IZR (ATS.prescale self) - IZR b)
        <= 1 / 4 ->
        Rabs ((tt2 - ATS.current_t self) * ARDUINO_FREQ
              / IZR (ATS.prescale self) - IZR (a + b)) <= 1 / 4 ->
        exists s2,
          ATS.update_binary64 s1 tt2 = Ok s2
          /\ ATS.update_binary64 self tt2 = Ok s2).
Proof.
  intros Hp Hc Ht Ha Hap Hn s1.
  assert (forall (s : ATS.t) (t2 : R) (x : Z),
            ATS.prescale s = ATS.prescale self -> ATS.top s = ATS.top self ->
            (0 <= ATS.current s < ATS.top s)%Z ->
            (0 <= x)%Z -> ((x + 1) * ATS.prescale self <= 2 ^ 48)%Z ->
            Rabs ((t2 - ATS.current_t s) * ARDUINO_FREQ
                  / IZR (ATS.prescale s) - IZR x) <= 1 / 4 ->
            ATS.ticks_binary64 s t2 = Ok x
            /\ ATS.update_binary64 s t2
               = Ok (ATS.mk (ATS.max s) (ATS.prescale_values s)
                            (ATS.prescale s) (ATS.top s) (ATS.min_freq s)
                            (ATS.duty s)
                            ((ATS.current s + x) mod ATS.top s)%Z t2)) as Hup.
  { intros s t2 x Ep Et Hcs Hx Hxp Hq.
    assert (1 <= IZR (ATS.prescale s)) as Hp1
        by (rewrite Ep; apply IZR_le; lia).
    assert ((x + 1 <= 2 ^ 48)%Z) as Hx48 by nia.
    assert (ATS.ticks_binary64 s t2 = Ok x) as Hk.
    { apply ticks_binary64_near; [rewrite Ep; nia | | exact Hq].
      apply Rabs_le_both in Hq.
      set (d := t2 - ATS.current_t s) in *.
      assert (0 < ARDUINO_FREQ) as HF by (unfold ARDUINO_FREQ; lra).
      assert (IZR ((x + 1) * ATS.prescale s) <= IZR (2 ^ 48)) as Hb
          by (apply IZR_le; rewrite Ep; exact Hxp).
      rewrite mult_IZR, plus_IZR in Hb.
      assert (0 <= IZR x) as Hx0 by (apply IZR_le; exact Hx).
      assert (d * ARDUINO_FREQ / IZR (ATS.prescale s) * IZR (ATS.prescale s)
              = d * ARDUINO_FREQ) as Em by (field; lra).
      rewrite <- (Rabs_pos_eq ARDUINO_FREQ), <- Rabs_mult by lra.
      apply Rabs_le. nra. }
    split; [exact Hk |].
    rewrite (update_binary64_reduce s t2 x Hk) by lia.
    rewrite Z.rem_mod_nonneg by lia. reflexivity. }
  destruct (Hup self tt a eq_refl eq_refl Hc Ha Hap Hn) as [K1 U1].
  split; [exact K1 |]. split; [exact U1 |]. split.
  - intros ->. unfold s1, ATS.current_state. cbn [ATS.current ATS.duty].
    rewrite <- (Z.mul_1_l (ATS.top self)) at 1 3.
    rewrite Z_mod_plus_full, Z.mod_small by lia. split; reflexivity.
  - intros tt2 b Hb Hbp Hq2 Hq12.
    pose proof (Z.mod_pos_bound (ATS.current self + a) (ATS.top self)
                                ltac:(lia)) as Hm.
    destruct (Hup s1 tt2 b eq_refl eq_refl Hm Hb ltac:(nia) Hq2) as [_ U2].
    destruct (Hup self tt2 (a + b)%Z eq_refl eq_refl Hc ltac:(lia) Hbp Hq12)
      as [_ U12].
    eexists. split; [exact U2 |]. rewrite U12. do 2 f_equal.
    unfold s1. cbn [ATS.current ATS.top].
    rewrite Zplus_mod_idemp_l. f_equal. ring.
Qed.

Lemma update_on_tick_boundaries_witness :
  ATS.ticks_binary64 Timer1_a4 (1 / 50000) = Ok 320%Z
  /\ ATS.update_binary64 Timer1_a4 (1 / 50000)
     = Ok (ATS.mk 65536 [1; 8; 64; 256; 1024]%Z 1 36364
                  (ARDUINO_FREQ / IZR (1024 * 65536)) 320 320 (1 / 50000)).
Proof.
  assert (Rabs ((1 / 50000 - ATS.current_t Timer1_a4) * ARDUINO_FREQ
                / IZR (ATS.prescale Timer1_a4) - IZR 320) <= 1 / 4) as Hq.
  { unfold ARDUINO_FREQ. cbn.
    replace ((1 / 50000 - 0) * 16000000 / 1 - 320) with 0 by field.
    rewrite Rabs_R0. lra. }
  destruct (update_on_tick_boundaries Timer1_a4 (1 / 50000) 320
              ltac:(cbn; lia) ltac:(cbn; lia) ltac:(cbn; lia) ltac:(lia)
              ltac:(cbn; lia) Hq) as (A & B & _).
  split; [exact A | exact B].
Defined.

(** ** The timer selector of a command *)

(** X16.  [ArduinoTimers[cmd.timer - 1]] on the two-element list: a note command
    with selector 0 acts on the second timer and one with selector -1 on the
    first, as Python counts negative indices from the end; any selector
    outside [-1 .. 2] makes the command, and with it the whole run, end in
    [IndexError]. *)
Theorem timer_selector_edge_cases (cmd : command) (current_tempo : Z)
    (st : logic_state) :
  type cmd = note_on \/ type cmd = note_off ->
  (timer cmd = 0%Z ->
   apply_cmd cmd current_tempo st = apply_cmd (with_timer 2 cmd) current_tempo st)
  /\ (timer cmd = (-1)%Z ->
      apply_cmd cmd current_tempo st
      = apply_cmd (with_timer 1 cmd) current_tempo st)
  /\ ((timer cmd < -1 \/ 2 < timer cmd)%Z ->
      apply_cmd cmd current_tempo st = Raise IndexError
      /\ forall fuel ticks_per_beat ts,
           ticks_per_beat <> 0%Z ->
           generate_logic_signal fuel ticks_per_beat [cmd] ts
           = Raise IndexError).
Proof.
  intros Hty.
  assert ((timer cmd < -1 \/ 2 < timer cmd)%Z ->
          ArduinoTimers_index (timer cmd - 1) = Raise IndexError) as Hout.
  { intros H. unfold ArduinoTimers_index.
    destruct (Z.eqb_spec (timer cmd - 1) 0); [lia |].
    destruct (Z.eqb_spec (timer cmd - 1) (-2)); [lia |].
    destruct (Z.eqb_spec (timer cmd - 1) 1); [lia |].
    destruct (Z.eqb_spec (timer cmd - 1) (-1)); [lia |]. reflexivity. }
  split; [| split].
  - intros E. unfold apply_cmd, with_timer. cbn [type timer note volume tempo].
    rewrite E. destruct Hty as [-> | ->]; reflexivity.
  - intros E. unfold apply_cmd, with_timer. cbn [type timer note volume tempo].
    rewrite E. destruct Hty as [-> | ->]; reflexivity.
  - intros H.
    assert (forall tempo0 st0, apply_cmd cmd tempo0 st0 = Raise IndexError) as Ha.
    { intros tempo0 st0. unfold apply_cmd.
      destruct Hty as [-> | ->]; now rewrite (Hout H). }
    split; [apply Ha |].
    intros fuel tpb ts Htpb. unfold generate_logic_signal.
    rewrite run_cmds_same_time by (try reflexivity; try assumption; lia).
    now rewrite Ha.
Qed.

Lemma timer_selector_edge_cases_witness :
  (timer (with_timer 0 a4_on_cmd) = 0%Z ->
   apply_cmd (with_timer 0 a4_on_cmd) 0 (initial_logic_state fresh_timers)
   = apply_cmd (with_timer 2 (with_timer 0 a4_on_cmd)) 0
               (initial_logic_state fresh_timers))
  /\ (apply_cmd (with_timer 3 a4_on_cmd) 0 (initial_logic_state fresh_timers)
      = Raise IndexError
      /\ forall fuel ticks_per_beat ts,
           ticks_per_beat <> 0%Z ->
           generate_logic_signal fuel ticks_per_beat [with_timer 3 a4_on_cmd] ts
           = Raise IndexError).
Proof.
  destruct (timer_selector_edge_cases (with_timer 0 a4_on_cmd) 0
              (initial_logic_state fresh_timers) (or_introl eq_refl))
    as (A & _ & _).
  destruct (timer_selector_edge_cases (with_timer 3 a4_on_cmd) 0
              (initial_logic_state fresh_timers) (or_introl eq_refl))
    as (_ & _ & C).
  split; [exact A | apply C; cbn; lia].
Defined.


(** ** The first pulse *)

(** What [update_state] leaves behind, branch by branch. *)
Lemma update_state_cases (tt : R) (st st' : logic_state) :
  update_state tt st = Ok st' ->
  current_state st' = composite_state (tms st')
  /\ ((current_state st' = current_state st
       /\ current_pulse_start st' = current_pulse_start st
       /\ pulses st' = pulses st)
      \/ (current_state st = false /\ current_state st' = true
          /\ current_pulse_start st' = tt /\ pulses st' = pulses st)
      \/ (current_state st = true /\ current_state st' = false
          /\ current_pulse_start st' = current_pulse_start st
          /\ pulses st'
             = pulses st
               ++ [(current_pulse_start st,
                    Rmin (current_pulse_start st + MAX_PULSE_LENGTH) tt)])).
Proof.
  unfold update_state, composite_state. intros H.
  destruct (ATS.update (Timer1 (tms st)) tt) as [t1 | |]; try discriminate.
  destruct (ATS.update (Timer2 (tms st)) tt) as [t2 | |]; try discriminate.
  cbn [bind] in H.
  destruct (Bool.eqb _ _) eqn:E.
  - injection H as <-. cbn. apply Bool.eqb_prop in E. auto.
  - destruct (ATS.current_state t1 || ATS.current_state t2) eqn:N;
      injection H as <-; cbn; rewrite N; (split; [reflexivity |]);
      destruct (current_state st); try discriminate; auto 8.
Qed.

Lemma update_state_first_pulse (tt : R) (st st' : logic_state) :
  update_state tt st = Ok st' -> first_pulse_inv st -> first_pulse_inv st'.
Proof.
  intros H Hf.
  destruct (update_state_cases _ _ _ H)
    as (_ & [(E1 & E2 & E3) | [(E0 & E1 & E2 & E3) | (E0 & E1 & E2 & E3)]]);
    unfold first_pulse_inv in *; rewrite E3.
  - destruct (pulses st); [now rewrite E1, E2 | assumption].
  - destruct (pulses st); [| assumption].
    destruct Hf as [Hf _]. congruence.
  - destruct (pulses st) as [| p ps]; [| exact Hf].
    destruct Hf as [_ ->]. cbn. split; [reflexivity |].
    rewrite Rplus_0_l. apply Rmin_l.
Qed.

Lemma advance_to_first_pulse (fuel : nat) (cmd_t : R) (st st' : logic_state) :
  advance_to fuel cmd_t st = Ok st' ->
  first_pulse_inv st ->
  first_pulse_inv st'
  /\ (current_t st < cmd_t -> current_state st' = composite_state (tms st')).
Proof.
  revert st. induction fuel as [| fuel IH]; intros st H Hf;
    cbn [advance_to] in H;
    destruct (Rlt_dec (current_t st) cmd_t) as [L | L]; try discriminate.
  - injection H as <-. split; [assumption | intros; contradiction].
  - destruct (if Rlt_dec _ cmd_t then _ else _) as [st1 | |] eqn:U;
      cbn [bind] in H; try discriminate.
    assert (first_pulse_inv st1
            /\ current_state st1 = composite_state (tms st1)) as [Hf1 Hc1].
    { destruct (Rlt_dec _ cmd_t);
        (split; [eapply update_state_first_pulse; eassumption |
                 eapply update_state_cases; eassumption]). }
    destruct (IH st1 H Hf1) as [Hf' Hc'].
    split; [exact Hf' |]. intros _.
    destruct (Rlt_dec (current_t st1) cmd_t) as [L1 | L1]; [auto |].
    rewrite advance_to_done in H by assumption. now injection H as <-.
  - injection H as <-. split; [assumption | intros; contradiction].
Qed.

Lemma run_cmds_first_pulse (fuel : nat) (ticks_per_beat : Z)
    (cmds : list command) :
  forall (last_cmd_t : R) (current_tempo : Z) (st st' : logic_state),
    run_cmds fuel ticks_per_beat cmds last_cmd_t current_tempo st = Ok st' ->
    first_pulse_inv st ->
    first_pulse_inv st'
    /\ (cmds <> [] -> current_state st' = composite_state (tms st')).
Proof.
  induction cmds as [| cmd cmds IH]; intros last tempo0 st st' H Hf.
  - cbn in H. injection H as <-. split; [assumption | intros; contradiction].
  - cbn [run_cmds] in H.
    destruct (py_truediv _ _) as [d | |]; cbn [bind] in H; try discriminate.
    destruct (advance_to fuel (last + d) st) as [st1 | |] eqn:A;
      cbn [bind] in H; try discriminate.
    destruct (advance_to_first_pulse _ _ _ _ A Hf) as [Hf1 _].
    destruct (apply_cmd cmd tempo0 st1) as [r | |] eqn:C;
      cbn [bind] in H; try discriminate.
    destruct (apply_cmd_locals _ _ _ _ C) as (Ec & Ecps & Eps & _).
    destruct (update_state (last + d) (snd r)) as [st3 | |] eqn:U;
      cbn [bind] in H; try discriminate.
    assert (first_pulse_inv (snd r)) as Hfr.
    { unfold first_pulse_inv in *. now rewrite Eps, Ec, Ecps. }
    pose proof (update_state_first_pulse _ _ _ U Hfr) as Hf3.
    destruct (update_state_cases _ _ _ U) as [Hc3 _].
    destruct (IH _ _ _ _ H Hf3) as [Hf' Hc'].
    split; [exact Hf' |]. intros _.
    destruct cmds as [| c cs]; [| apply Hc'; discriminate].
    cbn in H. now injection H as <-.
Qed.

(** X17.  Whatever the timers and the stream, the first pulse the generator
    returns starts at time 0 and lasts at most [MAX_PULSE_LENGTH]: the
    generator begins in the "high" state with the pulse start at 0.0, so the
    first falling edge closes a pulse that began at 0, also when no timer
    was on at time 0.  And when the two timers together are low at the end
    of a non-empty stream, at least one pulse has been recorded. *)
Theorem first_pulse_starts_at_0 (fuel : nat) (ticks_per_beat : Z)
    (cmds : list command) (ts ts' : timers) (ps : list pulse) :
  generate_logic_signal fuel ticks_per_beat cmds ts = Ok (ps, ts') ->
  match ps with
  | [] => cmds = [] \/ composite_state ts' = true
  | p :: _ => fst p = 0 /\ snd p <= MAX_PULSE_LENGTH
  end.
Proof.
  intros H. unfold generate_logic_signal in H.
  destruct (run_cmds _ _ _ _ _ _) as [st | |] eqn:R; try discriminate.
  cbn [bind] in H. injection H as <- <-.
  assert (first_pulse_inv (initial_logic_state ts)) as Hf
    by (cbn; auto).
  destruct (run_cmds_first_pulse _ _ _ _ _ _ _ R Hf) as [Hf' Hc'].
  unfold first_pulse_inv in Hf'.
  destruct (pulses st) as [| p ps']; [| exact Hf'].
  destruct cmds as [| c cs]; [now left | right].
  rewrite <- Hc' by discriminate. apply Hf'.
Qed.

Lemma first_pulse_starts_at_0_witness :
  fst ((0, 0) : pulse) = 0 /\ snd ((0, 0) : pulse) <= MAX_PULSE_LENGTH.
Proof.
  apply (first_pulse_starts_at_0 100 480 [tempo_cmd; a4_on_cmd] fresh_timers
           (mk_timers Timer1_a4 Timer2_0) [(0, 0)]).
  apply tempo_then_note_run.
Defined.

(** X18.  [generate_wav] ends in [IndexError] exactly when the pulse list
    is empty: with at least one pulse, whatever else happens while sampling,
    no index leaves the pulse list. *)
Theorem IndexError_iff_no_pulse (fuel : nat) (ticks_per_beat : Z)
    (cmds : list command) (ts ts' : timers) (ps : list pulse) :
  generate_logic_signal fuel ticks_per_beat cmds ts = Ok (ps, ts') ->
  (status (generate_wav fuel ticks_per_beat cmds ts) = Raise IndexError
   <-> ps = []).
Proof.
  intros H. rewrite (generate_wav_of_pulses _ _ _ _ _ _ H). cbn [status].
  split.
  - intros E. destruct ps as [| p ps']; [reflexivity | exfalso].
    revert E. unfold render, last_pulse_of.
    destruct (rev (p :: ps')) as [| q qs] eqn:Hrev.
    + apply (f_equal (@length pulse)) in Hrev.
      rewrite length_rev in Hrev. discriminate Hrev.
    + apply sample_loop_no_IndexError. cbn. lia.
  - intros ->. reflexivity.
Qed.

Lemma IndexError_iff_no_pulse_witness :
  status (generate_wav 100 480 [a4_on_cmd] fresh_timers) = Raise IndexError
  <-> @nil pulse = [].
Proof.
  apply (IndexError_iff_no_pulse 100 480 [a4_on_cmd] fresh_timers
           (mk_timers Timer1_a4 Timer2_0) []).
  apply note_on_only_run.
Defined.

(** ** Overflow in [update] *)

(** A product beyond the largest double is an infinity. *)
Lemma b64_overflow (m e : Z) :
  (Z.abs m < 2 ^ 53)%Z -> (-1074 <= e)%Z ->
  powerRZ 2 1024 <= IZR (Z.abs m) * powerRZ 2 e ->
  b64 (IZR m * powerRZ 2 e) = Infinity.
Proof.
  intros Hm He Hbig. unfold b64.
  rewrite b64_round_exact by (exists m, e; auto).
  rewrite b64_abs_repr.
  destruct (Rlt_dec _ _) as [L | L]; [lra | reflexivity].
Qed.

Lemma Timer1_0_ticks_overflow (sign : Z) :
  sign = 1%Z \/ sign = (-1)%Z ->
  ATS.ticks_binary64 Timer1_0 (IZR sign * powerRZ 2 1010)
  = Raise OverflowError.
Proof.
  intros Hs. unfold ATS.ticks_binary64.
  rewrite py_float_of_int_small by (cbn; lia). cbn [bind ATS.prescale Timer1_0].
  destruct (Req_dec_T 1 0) as [E | _]; [lra |].
  change (ATS.current_t Timer1_0) with 0. unfold float_sub.
  assert (IZR sign * powerRZ 2 1010 - 0
          = IZR (sign * 2 ^ 39) * powerRZ 2 971) as E1.
  { rewrite mult_IZR, <- (pow2_IZR 39) by lia.
    replace 1010%Z with (39 + 971)%Z by reflexivity. rewrite pow2_add. ring. }
  rewrite E1, b64_of_mantissa by (destruct Hs as [-> | ->]; cbn; lia).
  cbn [float_mul].
  assert (IZR (sign * 2 ^ 39) * powerRZ 2 971 * ARDUINO_FREQ
          = IZR (sign * 15625) * powerRZ 2 1020) as E2.
  { rewrite !mult_IZR, <- (pow2_IZR 39) by lia.
    replace 1020%Z with (39 + 971 + 10)%Z by reflexivity.
    rewrite !pow2_add, (pow2_IZR 10) by lia. unfold ARDUINO_FREQ.
    change (2 ^ 10)%Z with 1024%Z. lra. }
  rewrite E2, b64_overflow; [reflexivity | | lia |].
  - destruct Hs as [-> | ->]; cbn; lia.
  - replace (Z.abs (sign * 15625)) with 15625%Z
      by (destruct Hs as [-> | ->]; reflexivity).
    replace 1024%Z with (4 + 1020)%Z by reflexivity.
    rewrite pow2_add, (pow2_IZR 4) by lia.
    change (2 ^ 4)%Z with 16%Z. pose proof (pow2_pos 1020). nra.
Qed.

(** X19.  [update] has no check of its own, but it can raise: when the time
    difference times the clock frequency is too large for a double, the
    product is an infinity and [round] raises [OverflowError].  The first
    timer as the module creates it, asked to go to time [- 2 ^ 1010] or to
    time [2 ^ 1010]. *)
Theorem update_overflow :
  ATS.update_binary64 Timer1_0 (- powerRZ 2 1010) = Raise OverflowError
  /\ ATS.update_binary64 Timer1_0 (powerRZ 2 1010) = Raise OverflowError.
Proof.
  unfold ATS.update_binary64. split.
  - replace (- powerRZ 2 1010) with (IZR (-1) * powerRZ 2 1010) by ring.
    rewrite Timer1_0_ticks_overflow by auto. reflexivity.
  - replace (powerRZ 2 1010) with (IZR 1 * powerRZ 2 1010) by ring.
    rewrite Timer1_0_ticks_overflow by auto. reflexivity.
Qed.

(** ** A held note *)

Lemma advance_to_pulses_prefix (fuel : nat) (cmd_t : R) (st st' : logic_state) :
  advance_to fuel cmd_t st = Ok st' ->
  exists more, pulses st' = pulses st ++ more.
Proof.
  revert st. induction fuel as [| fuel IH]; intros st H;
    cbn [advance_to] in H;
    destruct (Rlt_dec (current_t st) cmd_t) as [L | L]; try discriminate.
  - injection H as <-. exists []. now rewrite app_nil_r.
  - destruct (if Rlt_dec _ cmd_t then _ else _) as [st1 | |] eqn:U;
      cbn [bind] in H; try discriminate.
    assert (exists x, pulses st1 = pulses st ++ x) as [x Ex].
    { destruct (Rlt_dec _ cmd_t);
        destruct (update_state_pulses _ _ _ U) as (_ & [E | (_ & _ & E)]);
        rewrite E; eauto; exists []; now rewrite app_nil_r. }
    destruct (IH st1 H) as [y Ey]. exists (x ++ y).
    now rewrite Ey, Ex, app_assoc.
  - injection H as <-. exists []. now rewrite app_nil_r.
Qed.

(** A timer that is off stays low under [update] to a later time. *)
Lemma update_off_low (b : ATS.t) (tt : R) :
  ATS.duty b = 0%Z -> (0 <= ATS.current b < ATS.top b)%Z ->
  (0 < ATS.prescale b)%Z -> ATS.current_t b <= tt ->
  exists b', ATS.update b tt = Ok b' /\ ATS.current_state b' = false.
Proof.
  intros Hd Hc Hp Ht.
  destruct (update_forward b tt Hp Hc Ht) as (b' & U & Hc' & _ & Ed & _).
  exists b'. split; [exact U |].
  unfold ATS.current_state. rewrite Ed, Hd. apply Z.ltb_ge. lia.
Qed.

(** [update_state] at the time the first timer falls, the second being off:
    the pulse that is open is closed there. *)
Lemma update_state_fall (tf : R) (st : logic_state) :
  holding tf st ->
  exists st',
    update_state tf st = Ok st'
    /\ pulses st'
       = pulses st
         ++ [(current_pulse_start st,
              Rmin (current_pulse_start st + MAX_PULSE_LENGTH) tf)].
Proof.
  intros (Hs & Hca & Hda & Hpa & Hdb & Hcb & Hpb & Ta & Tb & Etf & _).
  cbv zeta in *.
  set (a := Timer1 (tms st)) in *. set (b := Timer2 (tms st)) in *.
  assert (ATS.current_state a = true) as Sa
    by (unfold ATS.current_state; apply Z.ltb_lt; lia).
  assert (ATS.next_change a = tf) as Na.
  { unfold ATS.next_change. rewrite Sa, Ta. exact Etf. }
  destruct (update_to_next_change a Hpa ltac:(lia) ltac:(lia))
    as (a' & Ua & Eda & Eca).
  rewrite Na, Sa in *.
  assert (ATS.current_state a' = false) as Sa'.
  { unfold ATS.current_state. rewrite Eca, Eda. apply Z.ltb_irrefl. }
  assert (ATS.current_t b <= tf) as Hle.
  { rewrite Tb, <- Etf.
    assert (0 < IZR (ATS.duty a - ATS.current a)) by (apply IZR_lt; lia).
    apply IZR_lt in Hpa.
    assert (0 < IZR (ATS.duty a - ATS.current a) * IZR (ATS.prescale a)
                / ARDUINO_FREQ)
      by (apply Rdiv_lt_0_compat; [nra | unfold ARDUINO_FREQ; lra]).
    lra. }
  destruct (update_off_low b tf Hdb Hcb Hpb Hle) as (b' & Ub & Sb').
  eexists. unfold update_state. fold a b. rewrite Ua, Ub. cbn [bind].
  rewrite Sa', Sb', Hs. cbn. split; reflexivity.
Qed.

(** While the first timer holds its output, a wrap of the second timer
    changes nothing in the generator but the time. *)
Lemma update_state_hold (tf : R) (st : logic_state) :
  holding tf st ->
  ATS.next_change (Timer2 (tms st)) < tf ->
  exists st',
    update_state (ATS.next_change (Timer2 (tms st))) st = Ok st'
    /\ holding tf st'
    /\ pulses st' = pulses st
    /\ current_pulse_start st' = current_pulse_start st
    /\ current_t st' = ATS.next_change (Timer2 (tms st)).
Proof.
  intros (Hs & Hca & Hda & Hpa & Hdb & Hcb & Hpb & Ta & Tb & Etf & [m Hm] & Hdiv)
         Hlt.
  cbv zeta in *.
  set (a := Timer1 (tms st)) in *. set (b := Timer2 (tms st)) in *.
  assert (ATS.current_state b = false) as Sb
    by (unfold ATS.current_state; apply Z.ltb_ge; lia).
  assert (ATS.next_change b
          = ATS.current_t b
            + IZR (ATS.top b - ATS.current b) * IZR (ATS.prescale b)
              / ARDUINO_FREQ) as Nb
    by (unfold ATS.next_change; now rewrite Sb).
  assert (ATS.next_change b
          = ATS.current_t a + IZR m * IZR (ATS.prescale a) / ARDUINO_FREQ)
    as Nb'.
  { rewrite Nb, Ta, Tb, <- !mult_IZR, Hm. reflexivity. }
  assert (m < ATS.duty a - ATS.current a)%Z as Hmlt.
  { rewrite Nb', Ta, <- Etf in Hlt.
    apply IZR_lt in Hpa.
    assert (IZR m < IZR (ATS.duty a - ATS.current a)) as Hr.
    { unfold ARDUINO_FREQ in Hlt.
      assert (IZR m * IZR (ATS.prescale a)
              < IZR (ATS.duty a - ATS.current a) * IZR (ATS.prescale a))
        by lra.
      nra. }
    now apply lt_IZR in Hr. }
  assert (0 < m)%Z as Hmpos.
  { assert (0 < (ATS.top b - ATS.current b) * ATS.prescale b)%Z by nia. nia. }
  assert (ATS.update a (ATS.next_change b)
          = Ok (ATS.mk (ATS.max a) (ATS.prescale_values a) (ATS.prescale a)
                       (ATS.top a) (ATS.min_freq a) (ATS.duty a)
                       (ATS.current a + m) (ATS.next_change b))) as Ua.
  { rewrite update_ok by lia. rewrite Nb' at 1.
    rewrite ticks_to_ahead by lia. now rewrite Z.rem_small by lia. }
  assert (ATS.update b (ATS.next_change b)
          = Ok (ATS.mk (ATS.max b) (ATS.prescale_values b) (ATS.prescale b)
                       (ATS.top b) (ATS.min_freq b) (ATS.duty b)
                       0 (ATS.next_change b))) as Ub.
  { rewrite update_ok by lia. rewrite Nb at 1.
    rewrite ticks_to_ahead by lia.
    replace (ATS.current b + (ATS.top b - ATS.current b))%Z with (ATS.top b)
      by ring.
    now rewrite Z.rem_same by lia. }
  eexists. unfold update_state. fold a b. rewrite Ua, Ub. cbn [bind].
  unfold ATS.current_state at 1 2. cbn [ATS.current ATS.duty].
  rewrite Hdb. cbn [Z.ltb Z.compare orb].
  replace (ATS.current a + m <? ATS.duty a)%Z with true
    by (symmetry; apply Z.ltb_lt; lia).
  rewrite Hs. cbn [orb Bool.eqb].
  split; [reflexivity |]. split; [| cbn; auto].
  unfold holding. cbn [tms Timer1 Timer2 current_state current_t ATS.current
                       ATS.duty ATS.top ATS.prescale ATS.current_t].
  repeat split; try lia; try assumption.
  - rewrite <- Etf, Nb', Ta, !minus_IZR, plus_IZR. unfold Rdiv. ring.
  - rewrite Z.sub_0_r. exact Hdiv.
Qed.

Lemma holding_before_fall (tf : R) (st : logic_state) :
  holding tf st -> current_t st < tf.
Proof.
  intros (_ & Hca & _ & Hpa & _ & _ & _ & _ & _ & Etf & _). cbv zeta in *.
  assert (0 < IZR (ATS.duty (Timer1 (tms st)) - ATS.current (Timer1 (tms st))))
    by (apply IZR_lt; lia).
  apply IZR_lt in Hpa.
  assert (0 < IZR (ATS.duty (Timer1 (tms st)) - ATS.current (Timer1 (tms st)))
              * IZR (ATS.prescale (Timer1 (tms st))) / ARDUINO_FREQ)
    by (apply Rdiv_lt_0_compat; [nra | unfold ARDUINO_FREQ; lra]).
  lra.
Qed.

(** The loop between two commands, entered while the first timer holds its
    output and left not before that timer falls: the pulse that is open is
    closed at the fall, cut to [MAX_PULSE_LENGTH]. *)
Lemma advance_to_first_fall (fuel : nat) (cmd_t tf : R)
    (st st' : logic_state) :
  holding tf st -> tf <= cmd_t ->
  advance_to fuel cmd_t st = Ok st' ->
  exists more,
    pulses st'
    = pulses st
      ++ (current_pulse_start st,
          Rmin (current_pulse_start st + MAX_PULSE_LENGTH) tf) :: more.
Proof.
  revert st. induction fuel as [| fuel IH]; intros st Hh Hle H;
    pose proof (holding_before_fall tf st Hh) as Hlt;
    cbn [advance_to] in H;
    destruct (Rlt_dec (current_t st) cmd_t) as [L | L]; try discriminate;
    try lra.
  assert (ATS.next_change (Timer1 (tms st)) = tf) as Na.
  { destruct Hh as (_ & Hca & _ & _ & _ & _ & _ & Ta & _ & Etf & _).
    cbv zeta in *. unfold ATS.next_change, ATS.current_state.
    replace (_ <? _)%Z with true by (symmetry; apply Z.ltb_lt; lia).
    now rewrite Ta. }
  rewrite Na in H.
  destruct (Rlt_dec (ATS.next_change (Timer2 (tms st))) tf) as [B | B].
  - rewrite Rmin_right in H by lra.
    destruct (Rlt_dec (ATS.next_change (Timer2 (tms st))) cmd_t); [| lra].
    destruct (update_state_hold tf st Hh B) as (st1 & U & Hh1 & Ep & Es & _).
    rewrite U in H. cbn [bind] in H.
    destruct (IH st1 Hh1 Hle H) as [more E].
    exists more. now rewrite E, Ep, Es.
  - rewrite Rmin_left in H by lra.
    destruct (update_state_fall tf st Hh) as (st1 & U & Ep).
    assert (advance_to fuel cmd_t st1 = Ok st') as H1.
    { destruct (Rlt_dec tf cmd_t) as [C | C].
      - rewrite U in H. exact H.
      - assert (cmd_t = tf) as E by lra. rewrite E, U in H.
        cbn [bind] in H. now rewrite E. }
    destruct (advance_to_pulses_prefix _ _ _ _ H1) as [more E].
    exists more. rewrite E, Ep, <- app_assoc. reflexivity.
Qed.

(** [set_note] on the first timer as the module creates it, for a MIDI
    pitch: the prescaler is 1, 8 or 64, the duty lies inside the period, and
    it lasts at most 320 clock cycles, exactly 320 from volume 10 on. *)
Lemma set_note_Timer1_fresh (note volume : Z) :
  (0 <= note <= 127)%Z -> (0 <= volume)%Z ->
  exists p,
    ATS.set_note Timer1_0 note volume = Ok (note_state Timer1_0 note volume p)
    /\ (p = 1 \/ p = 8 \/ p = 64)%Z
    /\ (0 < ATS.duty (note_state Timer1_0 note volume p)
        < ATS.top (note_state Timer1_0 note volume p))%Z
    /\ (ATS.duty (note_state Timer1_0 note volume p) * p <= 320)%Z
    /\ ((MAX_HALF_CYCLES <= volume)%Z ->
        (ATS.duty (note_state Timer1_0 note volume p) * p = 320)%Z).
Proof.
  intros Hnote Hvol.
  pose proof (get_midi_freq_midi_range note Hnote) as [Flo Fhi].
  pose proof (get_midi_freq_pos note) as Fpos.
  assert (forall p D : Z,
            (0 < p)%Z -> (D * p = 320)%Z ->
            (0 < ATS.duty (note_state Timer1_0 note volume p) <= D)%Z
            /\ ((MAX_HALF_CYCLES <= volume)%Z ->
                ATS.duty (note_state Timer1_0 note volume p) = D)) as Hduty.
  { intros p D Hp HD. unfold note_state. cbn [ATS.duty].
    pose proof (duty_ticks_nonneg volume p Hp Hvol) as H0.
    pose proof (duty_ticks_le volume p D Hp ltac:(lia)) as H1.
    split.
    - destruct (Z.eqb_spec (duty_ticks volume p) 0); nia.
    - intros Hv. assert (duty_ticks volume p = D) as ->.
      { unfold duty_ticks. rewrite Z.min_r by assumption.
        replace (IZR MAX_HALF_CYCLES * HALF_CYCLE_LENGTH * ARDUINO_FREQ / IZR p)
          with (IZR D); [apply py_round_IZR |].
        apply (f_equal IZR) in HD. rewrite mult_IZR in HD.
        apply IZR_lt in Hp.
        unfold MAX_HALF_CYCLES, HALF_CYCLE_LENGTH, COIL_FREQ, ARDUINO_FREQ.
        replace (IZR 10 * (1 / (2 * 250000)) * 16000000 / IZR p)
          with (IZR 320 / IZR p) by (field; lra).
        rewrite <- HD. field. lra. }
      destruct (Z.eqb_spec D 0); [nia | reflexivity]. }
  assert (forall p N : Z,
            (0 < p)%Z -> IZR N * (IZR p * get_midi_freq note) <= ARDUINO_FREQ ->
            (N <= ATS.top (note_state Timer1_0 note volume p))%Z) as Htop.
  { intros p N Hp HN. unfold note_state. cbn [ATS.top].
    eapply note_top_ge; [reflexivity | assumption | assumption]. }
  assert (~ get_midi_freq note < ATS.min_freq Timer1_0) as Hmin.
  { cbn. unfold ARDUINO_FREQ. lra. }
  cbn [Timer1_0 ATS.max ATS.prescale_values] in *.
  destruct (Rlt_dec (ARDUINO_FREQ / IZR (65536 * 1)) (get_midi_freq note))
    as [A1 | A1].
  { exists 1%Z. split.
    - apply set_note_with; [exact Hmin | | lia].
      cbn [ATS.next_prescale ATS.max ATS.prescale_values Timer1_0].
      rewrite py_truediv_ok by (apply not_0_IZR; lia). cbn [bind].
      destruct (Rlt_dec _ _); [reflexivity | contradiction].
    - destruct (Hduty 1 320 ltac:(lia) ltac:(lia))%Z as [D1 D2].
      pose proof (Htop 1 1136 ltac:(lia))%Z as T1.
      split; [auto |]. split; [| split; [lia | intros Hv; rewrite D2; auto; lia]].
      split; [lia |]. apply Z.le_lt_trans with 320%Z; [lia |].
      apply Z.lt_le_trans with 1136%Z; [lia |]. apply T1.
      unfold ARDUINO_FREQ. lra. }
  destruct (Rlt_dec (ARDUINO_FREQ / IZR (65536 * 8)) (get_midi_freq note))
    as [A2 | A2].
  { exists 8%Z. split.
    - apply set_note_with; [exact Hmin | | lia].
      cbn [ATS.next_prescale ATS.max ATS.prescale_values Timer1_0].
      rewrite py_truediv_ok by (apply not_0_IZR; lia). cbn [bind].
      destruct (Rlt_dec _ _); [contradiction |].
      rewrite py_truediv_ok by (apply not_0_IZR; lia). cbn [bind].
      destruct (Rlt_dec _ _); [reflexivity | contradiction].
    - destruct (Hduty 8 40 ltac:(lia) ltac:(lia))%Z as [D1 D2].
      pose proof (Htop 8 8192 ltac:(lia))%Z as T1.
      split; [auto |]. split; [| split; [lia | intros Hv; rewrite D2; auto; lia]].
      split; [lia |]. apply Z.le_lt_trans with 40%Z; [lia |].
      apply Z.lt_le_trans with 8192%Z; [lia |]. apply T1.
      unfold ARDUINO_FREQ in *. cbn in A1. lra. }
  destruct (Rlt_dec (ARDUINO_FREQ / IZR (65536 * 64)) (get_midi_freq note))
    as [A3 | A3].
  { exists 64%Z. split.
    - apply set_note_with; [exact Hmin | | lia].
      cbn [ATS.next_prescale ATS.max ATS.prescale_values Timer1_0].
      rewrite py_truediv_ok by (apply not_0_IZR; lia). cbn [bind].
      destruct (Rlt_dec _ _); [contradiction |].
      rewrite py_truediv_ok by (apply not_0_IZR; lia). cbn [bind].
      destruct (Rlt_dec _ _); [contradiction |].
      rewrite py_truediv_ok by (apply not_0_IZR; lia). cbn [bind].
      destruct (Rlt_dec _ _); [reflexivity | contradiction].
    - destruct (Hduty 64 5 ltac:(lia) ltac:(lia))%Z as [D1 D2].
      pose proof (Htop 64 8192 ltac:(lia))%Z as T1.
      split; [auto |]. split; [| split; [lia | intros Hv; rewrite D2; auto; lia]].
      split; [lia |]. apply Z.le_lt_trans with 5%Z; [lia |].
      apply Z.lt_le_trans with 8192%Z; [lia |]. apply T1.
      unfold ARDUINO_FREQ in *. cbn in A2. lra. }
  exfalso. unfold ARDUINO_FREQ in *. cbn in A3. lra.
Qed.

(** The generator after the tempo command and the note-on of a held-note
    stream: the pulse [(0, 0)] is recorded, and the first timer holds its
    output from time 0 on. *)
Lemma held_note_start (fuel : nat) (ticks_per_beat tempo0 note0 volume0 : Z)
    (last : command) (p : Z) :
  ticks_per_beat <> 0%Z ->
  ATS.set_note Timer1_0 note0 volume0
  = Ok (note_state Timer1_0 note0 volume0 p) ->
  (0 < p)%Z ->
  (0 < ATS.duty (note_state Timer1_0 note0 volume0 p)
   < ATS.top (note_state Timer1_0 note0 volume0 p))%Z ->
  run_cmds fuel ticks_per_beat (held_note_stream tempo0 note0 volume0 last)
           0 0 (initial_logic_state fresh_timers)
  = run_cmds fuel ticks_per_beat [last] 0 tempo0
             (mk_ls (mk_timers (note_state Timer1_0 note0 volume0 p) Timer2_0)
                    true 0 [(0, 0)] 0).
Proof.
  intros Htpb Hset Hp Hd. unfold held_note_stream.
  rewrite run_cmds_same_time by (try reflexivity; cbn; lia).
  cbn [apply_cmd type tempo bind snd fst].
  rewrite initial_update_state. cbn [bind].
  rewrite run_cmds_same_time by (try reflexivity; cbn; lia).
  cbn [apply_cmd type timer note volume bind snd fst].
  cbn [ArduinoTimers_index Z.sub Z.eqb orb Z.pos_sub Z.add Z.opp bind
       tms fresh_timers Timer1 Timer2 with_timers].
  rewrite Hset. cbn [bind snd fst].
  set (s1 := note_state Timer1_0 note0 volume0 p) in *.
  assert (ATS.current s1 = 0%Z) as Ec.
  { unfold s1, note_state. cbn [ATS.current Timer1_0].
    now destruct (_ <=? 0)%Z. }
  assert (ATS.update s1 0 = Ok s1) as U1.
  { apply (update_same_time s1); [unfold s1; cbn; lia | lia]. }
  unfold update_state.
  cbn [tms Timer1 Timer2 current_state current_pulse_start pulses with_timers].
  rewrite U1, Timer2_0_update_0. cbn [bind].
  assert (ATS.current_state s1 = true) as S1.
  { unfold ATS.current_state. rewrite Ec. apply Z.ltb_lt. lia. }
  rewrite S1. cbn [orb Bool.eqb]. reflexivity.
Qed.

Lemma held_note_holding (note0 volume0 p : Z) :
  (p = 1 \/ p = 8 \/ p = 64)%Z ->
  (0 < ATS.duty (note_state Timer1_0 note0 volume0 p)
   < ATS.top (note_state Timer1_0 note0 volume0 p))%Z ->
  holding (IZR (ATS.duty (note_state Timer1_0 note0 volume0 p) * p)
           / ARDUINO_FREQ)
          (mk_ls (mk_timers (note_state Timer1_0 note0 volume0 p) Timer2_0)
                 true 0 [(0, 0)] 0).
Proof.
  intros Hp Hd. set (s1 := note_state Timer1_0 note0 volume0 p) in *.
  assert (ATS.current s1 = 0%Z) as Ec.
  { unfold s1, note_state. cbn [ATS.current Timer1_0].
    now destruct (_ <=? 0)%Z. }
  assert (ATS.prescale s1 = p) as Ep by reflexivity.
  assert (ATS.current_t s1 = 0) as Et by reflexivity.
  unfold holding. cbn [tms Timer1 Timer2 current_state current_t].
  rewrite Ec, Ep, Et. cbn [Timer2_0 ATS.duty ATS.current ATS.top ATS.prescale
                           ATS.current_t].
  repeat split; try lia.
  - rewrite Z.sub_0_r, mult_IZR. unfold Rdiv. ring.
  - destruct Hp as [-> | [-> | ->]];
      [exists 256%Z | exists 32%Z | exists 4%Z]; reflexivity.
  - destruct Hp as [-> | [-> | ->]];
      [exists 256%Z | exists 32%Z | exists 4%Z]; reflexivity.
Qed.

Lemma held_note_stream_valid (tempo0 note0 volume0 : Z) (last : command) :
  (0 <= tempo0)%Z -> (0 <= note0 <= 127)%Z -> cmd_valid last ->
  Forall cmd_valid (held_note_stream tempo0 note0 volume0 last).
Proof.
  intros Ht Hn Hl. unfold held_note_stream.
  constructor; [| constructor; [| constructor; [exact Hl | constructor]]];
    (split; [split |]); cbn; intros; try lia; try discriminate; auto;
    split; intros; try lia; discriminate.
Qed.

Lemma fresh_logic_live : logic_live (initial_logic_state fresh_timers).
Proof.
  split.
  - unfold timers_synced. cbn [tms Timer1 Timer2 current_t initial_logic_state
                               fresh_timers].
    split; [apply Timer1_0_live |]. split; [apply Timer2_0_live |].
    split; reflexivity.
  - unfold pulses_inv, initial_logic_state.
    cbn [pulses current_pulse_start current_t current_state].
    split; [split; constructor |]. split; [lra |]. split; intros; constructor.
Qed.

(** C8 (as amended).  A stream that sets a positive tempo, turns one note on
    at time 0 on the first timer (a MIDI pitch, a volume that is not
    negative) and holds it, with no note-off, until a later command at a
    time not before [MAX_PULSE_LENGTH]: the generator returns, and its pulse
    list begins with [(0, 0)], which closes the initial "high" state while
    both timers are still off, and then the pulse of the note.  That pulse
    starts at 0 and ends at [min (0 + MAX_PULSE_LENGTH, cursor)], the cursor
    being the time at which the duty that [set_note] chose runs out,
    [duty * prescale / ARDUINO_FREQ].  The duty is at most 320 clock
    cycles, so the pulse lasts at most [MAX_PULSE_LENGTH]; it lasts exactly
    [MAX_PULSE_LENGTH] when the volume is [MAX_HALF_CYCLES] or more.  Every
    pulse of the run ends at or after its start and at most
    [MAX_PULSE_LENGTH] later. *)
Theorem single_note_on_and_pulse_cap (ticks_per_beat tempo0 note0 volume0 : Z)
    (last : command) :
  (0 < ticks_per_beat)%Z -> (0 < tempo0)%Z ->
  (0 <= note0 <= 127)%Z -> (0 <= volume0)%Z -> cmd_valid last ->
  MAX_PULSE_LENGTH
  <= IZR (time last * tempo0) / (1000000 * IZR ticks_per_beat) ->
  exists (s1 : ATS.t) (N : nat) (pulse_end : R) (rest : list pulse)
         (ts' : timers),
    ATS.set_note Timer1_0 note0 volume0 = Ok s1
    /\ pulse_end
       = Rmin (0 + MAX_PULSE_LENGTH)
              (IZR (ATS.duty s1 * ATS.prescale s1) / ARDUINO_FREQ)
    /\ (forall fuel, (N <= fuel)%nat ->
          generate_logic_signal fuel ticks_per_beat
            (held_note_stream tempo0 note0 volume0 last) fresh_timers
          = Ok ((0, 0) :: (0, pulse_end) :: rest, ts'))
    /\ (0 < ATS.duty s1 * ATS.prescale s1 <= 320)%Z
    /\ 0 < pulse_end <= MAX_PULSE_LENGTH
    /\ ((MAX_HALF_CYCLES <= volume0)%Z ->
        (ATS.duty s1 * ATS.prescale s1 = 320)%Z
        /\ pulse_end = MAX_PULSE_LENGTH)
    /\ Forall (fun q : pulse =>
                 fst q <= snd q <= fst q + MAX_PULSE_LENGTH)
              ((0, 0) :: (0, pulse_end) :: rest).
Proof.
  intros Htpb Htempo Hnote Hvol Hlast HT.
  destruct (set_note_Timer1_fresh note0 volume0 Hnote Hvol)
    as (p & Hset & Hp & Hd & Hcap & Hfull).
  set (s1 := note_state Timer1_0 note0 volume0 p) in *.
  assert (ATS.prescale s1 = p) as Ep by reflexivity.
  assert (0 < p)%Z as Hppos by lia.
  set (w := IZR (ATS.duty s1 * ATS.prescale s1) / ARDUINO_FREQ).
  assert (MAX_PULSE_LENGTH = IZR 320 / ARDUINO_FREQ) as Emax.
  { unfold MAX_PULSE_LENGTH, MAX_HALF_CYCLES, HALF_CYCLE_LENGTH, COIL_FREQ,
      ARDUINO_FREQ. lra. }
  assert (w <= MAX_PULSE_LENGTH) as Hw.
  { unfold w. rewrite Emax, Ep. apply IZR_le in Hcap.
    unfold ARDUINO_FREQ. lra. }
  set (cmds := held_note_stream tempo0 note0 volume0 last).
  destruct (run_cmds_returns ticks_per_beat cmds Htpb
              (held_note_stream_valid tempo0 note0 volume0 last
                 ltac:(lia) Hnote Hlast)
              0 0%Z (initial_logic_state fresh_timers) fresh_logic_live
              eq_refl (Z.le_refl 0))
    as (N & st' & Hlive & _ & Hrun).
  pose proof (Hrun N (Nat.le_refl N)) as H.
  unfold cmds in H.
  rewrite (held_note_start N ticks_per_beat tempo0 note0 volume0 last p
             ltac:(lia) Hset Hppos Hd) in H.
  fold s1 in H. cbn [run_cmds] in H.
  assert (0 < IZR ticks_per_beat) as Htpb' by (now apply IZR_lt).
  rewrite py_truediv_ok in H by nra. cbn [bind] in H.
  set (T := IZR (time last * tempo0) / (1000000 * IZR ticks_per_beat)) in *.
  destruct (advance_to N (0 + T) _) as [st3 | |] eqn:A; cbn [bind] in H;
    try discriminate.
  destruct (apply_cmd last tempo0 st3) as [r | |] eqn:C; cbn [bind] in H;
    try discriminate.
  destruct (update_state (0 + T) (snd r)) as [st4 | |] eqn:U; cbn [bind] in H;
    try discriminate.
  injection H as <-.
  pose proof (held_note_holding note0 volume0 p Hp Hd) as Hh. fold s1 in Hh.
  replace (IZR (ATS.duty s1 * p) / ARDUINO_FREQ) with w in Hh
    by (unfold w; now rewrite Ep).
  destruct (advance_to_first_fall N (0 + T) w _ st3 Hh ltac:(lra) A)
    as [more E3].
  cbn [pulses current_pulse_start app] in E3.
  rewrite Rmin_right in E3 by lra.
  destruct (apply_cmd_locals _ _ _ _ C) as (_ & _ & Er & _).
  assert (exists rest, pulses st4 = (0, 0) :: (0, w) :: rest) as [rest E4].
  { destruct (update_state_pulses _ _ _ U) as (_ & [E | (_ & _ & E)]);
      rewrite E, Er, E3; cbn [app]; eauto. }
  assert (Rmin (0 + MAX_PULSE_LENGTH) w = w) as Em
      by (apply Rmin_right; lra).
  assert (0 < w) as Hw0.
  { unfold w. rewrite Ep. unfold ARDUINO_FREQ.
    assert (0 < IZR (ATS.duty s1 * p)) by (apply IZR_lt; nia).
    apply Rdiv_lt_0_compat; lra. }
  exists s1, N, w, rest, (tms st4).
  split; [exact Hset |]. split; [fold w; now rewrite Em |].
  split; [| split; [rewrite Ep; nia | split; [lra | split]]].
  - intros fuel Hfuel. unfold generate_logic_signal. fold cmds.
    rewrite (Hrun fuel Hfuel). cbn [bind]. now rewrite E4.
  - intros Hv. specialize (Hfull Hv). rewrite Ep.
    split; [exact Hfull |]. unfold w. rewrite Emax, Ep.
    now rewrite Hfull.
  - rewrite <- E4.
    destruct Hlive as [_ ((Hdur & _) & _)]. exact Hdur.
Qed.

Lemma single_note_on_and_pulse_cap_witness :
  exists (s1 : ATS.t) (N : nat) (pulse_end : R) (rest : list pulse)
         (ts' : timers),
    ATS.set_note Timer1_0 69 10 = Ok s1
    /\ pulse_end
       = Rmin (0 + MAX_PULSE_LENGTH)
              (IZR (ATS.duty s1 * ATS.prescale s1) / ARDUINO_FREQ)
    /\ (forall fuel, (N <= fuel)%nat ->
          generate_logic_signal fuel 480
            (held_note_stream 500000 69 10 later_cmd) fresh_timers
          = Ok ((0, 0) :: (0, pulse_end) :: rest, ts'))
    /\ (0 < ATS.duty s1 * ATS.prescale s1 <= 320)%Z
    /\ 0 < pulse_end <= MAX_PULSE_LENGTH
    /\ ((MAX_HALF_CYCLES <= 10)%Z ->
        (ATS.duty s1 * ATS.prescale s1 = 320)%Z
        /\ pulse_end = MAX_PULSE_LENGTH)
    /\ Forall (fun q : pulse =>
                 fst q <= snd q <= fst q + MAX_PULSE_LENGTH)
              ((0, 0) :: (0, pulse_end) :: rest).
Proof.
  apply (single_note_on_and_pulse_cap 480 500000 69 10 later_cmd);
    try lia.
  - split; [split |]; cbn; intros; try lia; split; intros; discriminate.
  - unfold MAX_PULSE_LENGTH, MAX_HALF_CYCLES, HALF_CYCLE_LENGTH, COIL_FREQ.
    cbn. lra.
Defined.

(** ** A held note below the cap: a concrete run *)

Lemma update_by_ticks (self : ATS.t) (tt : R) (k : Z) :
  ATS.prescale self <> 0%Z -> ATS.top self <> 0%Z ->
  (tt - ATS.current_t self) * ARDUINO_FREQ / IZR (ATS.prescale self) = IZR k ->
  ATS.update self tt
  = Ok (ATS.mk (ATS.max self) (ATS.prescale_values self) (ATS.prescale self)
               (ATS.top self) (ATS.min_freq self) (ATS.duty self)
               (Z.rem (ATS.current self + k) (ATS.top self)) tt).
Proof.
  intros Hp Ht Hk. rewrite update_ok by assumption.
  unfold ticks_to. now rewrite Hk, py_round_IZR.
Qed.

(** One pass of the loop between two commands. *)
Lemma advance_to_step (fuel : nat) (cmd_t : R) (st st1 : logic_state) :
  current_t st < cmd_t ->
  (let ntc := Rmin (ATS.next_change (Timer1 (tms st)))
                   (ATS.next_change (Timer2 (tms st))) in
   if Rlt_dec ntc cmd_t then update_state ntc st else update_state cmd_t st)
  = Ok st1 ->
  advance_to (S fuel) cmd_t st = advance_to fuel cmd_t st1.
Proof.
  intros Hlt H. cbn [advance_to].
  destruct (Rlt_dec (current_t st) cmd_t); [| contradiction].
  cbv zeta in H. rewrite H. reflexivity.
Qed.

(** A4 on the first timer at a volume from 1 to 10: prescaler 1, period
    36364, and a duty of 32 ticks for each step of volume. *)
Lemma set_note_a4_volume (self : ATS.t) (v : Z) :
  same_config self Timer1_0 -> (0 <= ATS.current self < 36364)%Z ->
  (1 <= v <= 10)%Z ->
  ATS.set_note self 69 v
  = Ok (ATS.mk 65536 [1; 8; 64; 256; 1024]%Z 1 36364
               (ARDUINO_FREQ / IZR (1024 * 65536)) (32 * v) (ATS.current self)
               (ATS.current_t self)).
Proof.
  intros (E1 & E2 & E3) Hc Hv.
  assert (~ get_midi_freq 69 < ATS.min_freq self) as Hmin.
  { rewrite E3, get_midi_freq_base. cbn. unfold ARDUINO_FREQ. lra. }
  rewrite (set_note_with self 69 v 1 Hmin); [| | lia].
  - unfold note_state, duty_ticks. rewrite E1, E2, E3, get_midi_freq_base.
    assert (py_round (ARDUINO_FREQ / (1 * 440)) = 36364%Z) as ->.
    { apply py_round_near. unfold ARDUINO_FREQ. lra. }
    assert (py_round (IZR (Z.min v MAX_HALF_CYCLES) * HALF_CYCLE_LENGTH
                      * ARDUINO_FREQ / 1) = (32 * v)%Z) as ->.
    { replace (IZR (Z.min v MAX_HALF_CYCLES) * HALF_CYCLE_LENGTH
               * ARDUINO_FREQ / 1) with (IZR (32 * v)).
      - apply py_round_IZR.
      - rewrite Z.min_l by (unfold MAX_HALF_CYCLES; lia). rewrite mult_IZR.
        unfold HALF_CYCLE_LENGTH, COIL_FREQ, ARDUINO_FREQ. lra. }
    cbn [Timer1_0 ATS.max ATS.prescale_values ATS.min_freq].
    destruct (Z.eqb_spec (32 * v) 0); [lia |].
    destruct (Z.leb_spec 36364 (ATS.current self)); [lia | reflexivity].
  - rewrite E1, E2, get_midi_freq_base. cbn [Timer1_0 ATS.max ATS.prescale_values].
    cbn [ATS.next_prescale].
    rewrite py_truediv_ok by (apply not_0_IZR; lia). cbn [bind].
    destruct (Rlt_dec _ _) as [L | L]; [reflexivity |].
    exfalso. apply L. cbn. unfold ARDUINO_FREQ. lra.
Qed.

Ltac zsub :=
  repeat match goal with
         | |- context [IZR (Z.sub ?a ?b)] =>
             let v := eval vm_compute in (Z.sub a b) in
             change (Z.sub a b) with v
         end.

Ltac timer_step k :=
  match goal with
  | |- context [ATS.update ?s ?t] =>
      rewrite (update_by_ticks s t k)
        by (cbn [ATS.prescale ATS.top ATS.current_t]; try lia;
            unfold ARDUINO_FREQ; lra)
  end.

(** The run on [a4_soft_stream], one tick per beat, from the fresh timers. *)
Lemma a4_soft_run (fuel : nat) :
  generate_logic_signal (3 + fuel) 1 a4_soft_stream fresh_timers
  = Ok ([(0, 0); (0, 1 / 100000)], mk_timers Timer1_a4_soft Timer2_soft).
Proof.
  unfold generate_logic_signal, a4_soft_stream.
  assert (ATS.set_note Timer1_0 69 5
          = Ok (note_state Timer1_0 69 5 1)
          /\ note_state Timer1_0 69 5 1
             = ATS.mk 65536 [1; 8; 64; 256; 1024]%Z 1 36364
                      (ARDUINO_FREQ / IZR (1024 * 65536)) 160 0 0)
    as [Hset Es1].
  { pose proof (set_note_a4_volume Timer1_0 5
                  (conj eq_refl (conj eq_refl eq_refl))
                  ltac:(cbn; lia) ltac:(lia)) as H.
    cbn [Z.mul Pos.mul Timer1_0 ATS.current ATS.current_t] in H.
    assert (ATS.set_note Timer1_0 69 5 = Ok (note_state Timer1_0 69 5 1)) as H'.
    { apply set_note_with; [| | lia].
      - rewrite get_midi_freq_base. cbn. unfold ARDUINO_FREQ. lra.
      - rewrite get_midi_freq_base. cbn [Timer1_0 ATS.max ATS.prescale_values].
        cbn [ATS.next_prescale].
        rewrite py_truediv_ok by (apply not_0_IZR; lia). cbn [bind].
        destruct (Rlt_dec _ _) as [L | L]; [reflexivity |].
        exfalso. apply L. cbn. unfold ARDUINO_FREQ. lra. }
    split; [exact H' |]. rewrite H' in H.
    exact (f_equal (fun o => match o with Ok x => x | _ => Timer1_0 end) H). }
  rewrite (held_note_start (3 + fuel) 1 30 69 5 _ 1 ltac:(lia) Hset ltac:(lia))
    by (rewrite Es1; cbn; lia).
  rewrite Es1. clear Hset Es1.
  cbn [run_cmds time Nat.add].
  rewrite py_truediv_ok by (intros E; simpl in E; lra). cbn [bind].
  replace (0 + IZR (1 * 30) / (1000000 * IZR 1)) with (3 / 100000)
    by (simpl; lra).
  set (mf1 := ARDUINO_FREQ / IZR (1024 * 65536)).
  set (mf2 := ARDUINO_FREQ / IZR (1024 * 256)).
  set (pv1 := [1; 8; 64; 256; 1024]%Z). set (pv2 := [1; 8; 32; 64; 128; 256; 1024]%Z).
  (* first pass: the first timer falls after 160 ticks *)
  rewrite (advance_to_step _ _ _
             (mk_ls (mk_timers (ATS.mk 65536 pv1 1 36364 mf1 160 160 (1 / 100000))
                               (ATS.mk 256 pv2 1 256 mf2 0 160 (1 / 100000)))
                    false 0 [(0, 0); (0, 1 / 100000)] (1 / 100000))).
  2:{ cbn. lra. }
  2:{ cbv zeta. cbn [tms Timer1 Timer2].
      unfold ATS.next_change, ATS.current_state, Timer2_0.
      cbn [ATS.current ATS.duty ATS.top ATS.prescale ATS.current_t Z.ltb
           Z.compare Pos.compare Pos.compare_cont].
      zsub.
      fold pv2 mf2.
      replace (0 + 160 * 1 / ARDUINO_FREQ) with (1 / 100000)
        by (unfold ARDUINO_FREQ; lra).
      replace (0 + 256 * 1 / ARDUINO_FREQ) with (2 / 125000)
        by (unfold ARDUINO_FREQ; lra).
      rewrite Rmin_left by lra.
      destruct (Rlt_dec (1 / 100000) (3 / 100000)); [| lra].
      unfold update_state. cbn [tms Timer1 Timer2].
      timer_step 160%Z. timer_step 160%Z. cbn [bind].
      unfold ATS.current_state.
      cbn [ATS.current ATS.duty ATS.top ATS.prescale ATS.max ATS.min_freq
           ATS.prescale_values Z.add Z.rem Z.quotrem Z.ltb Z.compare
           Pos.compare Pos.compare_cont orb Bool.eqb current_state
           current_pulse_start pulses app].
      change (Z.rem 160 36364) with 160%Z. change (Z.rem 160 256) with 160%Z.
      cbn [Z.ltb Z.compare Pos.compare Pos.compare_cont orb Bool.eqb].
      rewrite Rmin_right
        by (unfold MAX_PULSE_LENGTH, MAX_HALF_CYCLES, HALF_CYCLE_LENGTH,
              COIL_FREQ; lra).
      reflexivity. }
  (* second pass: the second timer wraps *)
  rewrite (advance_to_step _ _ _
             (mk_ls (mk_timers (ATS.mk 65536 pv1 1 36364 mf1 160 256 (2 / 125000))
                               (ATS.mk 256 pv2 1 256 mf2 0 0 (2 / 125000)))
                    false 0 [(0, 0); (0, 1 / 100000)] (2 / 125000))).
  2:{ cbn. lra. }
  2:{ cbv zeta. cbn [tms Timer1 Timer2].
      unfold ATS.next_change, ATS.current_state.
      cbn [ATS.current ATS.duty ATS.top ATS.prescale ATS.current_t Z.ltb
           Z.compare Pos.compare Pos.compare_cont].
      zsub.
      replace (1 / 100000 + 96 * 1 / ARDUINO_FREQ) with (2 / 125000)
        by (unfold ARDUINO_FREQ; lra).
      rewrite Rmin_right by (unfold ARDUINO_FREQ; lra).
      destruct (Rlt_dec (2 / 125000) (3 / 100000)); [| lra].
      unfold update_state. cbn [tms Timer1 Timer2].
      timer_step 96%Z. timer_step 96%Z. cbn [bind].
      unfold ATS.current_state.
      cbn [ATS.current ATS.duty ATS.top ATS.prescale ATS.max ATS.min_freq
           ATS.prescale_values current_state current_pulse_start pulses].
      change (Z.rem (160 + 96) 36364) with 256%Z.
      change (Z.rem (160 + 96) 256) with 0%Z.
      reflexivity. }
  (* third pass: the command is reached before the next change *)
  rewrite (advance_to_step _ _ _
             (mk_ls (mk_timers Timer1_a4_soft Timer2_soft)
                    false 0 [(0, 0); (0, 1 / 100000)] (3 / 100000))).
  2:{ cbn. lra. }
  2:{ cbv zeta. cbn [tms Timer1 Timer2].
      unfold ATS.next_change, ATS.current_state.
      cbn [ATS.current ATS.duty ATS.top ATS.prescale ATS.current_t Z.ltb
           Z.compare Pos.compare Pos.compare_cont].
      zsub.
      rewrite Rmin_right by (unfold ARDUINO_FREQ; lra).
      destruct (Rlt_dec _ (3 / 100000)) as [L | _];
        [unfold ARDUINO_FREQ in L; lra |].
      unfold update_state. cbn [tms Timer1 Timer2].
      timer_step 224%Z. timer_step 224%Z. cbn [bind].
      unfold ATS.current_state.
      cbn [ATS.current ATS.duty ATS.top ATS.prescale ATS.max ATS.min_freq
           ATS.prescale_values current_state current_pulse_start pulses].
      change (Z.rem (256 + 224) 36364) with 480%Z.
      change (Z.rem (0 + 224) 256) with 224%Z.
      reflexivity. }
  rewrite advance_to_done by (cbn; lra). cbn [bind].
  cbn [apply_cmd type tempo bind snd fst].
  unfold update_state. cbn [tms Timer1 Timer2].
  pose proof (update_same_time Timer1_a4_soft ltac:(cbn; lia) ltac:(cbn; lia))
    as U1.
  pose proof (update_same_time Timer2_soft ltac:(cbn; lia) ltac:(cbn; lia))
    as U2.
  change (ATS.current_t Timer1_a4_soft) with (3 / 100000) in U1.
  change (ATS.current_t Timer2_soft) with (3 / 100000) in U2.
  rewrite U1, U2. cbn [bind]. reflexivity.
Qed.

(** C8, counterexample.  A4 at volume 5 on the first timer, turned on at
    time 0 and held, with no note-off, for 30 microseconds, which is more
    than [MAX_PULSE_LENGTH]: the pulses are [(0, 0)] and the pulse of the
    note, which lasts 10 microseconds, the duty of 160 ticks that volume 5
    gives.  No pulse lasts [MAX_PULSE_LENGTH]. *)
Lemma soft_note_pulse_below_cap :
  a4_soft_stream = held_note_stream 30 69 5 (mk_cmd 1 set_tempo 30 0 0 0)
  /\ MAX_PULSE_LENGTH <= IZR (1 * 30) / (1000000 * IZR 1)
  /\ generate_logic_signal 10 1 a4_soft_stream fresh_timers
     = Ok ([(0, 0); (0, 1 / 100000)], mk_timers Timer1_a4_soft Timer2_soft)
  /\ ~ has_capped_pulse [(0, 0); (0, 1 / 100000)].
Proof.
  split; [reflexivity |]. split; [| split].
  - unfold MAX_PULSE_LENGTH, MAX_HALF_CYCLES, HALF_CYCLE_LENGTH, COIL_FREQ.
    simpl. lra.
  - apply (a4_soft_run 7).
  - intros (q & Hin & Hq). revert Hq.
    unfold MAX_PULSE_LENGTH, MAX_HALF_CYCLES, HALF_CYCLE_LENGTH, COIL_FREQ.
    destruct Hin as [<- | [<- | []]]; cbn [fst snd]; lra.
Qed.

(** ** Conversions in one process *)


